(** * as-mutable: buffered mutation of JavaScript containers

    A shallow embedding of [src/as-mutable.ts] and [src/im-mutable.ts].
    The two files implement the same mechanism and differ in a handful of
    places (the prototype captured by the worker, [has], [ownKeys], [get]
    and the prototype of the materialised copy); the embedding takes the
    file as a parameter [variant] and branches exactly where the two
    sources differ.

    The JavaScript run time the sources rely on (ordinary objects, arrays,
    property descriptors, the prototype chain, [Reflect]) is modelled in
    the first part of the file.  Scope of that model:
    - numbers are integers plus [NaN];
    - prototype chains are ordinary objects held by value ([ancestor]); a
      prototype object is not a value of the model, so a read that
      produces one, or an assignment that needs one as a value, has no
      answer ([None]);
    - user getters are constant: they are given by the value they return,
      whatever the receiver; user setters have no effect on the store.
      The standard accessor [__proto__] of [Object.prototype] is modelled
      ([GetProto], [SetProto]);
    - module code is strict: a failed assignment or [delete] throws;
    - the invariants the engine enforces on the results of Proxy traps are
      not modelled: the traps are modelled as the handler functions;
    - the private symbol [MUTABLE] is not a key of the model: only the
      [get] trap of a facade answers it ([MUTABLE_of]). *)

From Stdlib Require Import ZArith NArith List String Bool Lia.
From stdpp Require Import base decidable option list strings.

Set Default Proof Using "Type".

(* ================================================================== *)
(** ** Values, keys, descriptors *)

Abbreviation loc := nat.

Inductive value :=
| VUndef
| VNull
| VBool (b : bool)
| VNum (n : Z)
| VNaN
| VStr (s : string)
| VSym (id : nat)
| VBig (n : Z)
| VFun (id : nat)
| VRef (l : loc).

#[global] Instance value_eq_dec : EqDecision value.
Proof. solve_decision. Defined.

(** Property keys: canonical array indices, other strings, symbols. *)
Inductive key :=
| KIdx (i : N)
| KStr (s : string)
| KSym (n : nat).

#[global] Instance key_eq_dec : EqDecision key.
Proof. solve_decision. Defined.

(** [a === b] *)
Definition strict_eq (a b : value) : bool :=
  match a, b with
  | VNaN, _ | _, VNaN => false
  | _, _ => bool_decide (a = b)
  end.

(** [typeof] based classification, as in the source: a symbol and a
    bigint are not among the cases of the [switch]. *)
Definition isPrimitive (target : value) : bool :=
  match target with
  | VStr _ | VNum _ | VNaN | VBool _ | VUndef => true
  | VNull => true
  | _ => false
  end.

Definition isFunction (target : value) : bool :=
  match target with VFun _ => true | _ => false end.

Definition isDuplicable (target : value) : bool :=
  negb (isPrimitive target || isFunction target).

(** The value [x] as a condition: [x && ...]. *)
Definition truthy (x : value) : bool :=
  match x with
  | VUndef | VNull | VNaN => false
  | VBool b => b
  | VNum n => negb (n =? 0)%Z
  | VBig n => negb (n =? 0)%Z
  | VStr s => negb (String.eqb s "")
  | VSym _ | VFun _ | VRef _ => true
  end.

(** A getter is user code, identified by [g_id] and returning
    [g_returns], or the standard getter of [__proto__]. *)
Inductive getter :=
| Getter (g_id : nat) (g_returns : value)
| GetProto.

#[global] Instance getter_eq_dec : EqDecision getter.
Proof. solve_decision. Defined.

(** A setter is user code, identified by [s_id], or the standard setter
    of [__proto__]. *)
Inductive setter :=
| Setter (s_id : nat)
| SetProto.

#[global] Instance setter_eq_dec : EqDecision setter.
Proof. solve_decision. Defined.

(** A property descriptor object: every field may be missing. A present
    [get]/[set] field may hold [undefined] ([Some None]). *)
Record descriptor := Desc {
  d_value : option value;
  d_writable : option bool;
  d_enumerable : option bool;
  d_configurable : option bool;
  d_get : option (option getter);
  d_set : option (option setter)
}.

#[global] Instance descriptor_eq_dec : EqDecision descriptor.
Proof. solve_decision. Defined.

(** [desc.value] *)
Definition desc_value (d : descriptor) : value := default VUndef (d_value d).

(** truthiness of [desc.configurable] *)
Definition desc_configurable (d : descriptor) : bool := default false (d_configurable d).

(** [desc.hasOwnProperty('value')] *)
Definition desc_has_value (d : descriptor) : bool :=
  match d_value d with Some _ => true | None => false end.

(** A property as an object stores it. *)
Inductive property :=
| Data (v : value) (writable enumerable configurable : bool)
| Accessor (get : option getter) (set : option setter) (enumerable configurable : bool).

#[global] Instance property_eq_dec : EqDecision property.
Proof. solve_decision. Defined.

Definition prop_enumerable (p : property) : bool :=
  match p with Data _ _ e _ => e | Accessor _ _ e _ => e end.

Definition prop_configurable (p : property) : bool :=
  match p with Data _ _ _ c => c | Accessor _ _ _ c => c end.

(** The descriptor object [Reflect.getOwnPropertyDescriptor] builds. *)
Definition prop_desc (p : property) : descriptor :=
  match p with
  | Data v w e c => Desc (Some v) (Some w) (Some e) (Some c) None None
  | Accessor g s e c => Desc None None (Some e) (Some c) (Some g) (Some s)
  end.

(* ================================================================== *)
(** ** Ordinary objects, arrays and the prototype chain *)

Abbreviation props := (list (key * property)).

Inductive ancestor :=
| ANull
| AObj (ps : props) (parent : ancestor).

#[global] Instance ancestor_eq_dec : EqDecision ancestor.
Proof. solve_decision. Defined.

Inductive kind := KObject | KArray.

#[global] Instance kind_eq_dec : EqDecision kind.
Proof. solve_decision. Defined.

Record object := Obj {
  o_kind : kind;
  o_props : props;       (* own properties, in own-key order *)
  o_proto : ancestor     (* [[Prototype]] *)
}.

#[global] Instance object_eq_dec : EqDecision object.
Proof. solve_decision. Defined.

Fixpoint own_prop (ps : props) (k : key) : option property :=
  match ps with
  | [] => None
  | (k', p) :: ps' => if decide (k' = k) then Some p else own_prop ps' k
  end.

Fixpoint chain_prop (a : ancestor) (k : key) : option property :=
  match a with
  | ANull => None
  | AObj ps parent =>
      match own_prop ps k with
      | Some p => Some p
      | None => chain_prop parent k
      end
  end.

(** The value a read of the property produces, [a] being the prototype of
    the receiver. A user getter is called; the standard getter of
    [__proto__] answers the prototype of the receiver: [null], or an
    object, which no value denotes ([None]). *)
Definition prop_get (p : property) (a : ancestor) : option value :=
  match p with
  | Data v _ _ _ => Some v
  | Accessor (Some (Getter _ v)) _ _ _ => Some v
  | Accessor (Some GetProto) _ _ _ =>
      match a with
      | ANull => Some VNull
      | AObj _ _ => None
      end
  | Accessor None _ _ _ => Some VUndef
  end.

(** [Reflect.getOwnPropertyDescriptor(o, key)] *)
Definition Reflect_getOwnPropertyDescriptor (o : object) (k : key) : option descriptor :=
  prop_desc <$> own_prop (o_props o) k.

(** [Reflect.ownKeys(o)] *)
Definition Reflect_ownKeys (o : object) : list key := (o_props o).*1.

(** [Reflect.has(a, key)] on a prototype object. *)
Definition chain_has (a : ancestor) (k : key) : bool :=
  match chain_prop a k with Some _ => true | None => false end.

(** [a[key]] on a prototype object [a], which is the receiver. *)
Definition chain_get (a : ancestor) (k : key) : option value :=
  match chain_prop a k with
  | Some p => prop_get p (match a with ANull => ANull | AObj _ parent => parent end)
  | None => Some VUndef
  end.

(** [Reflect.has(o, key)] *)
Definition Reflect_has (o : object) (k : key) : bool :=
  match own_prop (o_props o) k with
  | Some _ => true
  | None => chain_has (o_proto o) k
  end.

(** [o[key]], [o] being the receiver. *)
Definition obj_get (o : object) (k : key) : option value :=
  match own_prop (o_props o) k with
  | Some p => prop_get p (o_proto o)
  | None =>
      match chain_prop (o_proto o) k with
      | Some p => prop_get p (o_proto o)
      | None => Some VUndef
      end
  end.

(** Own-key order: indices ascending, then strings, then symbols, the
    last two in creation order. [key_before k k'] says that a new key [k]
    is placed in front of the existing key [k']. *)
Definition key_before (k k' : key) : bool :=
  match k, k' with
  | KIdx i, KIdx j => (i <? j)%N
  | KIdx _, _ => true
  | KStr _, KSym _ => true
  | _, _ => false
  end.

Fixpoint add_prop (k : key) (p : property) (ps : props) : props :=
  match ps with
  | [] => [(k, p)]
  | (k', p') :: ps' =>
      if key_before k k' then (k, p) :: ps else (k', p') :: add_prop k p ps'
  end.

Fixpoint replace_prop (k : key) (p : property) (ps : props) : props :=
  match ps with
  | [] => []
  | (k', p') :: ps' =>
      if decide (k' = k) then (k, p) :: ps' else (k', p') :: replace_prop k p ps'
  end.

Fixpoint remove_prop (k : key) (ps : props) : props :=
  match ps with
  | [] => []
  | (k', p') :: ps' =>
      if decide (k' = k) then ps' else (k', p') :: remove_prop k ps'
  end.

Definition put_prop (k : key) (p : property) (ps : props) : props :=
  match own_prop ps k with
  | Some _ => replace_prop k p ps
  | None => add_prop k p ps
  end.

(** Built-in prototypes: a few of their methods, and the accessor
    [__proto__] of [Object.prototype]. *)
Definition builtin (name : string) (id : nat) : key * property :=
  (KStr name, Data (VFun id) true false true).

Definition Object_prototype : ancestor :=
  AObj [builtin "constructor" 1; builtin "hasOwnProperty" 2;
        builtin "isPrototypeOf" 3; builtin "propertyIsEnumerable" 4;
        builtin "toLocaleString" 5; builtin "toString" 6;
        builtin "valueOf" 7;
        (KStr "__proto__", Accessor (Some GetProto) (Some SetProto) false true)] ANull.

Definition Array_prototype : ancestor :=
  AObj [(KStr "length", Data (VNum 0) true false false);
        builtin "constructor" 11; builtin "concat" 12; builtin "filter" 13;
        builtin "forEach" 14; builtin "indexOf" 15; builtin "join" 16;
        builtin "map" 17; builtin "pop" 18; builtin "push" 19;
        builtin "slice" 20; builtin "splice" 21; builtin "toString" 22]
       Object_prototype.

Inductive error := TypeError | RangeError.

Inductive res (A : Type) :=
| Ok (a : A)
| Throw (e : error).
Arguments Ok {A} a.
Arguments Throw {A} e.

(* ================================================================== *)
(** ** Operations the materialiser performs on its fresh copy *)

(** [{ ...c }]: the own enumerable properties, read with [c] as the
    receiver, become plain data properties of a new object literal. *)
Definition spread_object (c : object) : option object :=
  ps ← mapM (λ kp : key * property,
               (λ x, (kp.1, Data x true true true)) <$> prop_get kp.2 (o_proto c))
            (filter (λ kp : key * property, prop_enumerable kp.2 = true) (o_props c));
  Some (Obj KObject ps Object_prototype).

(** The [length] of an array: an own data property holding a number. *)
Definition array_length (o : object) : option nat :=
  match own_prop (o_props o) (KStr "length") with
  | Some (Data (VNum n) _ _ _) => Some (Z.to_nat n)
  | _ => None
  end.

(** [[ ...c ]]: the elements [c[0] .. c[c.length - 1]] in a new array. *)
Definition spread_array (c : object) : option object :=
  n ← array_length c;
  es ← mapM (λ i, (λ x, (KIdx (N.of_nat i), Data x true true true))
                    <$> obj_get c (KIdx (N.of_nat i)))
            (seq 0 n);
  Some (Obj KArray
            (es ++ [(KStr "length", Data (VNum (Z.of_nat n)) true false false)])
            Array_prototype).

(** The number an array length is set to. [None]: the coercion of this
    value is outside the model. *)
Definition to_array_length (v : value) : option (res N) :=
  match v with
  | VNum n =>
      if decide (0 <= n < 2 ^ 32)%Z then Some (Ok (Z.to_N n))
      else Some (Throw RangeError)
  | VNull => Some (Ok 0%N)
  | VBool b => Some (Ok (if b then 1 else 0)%N)
  | VUndef | VNaN => Some (Throw RangeError)
  | VSym _ | VBig _ => Some (Throw TypeError)
  | VStr _ | VFun _ | VRef _ => None
  end.

Definition own_length (ps : props) : N :=
  match own_prop ps (KStr "length") with
  | Some (Data (VNum n) _ _ _) => Z.to_N n
  | _ => 0%N
  end.

Definition length_writable (ps : props) : bool :=
  match own_prop ps (KStr "length") with
  | Some (Data _ w _ _) => w
  | _ => false
  end.

Definition index_from (n : N) (kp : key * property) : bool :=
  match kp.1 with KIdx i => (n <=? i)%N | _ => false end.

(** Installs property [p] at [k]; arrays keep [length] in step. *)
Definition store_prop (o : object) (k : key) (p : property) : option (res object) :=
  let ps := o_props o in
  let ok ps' := Some (Ok (Obj (o_kind o) ps' (o_proto o))) in
  match o_kind o, k with
  | KArray, KIdx i =>
      if (i <? own_length ps)%N then ok (put_prop k p ps)
      else if length_writable ps then
        ok (put_prop (KStr "length")
              (Data (VNum (Z.of_N i + 1)) true false false) (put_prop k p ps))
      else Some (Throw TypeError)
  | KArray, KStr s =>
      if decide (s = "length"%string) then
        match p with
        | Data x w e c =>
            match to_array_length x with
            | None => None
            | Some (Throw e) => Some (Throw e)
            | Some (Ok n) =>
                if (own_length ps <=? n)%N then
                  ok (put_prop k (Data (VNum (Z.of_N n)) w e c) ps)
                else if forallb (λ kp, negb (index_from n kp) || prop_configurable kp.2) ps
                then ok (put_prop k (Data (VNum (Z.of_N n)) w e c)
                           (filter (λ kp, index_from n kp = false) ps))
                else Some (Throw TypeError)
            end
        | Accessor _ _ _ _ => None
        end
      else ok (put_prop k p ps)
  | _, _ => ok (put_prop k p ps)
  end.

(** What the right-hand side of an assignment, or [this.proto] of a
    worker, holds: a value of the model, or a prototype object, held by
    value. *)
Inductive protoval :=
| PValue (x : value)
| PObject (ps : props) (parent : ancestor).

#[global] Instance protoval_eq_dec : EqDecision protoval.
Proof. solve_decision. Defined.

Definition protoval_of (a : ancestor) : protoval :=
  match a with
  | ANull => PValue VNull
  | AObj ps parent => PObject ps parent
  end.

(** The standard setter of [__proto__] called on the extensible object
    [o]: an object or [null] becomes the prototype, any other value is
    ignored. A container of the store or a function as the prototype is
    outside the model. *)
Definition set_prototype (o : object) (x : protoval) : option (res object) :=
  match x with
  | PObject ps parent => Some (Ok (Obj (o_kind o) (o_props o) (AObj ps parent)))
  | PValue VNull => Some (Ok (Obj (o_kind o) (o_props o) ANull))
  | PValue (VRef _) | PValue (VFun _) => None
  | PValue _ => Some (Ok o)
  end.

(** [o[key] = x] in strict code, [o] being the receiver. A prototype
    object as the value of a data property is outside the model. *)
Definition obj_assign (o : object) (k : key) (x : protoval) : option (res object) :=
  let store p :=
    match x with
    | PValue v => store_prop o k (p v)
    | PObject _ _ => None
    end in
  match own_prop (o_props o) k with
  | Some (Data _ w e c) =>
      if w then store (λ v, Data v w e c) else Some (Throw TypeError)
  | Some (Accessor _ (Some (Setter _)) _ _) => Some (Ok o)
  | Some (Accessor _ (Some SetProto) _ _) => set_prototype o x
  | Some (Accessor _ None _ _) => Some (Throw TypeError)
  | None =>
      match chain_prop (o_proto o) k with
      | Some (Data _ false _ _) => Some (Throw TypeError)
      | Some (Accessor _ (Some (Setter _)) _ _) => Some (Ok o)
      | Some (Accessor _ (Some SetProto) _ _) => set_prototype o x
      | Some (Accessor _ None _ _) => Some (Throw TypeError)
      | _ => store (λ v, Data v true true true)
      end
  end.

(** [o[key] = v] *)
Definition obj_set (o : object) (k : key) (v : value) : option (res object) :=
  obj_assign o k (PValue v).

(** [result.__proto__ = proto] *)
Definition set_dunder_proto (o : object) (p : protoval) : option (res object) :=
  obj_assign o (KStr "__proto__") p.

(** [delete o[key]] in strict code. *)
Definition obj_delete (o : object) (k : key) : res object :=
  match own_prop (o_props o) k with
  | None => Ok o
  | Some p =>
      if prop_configurable p
      then Ok (Obj (o_kind o) (remove_prop k (o_props o)) (o_proto o))
      else Throw TypeError
  end.

Definition is_accessor_desc (d : descriptor) : bool :=
  bool_decide (is_Some (d_get d)) || bool_decide (is_Some (d_set d)).

Definition is_data_desc (d : descriptor) : bool :=
  bool_decide (is_Some (d_value d)) || bool_decide (is_Some (d_writable d)).

(** The property a descriptor creates where there was none. *)
Definition new_prop_of_desc (d : descriptor) : property :=
  if is_accessor_desc d
  then Accessor (default None (d_get d)) (default None (d_set d))
                (default false (d_enumerable d)) (default false (d_configurable d))
  else Data (desc_value d) (default false (d_writable d))
            (default false (d_enumerable d)) (default false (d_configurable d)).

(** The property a descriptor turns an existing one into. *)
Definition merge_prop (cur : property) (d : descriptor) : property :=
  let e := default (prop_enumerable cur) (d_enumerable d) in
  let c := default (prop_configurable cur) (d_configurable d) in
  match cur with
  | Data v w _ _ =>
      if is_accessor_desc d
      then Accessor (default None (d_get d)) (default None (d_set d)) e c
      else Data (default v (d_value d)) (default w (d_writable d)) e c
  | Accessor g s _ _ =>
      if is_data_desc d
      then Data (desc_value d) (default false (d_writable d)) e c
      else Accessor (default g (d_get d)) (default s (d_set d)) e c
  end.

(** What a non-configurable property still accepts. *)
Definition compatible (cur : property) (d : descriptor) : bool :=
  prop_configurable cur ||
  (negb (bool_decide (d_configurable d = Some true))
   && bool_decide (d_enumerable d = None ∨ d_enumerable d = Some (prop_enumerable cur))
   && match cur with
      | Data v w _ _ =>
          negb (is_accessor_desc d)
          && (w || (negb (bool_decide (d_writable d = Some true))
                    && bool_decide (d_value d = None ∨ d_value d = Some v)))
      | Accessor g s _ _ =>
          negb (is_data_desc d)
          && bool_decide (d_get d = None ∨ d_get d = Some g)
          && bool_decide (d_set d = None ∨ d_set d = Some s)
      end).

(** [Object.defineProperty(o, key, desc)] on an extensible object. *)
Definition obj_define (o : object) (k : key) (d : descriptor) : option (res object) :=
  if is_accessor_desc d && is_data_desc d then Some (Throw TypeError)
  else
    match own_prop (o_props o) k with
    | None => store_prop o k (new_prop_of_desc d)
    | Some cur =>
        if compatible cur d then store_prop o k (merge_prop cur d)
        else Some (Throw TypeError)
    end.

(* ================================================================== *)
(** ** The store: plain containers and facades *)

Inductive variant := AsMutable | ImMutable.

Inductive ops :=
| GET  (* read a mutable prop *)
| SET  (* write to a prop *)
| DEL  (* delete prop *)
| DEF  (* defineProperty *).

#[global] Instance ops_eq_dec : EqDecision ops.
Proof. solve_decision. Defined.

(** One logged operation, [[opcode, desc]]; [desc] is [undefined] for
    [DEL]. *)
Abbreviation op := (ops * option descriptor)%type.

(** [Map<any, Array<[ops, any]>>], in insertion order. *)
Abbreviation recordsMap := (list (key * list op)).

Record ProxyWorker := mkProxyWorker {
  records : recordsMap;
  client : loc;
  proto : protoval
}.

(** A location holds a plain container, or a facade: the Proxy together
    with the worker its handler closes over. *)
Inductive hobj :=
| Plain (o : object)
| Proxy (w : ProxyWorker).

Abbreviation heap := (list hobj).

Definition plain_at (h : heap) (l : loc) : option object :=
  match h !! l with Some (Plain o) => Some o | _ => None end.

Definition worker_at (h : heap) (l : loc) : option ProxyWorker :=
  match h !! l with Some (Proxy w) => Some w | _ => None end.

(** [target[MUTABLE]]: only the [get] trap of a facade answers the
    private symbol. *)
Definition MUTABLE_of (h : heap) (target : value) : option ProxyWorker :=
  match target with
  | VRef l => worker_at h l
  | _ => None
  end.

Definition isMutable (h : heap) (target : value) : bool :=
  match MUTABLE_of h target with Some _ => true | None => false end.

(** [c.__proto__]: an ordinary read of the key [__proto__], which finds
    an own property of that name, one on the chain, the standard accessor
    where the chain reaches [Object.prototype], or nothing. *)
Definition dunder_proto (c : object) : protoval :=
  match match own_prop (o_props c) (KStr "__proto__") with
        | Some p => Some p
        | None => chain_prop (o_proto c) (KStr "__proto__")
        end with
  | Some (Data x _ _ _) => PValue x
  | Some (Accessor (Some (Getter _ x)) _ _ _) => PValue x
  | Some (Accessor (Some GetProto) _ _ _) => protoval_of (o_proto c)
  | Some (Accessor None _ _ _) | None => PValue VUndef
  end.

(** [new ProxyWorker(client)]. The prototype is read as
    [client.__proto__] in as-mutable.ts and with
    [Reflect.getPrototypeOf(client)] in im-mutable.ts. *)
Definition new_ProxyWorker (v : variant) (h : heap) (l : loc) : ProxyWorker :=
  mkProxyWorker []
    l
    match plain_at h l with
    | Some c =>
        match v with
        | AsMutable => dunder_proto c
        | ImMutable => protoval_of (o_proto c)
        end
    | None => PValue VUndef
    end.

(** [asMutable(target)] / [mutable(target)]: the new facade is allocated
    at the end of the store. A symbol or a bigint passes both guards, and
    [new Proxy] (in im-mutable.ts already [Reflect.getPrototypeOf]) throws
    on it. *)
Definition asMutable (v : variant) (target : value) (h : heap) : res value * heap :=
  if negb (isDuplicable target) then (Ok target, h)
  else if isMutable h target then (Ok target, h)
  else
    match target with
    | VRef l => (Ok (VRef (length h)), h ++ [Proxy (new_ProxyWorker v h l)])
    | _ => (Throw TypeError, h)
    end.

(* ================================================================== *)
(** ** class ProxyWorker

    A method takes the worker [this] and, where it reads [this.client],
    the client object [c]; a method that changes the worker returns the
    new one. *)

Module Worker.

(** [Map.prototype.get] *)
Fixpoint records_get (m : recordsMap) (k : key) : option (list op) :=
  match m with
  | [] => None
  | (k', r) :: m' => if decide (k' = k) then Some r else records_get m' k
  end.

(** [Map.prototype.set]: an existing key keeps its place. *)
Fixpoint records_set (m : recordsMap) (k : key) (r : list op) : recordsMap :=
  match m with
  | [] => [(k, r)]
  | (k', r') :: m' =>
      if decide (k' = k) then (k, r) :: m' else (k', r') :: records_set m' k r
  end.

Definition query (this : ProxyWorker) (key : key) : option op :=
  match records_get (records this) key with
  | None => None
  | Some record => last record
  end.

Definition addOp (this : ProxyWorker) (key : key) (o : op) : ProxyWorker :=
  let record := default [] (records_get (records this) key) in
  mkProxyWorker (records_set (records this) key (record ++ [o]))
                (client this) (proto this).

(** [Reflect.has(this.proto, key)]: throws unless [this.proto] is an
    object; a container of the store or a function there is outside the
    model. *)
Definition Reflect_has_proto (p : protoval) (key : key) : option (res bool) :=
  match p with
  | PObject ps parent => Some (Ok (chain_has (AObj ps parent) key))
  | PValue (VRef _) | PValue (VFun _) => None
  | PValue _ => Some (Throw TypeError)
  end.

Definition has (v : variant) (this : ProxyWorker) (c : object) (key : key)
  : option (res bool) :=
  match v with
  | AsMutable =>
      match query this key with
      | None =>
          let hasOwnProperty := bool_decide (is_Some (Reflect_getOwnPropertyDescriptor c key)) in
          match Reflect_has_proto (proto this) key with
          | Some (Ok hasProtoProperty) => Some (Ok (hasOwnProperty || hasProtoProperty))
          | Some (Throw e) => Some (Throw e)
          | None => None
          end
      | Some (opcode, _) =>
          if decide (opcode = DEL) then Reflect_has_proto (proto this) key
          else Some (Ok true)
      end
  | ImMutable =>
      match query this key with
      | None => Some (Ok (Reflect_has c key))
      | Some (opcode, _) =>
          if decide (opcode = DEL) then
            (* client has the key but is not ownProperty *)
            Some (Ok (Reflect_has c key
                      && negb (bool_decide (is_Some (Reflect_getOwnPropertyDescriptor c key)))))
          else Some (Ok true)
      end
  end.

Definition getOwnPropertyDescriptor (this : ProxyWorker) (c : object) (key : key)
  : option descriptor :=
  match query this key with
  | Some (opcode, desc) => desc
  | None => Reflect_getOwnPropertyDescriptor c key
  end.

Definition hasOwnProperty (this : ProxyWorker) (c : object) (key : key) : bool :=
  bool_decide (is_Some (getOwnPropertyDescriptor this c key)).

(** [Set.prototype.add] and [Set.prototype.delete] on an insertion
    ordered set. *)
Definition set_add (keys : list key) (k : key) : list key :=
  if bool_decide (k ∈ keys) then keys else keys ++ [k].

Definition set_delete (keys : list key) (k : key) : list key :=
  filter (λ k', k' ≠ k) keys.

(** The second loop of [ownKeys] in as-mutable.ts. *)
Fixpoint ownKeys_set (m : recordsMap) (keys : list key) : res (list key) :=
  match m with
  | [] => Ok keys
  | (key, v) :: m' =>
      match last v with
      | None => Throw TypeError
      | Some lastOp =>
          if decide (lastOp.1 = DEL) then ownKeys_set m' (set_delete keys key)
          else ownKeys_set m' (set_add keys key)
      end
  end.

(** The two loops of [ownKeys] in im-mutable.ts. *)
Fixpoint ownKeys_original (this : ProxyWorker) (originalKeys : list key) (keys : list key)
  : res (list key) :=
  match originalKeys with
  | [] => Ok keys
  | key :: rest =>
      match records_get (records this) key with
      | Some _ =>
          match query this key with
          | None => Throw TypeError
          | Some (opcode, _) =>
              if decide (opcode = DEL) then ownKeys_original this rest keys
              else ownKeys_original this rest (keys ++ [key])
          end
      | None => ownKeys_original this rest (keys ++ [key])
      end
  end.

Fixpoint ownKeys_push (m : recordsMap) (keys : list key) : res (list key) :=
  match m with
  | [] => Ok keys
  | (key, v) :: m' =>
      match last v with
      | None => Throw TypeError
      | Some lastOp =>
          if decide (lastOp.1 = DEL) then ownKeys_push m' keys
          else ownKeys_push m' (keys ++ [key])
      end
  end.

Definition ownKeys (v : variant) (this : ProxyWorker) (c : object) : res (list key) :=
  let originalKeys := Reflect_ownKeys c in
  match v with
  | AsMutable =>
      ownKeys_set (records this) (foldl set_add [] originalKeys)
  | ImMutable =>
      match ownKeys_original this originalKeys [] with
      | Ok keys => ownKeys_push (records this) keys
      | Throw e => Throw e
      end
  end.

Definition defineProperty (this : ProxyWorker) (key : key) (desc : descriptor) : ProxyWorker :=
  addOp this key (DEF, Some desc).

(** [{ ...desc, value }] *)
Definition with_value (desc : descriptor) (value : value) : descriptor :=
  Desc (Some value) (d_writable desc) (d_enumerable desc) (d_configurable desc)
       (d_get desc) (d_set desc).

(** [this.proto && this.proto[key]]: a property of a primitive, of a
    function or of a container of the store is outside the model. *)
Definition get_proto (p : protoval) (key : key) : option value :=
  match p with
  | PValue x => if truthy x then None else Some x
  | PObject ps parent => chain_get (AObj ps parent) key
  end.

Definition get (v : variant) (this : ProxyWorker) (c : object) (key : key) (h : heap)
  : option (res value * ProxyWorker * heap) :=
  match query this key with
  | Some (opcode, desc) =>
      match v, desc with
      | AsMutable, None => Some (Ok VUndef, this, h)          (* desc && desc.value *)
      | ImMutable, None => Some (Throw TypeError, this, h)    (* desc.value *)
      | _, Some d => Some (Ok (desc_value d), this, h)
      end
  | None =>
      match Reflect_getOwnPropertyDescriptor c key with
      | Some desc =>
          match obj_get c key with
          | None => None
          | Some x =>
              match asMutable v x h with
              | (Throw e, h) => Some (Throw e, this, h)
              | (Ok value, h) =>
                  if isMutable h value && desc_has_value desc
                  then Some (Ok value, addOp this key (GET, Some (with_value desc value)), h)
                  else Some (Ok value, this, h)
              end
          end
      | None =>
          match v with
          | AsMutable => (λ x, (Ok x, this, h)) <$> get_proto (proto this) key
          | ImMutable => (λ x, (Ok x, this, h)) <$> obj_get c key
          end
      end
  end.

Definition set (v : variant) (this : ProxyWorker) (key : key) (value : value) (h : heap)
  : res ProxyWorker * heap :=
  match asMutable v value h with
  | (Throw e, h) => (Throw e, h)
  | (Ok value, h) =>
      let desc := Desc (Some value) (Some true) (Some true) (Some true) None None in
      (Ok (addOp this key (SET, Some desc)), h)
  end.

Definition del (this : ProxyWorker) (c : object) (key : key) : bool * ProxyWorker :=
  match getOwnPropertyDescriptor this c key with
  | None => (true, this)
  | Some desc =>
      if desc_configurable desc then (true, addOp this key (DEL, None))
      else (false, this)
  end.

End Worker.

(* ================================================================== *)
(** ** getValue

    The recursion through nested facades is bounded by [fuel]; [None]
    means that the model gives no answer: the fuel ran out, a worker's
    client is not a plain container of the store, or a coercion outside
    the model was needed. *)

(** [oldValue === newValue], where [oldValue] may be a prototype object
    ([None]), which no value is identical to. *)
Definition same_value (oldValue : option value) (newValue : value) : bool :=
  match oldValue with
  | Some x => strict_eq x newValue
  | None => false
  end.

Section getValue_loop.
Variable getValue_rec : value → heap → option (res value * heap).
Variable c : object.   (* the client *)

(** The body of [proxyWorker.records.forEach((record, key) => ...)]. *)
Definition getValue_record (key : key) (record : list op)
           (result : object) (mutated : bool) (h : heap)
  : option (res (object * bool) * heap) :=
  match last record with
  | None => Some (Throw TypeError, h)
  | Some (opcode, desc) =>
      match opcode with
      | DEL =>
          match obj_delete result key with
          | Ok result => Some (Ok (result, true), h)
          | Throw e => Some (Throw e, h)
          end
      | DEF =>
          match desc with
          | None => Some (Throw TypeError, h)
          | Some desc =>
              match obj_define result key desc with
              | None => None
              | Some (Ok result) => Some (Ok (result, true), h)
              | Some (Throw e) => Some (Throw e, h)
              end
          end
      | GET | SET =>
          let oldValue := obj_get c key in
          match desc with
          | None => Some (Throw TypeError, h)
          | Some desc =>
              match getValue_rec (desc_value desc) h with
              | None => None
              | Some (Throw e, h) => Some (Throw e, h)
              | Some (Ok newValue, h) =>
                  let mutated := if same_value oldValue newValue then mutated else true in
                  match obj_set result key newValue with
                  | None => None
                  | Some (Ok result) => Some (Ok (result, mutated), h)
                  | Some (Throw e) => Some (Throw e, h)
                  end
              end
          end
      end
  end.

Fixpoint getValue_forEach (m : recordsMap) (result : object) (mutated : bool) (h : heap)
  : option (res (object * bool) * heap) :=
  match m with
  | [] => Some (Ok (result, mutated), h)
  | (key, record) :: m' =>
      match getValue_record key record result mutated h with
      | None => None
      | Some (Throw e, h) => Some (Throw e, h)
      | Some (Ok (result, mutated), h) => getValue_forEach m' result mutated h
      end
  end.
End getValue_loop.

(** The duplicate [getValue] starts from. *)
Definition duplicate (v : variant) (proxyWorker : ProxyWorker) (c : object)
  : option (res object) :=
  match match o_kind c with
        | KArray => spread_array c
        | KObject => spread_object c
        end with
  | None => None
  | Some result =>
      match v with
      | AsMutable => set_dunder_proto result (proto proxyWorker)
      | ImMutable => Some (Ok result)
      end
  end.

Fixpoint getValue (v : variant) (fuel : nat) (target : value) (h : heap)
  : option (res value * heap) :=
  match MUTABLE_of h target with
  | None => Some (Ok target, h)
  | Some proxyWorker =>
      match fuel, plain_at h (client proxyWorker) with
      | S fuel, Some c =>
          match records proxyWorker with
          | [] => Some (Ok (VRef (client proxyWorker)), h)
          | _ :: _ =>
              let r := length h in
              match duplicate v proxyWorker c with
              | None => None
              | Some (Throw e) => Some (Throw e, h)
              | Some (Ok result) =>
                  match getValue_forEach (getValue v fuel) c (records proxyWorker)
                          result false (h ++ [Plain result]) with
                  | None => None
                  | Some (Throw e, h) => Some (Throw e, h)
                  | Some (Ok (result, mutated), h) =>
                      Some (Ok (VRef (if mutated then r else client proxyWorker)),
                            <[r := Plain result]> h)
                  end
              end
          end
      | _, _ => None
      end
  end.

(* ================================================================== *)
(** ** The Proxy handler of a facade at location [f] *)

Module Handler.

Definition deref (h : heap) (f : loc) : option (ProxyWorker * object) :=
  match worker_at h f with
  | Some w =>
      match plain_at h (client w) with
      | Some c => Some (w, c)
      | None => None
      end
  | None => None
  end.

Definition get (v : variant) (f : loc) (key : key) (h : heap)
  : option (res value * heap) :=
  match deref h f with
  | Some (proxyWorker, c) =>
      match Worker.get v proxyWorker c key h with
      | Some (r, proxyWorker, h) => Some (r, <[f := Proxy proxyWorker]> h)
      | None => None
      end
  | None => None
  end.

Definition set (v : variant) (f : loc) (key : key) (value : value) (h : heap)
  : option (res bool * heap) :=
  match deref h f with
  | Some (proxyWorker, c) =>
      match Worker.set v proxyWorker key value h with
      | (Ok proxyWorker, h) => Some (Ok true, <[f := Proxy proxyWorker]> h)
      | (Throw e, h) => Some (Throw e, h)
      end
  | None => None
  end.

Definition defineProperty (f : loc) (key : key) (desc : descriptor) (h : heap)
  : option (res bool * heap) :=
  match deref h f with
  | Some (proxyWorker, c) =>
      match Worker.getOwnPropertyDescriptor proxyWorker c key with
      | None => Some (Throw TypeError, h)     (* oldDesc.configurable *)
      | Some oldDesc =>
          if negb (desc_configurable oldDesc) then Some (Ok false, h)
          else Some (Ok true, <[f := Proxy (Worker.defineProperty proxyWorker key desc)]> h)
      end
  | None => None
  end.

Definition getOwnPropertyDescriptor (f : loc) (key : key) (h : heap)
  : option (res (option descriptor) * heap) :=
  match deref h f with
  | Some (proxyWorker, c) => Some (Ok (Worker.getOwnPropertyDescriptor proxyWorker c key), h)
  | None => None
  end.

Definition has (v : variant) (f : loc) (key : key) (h : heap)
  : option (res bool * heap) :=
  match deref h f with
  | Some (proxyWorker, c) =>
      match Worker.has v proxyWorker c key with
      | Some r => Some (r, h)
      | None => None
      end
  | None => None
  end.

Definition ownKeys (v : variant) (f : loc) (h : heap)
  : option (res (list key) * heap) :=
  match deref h f with
  | Some (proxyWorker, c) => Some (Worker.ownKeys v proxyWorker c, h)
  | None => None
  end.

Definition deleteProperty (f : loc) (key : key) (h : heap)
  : option (res bool * heap) :=
  match deref h f with
  | Some (proxyWorker, c) =>
      let '(b, proxyWorker) := Worker.del proxyWorker c key in
      Some (Ok b, <[f := Proxy proxyWorker]> h)
  | None => None
  end.

Definition getPrototypeOf (f : loc) (h : heap)
  : option (res protoval * heap) :=
  match deref h f with
  | Some (proxyWorker, c) => Some (Ok (proto proxyWorker), h)
  | None => None
  end.

Definition setPrototypeOf (f : loc) (a : ancestor) (h : heap)
  : option (res bool * heap) :=
  match deref h f with
  | Some (proxyWorker, c) =>
      Some (Ok true,
            <[f := Proxy (mkProxyWorker (records proxyWorker) (client proxyWorker)
                                        (protoval_of a))]> h)
  | None => None
  end.

Definition preventExtensions (f : loc) (h : heap) : option (res bool * heap) :=
  Some (Ok false, h).

Definition isExtensible (f : loc) (h : heap) : option (res bool * heap) :=
  Some (Ok true, h).

End Handler.

(* ================================================================== *)
(** ** Sessions: sequences of calls against the store *)

Inductive action :=
| ReadProperty (f : loc) (k : key)
| WriteProperty (f : loc) (k : key) (x : value)
| DeleteProperty (f : loc) (k : key)
| DefineProperty (f : loc) (k : key) (d : descriptor)
| HasProperty (f : loc) (k : key)
| ListOwnKeys (f : loc)
| GetOwnDescriptor (f : loc) (k : key)
| GetAncestor (f : loc)
| SetAncestor (f : loc) (a : ancestor)
| PreventExtensions (f : loc)
| Wrap (x : value)
| Unwrap (fuel : nat) (x : value).

(** The store after one call; a call that throws keeps what it had
    written, a call without answer in the model leaves the store as it
    was. *)
Definition after {A} (h : heap) (r : option (res A * heap)) : heap :=
  match r with
  | Some (_, h') => h'
  | None => h
  end.

Definition step (v : variant) (h : heap) (a : action) : heap :=
  match a with
  | ReadProperty f k => after h (Handler.get v f k h)
  | WriteProperty f k x => after h (Handler.set v f k x h)
  | DeleteProperty f k => after h (Handler.deleteProperty f k h)
  | DefineProperty f k d => after h (Handler.defineProperty f k d h)
  | HasProperty f k => after h (Handler.has v f k h)
  | ListOwnKeys f => after h (Handler.ownKeys v f h)
  | GetOwnDescriptor f k => after h (Handler.getOwnPropertyDescriptor f k h)
  | GetAncestor f => after h (Handler.getPrototypeOf f h)
  | SetAncestor f a => after h (Handler.setPrototypeOf f a h)
  | PreventExtensions f => after h (Handler.preventExtensions f h)
  | Wrap x => (asMutable v x h).2
  | Unwrap fuel x => after h (getValue v fuel x h)
  end.

Definition run (v : variant) (h : heap) (script : list action) : heap :=
  foldl (step v) h script.

(* ================================================================== *)
(** ** Sample stores *)

Module Sample.

Definition obj (ps : props) : object := Obj KObject ps Object_prototype.
Definition num (n : Z) : property := Data (VNum n) true true true.
Definition ref (l : loc) : property := Data (VRef l) true true true.
Definition full (x : value) : descriptor :=
  Desc (Some x) (Some true) (Some true) (Some true) None None.

(** [x = { a: 1 }] at location 0 *)
Definition x_a1 : object := obj [(KStr "a", num 1)].
Definition h_a1 : heap := [Plain x_a1].

(** [x = {}] at location 0 *)
Definition h_empty : heap := [Plain (obj [])].

(** [x = { toString: 1 }] at location 0 *)
Definition h_toString : heap := [Plain (obj [(KStr "toString", num 1)])].

(** [x = { a: { v: 1 }, b: { v: 2 } }]: [x.a] at 0, [x.b] at 1, [x] at 2 *)
Definition h_nested : heap :=
  [Plain (obj [(KStr "v", num 1)]); Plain (obj [(KStr "v", num 2)]);
   Plain (obj [(KStr "a", ref 0); (KStr "b", ref 1)])].

(** [x = Object.freeze({ a: 1 })]-like: a non-configurable key *)
Definition h_fixed : heap :=
  [Plain (obj [(KStr "a", Data (VNum 1) true true false)])].

(** [x = { get a() { return y } }] with [y = { v: 1 }]: [y] at 0, [x] at 1 *)
Definition h_getter : heap :=
  [Plain (obj [(KStr "v", num 1)]);
   Plain (obj [(KStr "a", Accessor (Some (Getter 100 (VRef 0))) None true true);
               (KStr "n", num 0)])].

(** [x = [1, 2, 3]] at location 0 *)
Definition arr (xs : list value) : object :=
  Obj KArray
      (imap (λ i x, (KIdx (N.of_nat i), Data x true true true)) xs
         ++ [(KStr "length", Data (VNum (Z.of_nat (length xs))) true false false)])
      Array_prototype.
Definition h_arr : heap := [Plain (arr [VNum 1; VNum 2; VNum 3])].

(** The store after [f = wrap(x)], [x] at location [l]. *)
Definition wrapped (v : variant) (l : loc) (h : heap) : heap := (asMutable v (VRef l) h).2.

(** A session on [f = wrap(x)] for the nested [x]: [f] is at location 3
    and [f.a], once read, at location 4. *)
Definition session : list action :=
  [ReadProperty 3 (KStr "a");
   WriteProperty 4 (KStr "v") (VNum 3);
   HasProperty 3 (KStr "b");
   DeleteProperty 3 (KStr "b");
   DefineProperty 3 (KStr "a") (full (VNum 7));
   WriteProperty 3 (KStr "c") (VRef 1);
   ListOwnKeys 3;
   SetAncestor 3 ANull;
   Unwrap 3 (VRef 3)].

(** The store after [f = wrap(x); f.a] for the nested [x]. *)
Definition h_read (v : variant) : heap :=
  step v (wrapped v 2 h_nested) (ReadProperty 3 (KStr "a")).

End Sample.

(* ================================================================== *)
(** ** Definitions used to state the properties *)

(** [preserved h h']: the store [h'] has every location of [h]; a
    location of [h] holds in [h'] what it held in [h], unless it is a
    facade, whose worker may differ but still serves the same client. *)
Definition preserved (h h' : heap) : Prop :=
  length h ≤ length h' ∧
  ∀ l, l < length h →
       h' !! l = h !! l ∨
       ∃ w w', h !! l = Some (Proxy w) ∧ h' !! l = Some (Proxy w') ∧ client w' = client w.

(** The facade an action is addressed to. *)
Definition target_of (a : action) : option loc :=
  match a with
  | ReadProperty f _ | WriteProperty f _ _ | DeleteProperty f _
  | DefineProperty f _ _ | HasProperty f _ | ListOwnKeys f
  | GetOwnDescriptor f _ | GetAncestor f | SetAncestor f _
  | PreventExtensions f => Some f
  | Wrap _ | Unwrap _ _ => None
  end.

(** [a === b] for the values two reads produce; no answer where a read
    produces a prototype object. *)
Definition identical (a b : option value) : option bool :=
  match a, b with
  | Some x, Some y => Some (strict_eq x y)
  | _, _ => None
  end.

(** The own property the duplicate of an object-like origin [c] has at
    the key [k]: the value read from [c] where [c] owns [k] as an
    enumerable property; in as-mutable.ts the assignment
    [result.__proto__ = this.proto] stores into an own property
    [__proto__] of the duplicate where there is one. *)
Definition duplicate_at (v : variant) (w : ProxyWorker) (c : object) (k : key)
  : option property :=
  match own_prop (o_props c) k with
  | Some p =>
      if prop_enumerable p then
        (λ x, Data x true true true)
          <$> match v with
              | AsMutable =>
                  if decide (k = KStr "__proto__")
                  then match proto w with PValue y => Some y | PObject _ _ => None end
                  else obj_get c k
              | ImMutable => obj_get c k
              end
      else None
  | None => None
  end.

(** [keeps k o o']: going from [o] to [o'], the kind stays and the own
    property [k] stays or disappears. *)
Definition keeps (k : key) (o o' : object) : Prop :=
  o_kind o' = o_kind o ∧
  (own_prop (o_props o') k = own_prop (o_props o) k ∨ own_prop (o_props o') k = None).

(** The log [m] has a Delete as the last entry of [k]. *)
Definition is_deleted (m : recordsMap) (k : key) : bool :=
  match Worker.records_get m k with
  | Some record =>
      match last record with
      | Some (DEL, _) => true
      | _ => false
      end
  | None => false
  end.

(** Following the words of the specification: the origin's own keys in
    their order, without those whose last logged entry is a Delete,
    followed by the keys that only the log has, in log order, again
    without those whose last entry is a Delete. *)
Definition listOwnKeys_spec (this : ProxyWorker) (c : object) : list key :=
  filter (λ k, is_deleted (records this) k = false) (Reflect_ownKeys c)
  ++ filter (λ k, (k ∉ Reflect_ownKeys c) ∧ is_deleted (records this) k = false)
            ((records this).*1).

(** What [addOp] maintains: a key has one record, and no record is
    empty. *)
Definition records_wf (m : recordsMap) : Prop :=
  NoDup m.*1 ∧ Forall (λ kr, kr.2 ≠ []) m.

Definition workers_wf (h : heap) : Prop :=
  ∀ f w, worker_at h f = Some w → records_wf (records w).

(** The values the log of [w] buffers as the effective Read or Write of
    a key: the ones the materialiser recurses into. *)
Definition buffered (m : recordsMap) : list value :=
  omap (λ kr : key * list op,
          match last kr.2 with
          | Some (GET, Some d) | Some (SET, Some d) => Some (desc_value d)
          | _ => None
          end) m.

Definition is_plain (x : hobj) : Prop :=
  match x with Plain _ => True | Proxy _ => False end.

(** [grows h h']: [h'] is [h] followed by plain containers. *)
Definition grows (h h' : heap) : Prop :=
  ∃ ext, h' = h ++ ext ∧ Forall is_plain ext.

(** [assignable o k]: strict code may assign to [o[k]], whatever the
    value: [k] is an own writable data property or an own accessor with a
    user setter, or [k] is not an own key and the prototype chain holds
    it, if at all, as a writable data property or an accessor with a user
    setter. *)
Definition assignable (o : object) (k : key) : bool :=
  match match own_prop (o_props o) k with
        | Some p => Some p
        | None => chain_prop (o_proto o) k
        end with
  | Some (Data _ w _ _) => w
  | Some (Accessor _ (Some (Setter _)) _ _) => true
  | Some (Accessor _ _ _ _) => false
  | None => true
  end.

(** [accepts d k e]: the duplicate [d] takes the replay of the effective
    entry [e] of the key [k]: a Delete; a Define whose descriptor is not
    both a data and an accessor descriptor; a Read or a Write of an
    assignable key. *)
Definition accepts (d : object) (k : key) (e : op) : bool :=
  match e with
  | (DEL, _) => true
  | (DEF, Some desc) => negb (is_accessor_desc desc && is_data_desc desc)
  | (GET, Some _) | (SET, Some _) => assignable d k
  | (_, None) => false
  end.

(** [replayable v rk h]: for every facade of the store, the duplicate of
    its origin is a value of the model, its log has one record per key
    and, for an array-like origin, none for [length], the duplicate
    accepts the effective entry of every key, and the facades the log
    buffers have a smaller rank: the nesting of facades is well
    founded. *)
Definition replayable (v : variant) (rk : loc → nat) (h : heap) : Prop :=
  ∀ f w, worker_at h f = Some w →
         ∃ c d, plain_at h (client w) = Some c ∧
                duplicate v w c = Some (Ok d) ∧
                NoDup (records w).*1 ∧
                (o_kind c = KArray → KStr "length" ∉ (records w).*1) ∧
                Forall (λ kr, ∃ e, last kr.2 = Some e ∧ accepts d kr.1 e = true)
                       (records w) ∧
                ∀ g, VRef g ∈ buffered (records w) → is_Some (worker_at h g) →
                     rk g < rk f.

(** [tame d]: the own properties of [d], the [length] of an array apart,
    are writable, enumerable, configurable data properties. *)
Definition tame (d : object) : Prop :=
  ∀ k p, own_prop (o_props d) k = Some p →
         (o_kind d = KArray ∧ k = KStr "length") ∨ ∃ x, p = Data x true true true.

(** During the replay the copy [o] agrees with the duplicate [d] on the
    keys still to come. *)
Definition agrees (d o : object) (keys : list key) : Prop :=
  o_kind o = o_kind d ∧ o_proto o = o_proto d ∧
  (∀ k, k ∈ keys → own_prop (o_props o) k = own_prop (o_props d) k) ∧
  (o_kind d = KArray → length_writable (o_props o) = true).

(** [P] is a set of locations. The definitions below say that a piece of
    data holds no reference to a location of [P]: no value in it is
    [VRef l] with [l] in [P]. *)
Section avoids.
Variable P : list loc.

Definition value_avoids (x : value) : Prop :=
  match x with VRef l => l ∉ P | _ => True end.

Definition getter_avoids (g : getter) : Prop :=
  match g with Getter _ x => value_avoids x | GetProto => True end.

Definition prop_avoids (p : property) : Prop :=
  match p with
  | Data x _ _ _ => value_avoids x
  | Accessor (Some g) _ _ _ => getter_avoids g
  | Accessor None _ _ _ => True
  end.

Definition props_avoid (ps : props) : Prop :=
  Forall (λ kp : key * property, prop_avoids kp.2) ps.

Fixpoint ancestor_avoids (a : ancestor) : Prop :=
  match a with
  | ANull => True
  | AObj ps parent => props_avoid ps ∧ ancestor_avoids parent
  end.

Definition object_avoids (o : object) : Prop :=
  props_avoid (o_props o) ∧ ancestor_avoids (o_proto o).

Definition desc_avoids (d : descriptor) : Prop :=
  match d_value d with Some x => value_avoids x | None => True end ∧
  match d_get d with Some (Some g) => getter_avoids g | _ => True end.

Definition protoval_avoids (p : protoval) : Prop :=
  match p with
  | PValue x => value_avoids x
  | PObject ps parent => ancestor_avoids (AObj ps parent)
  end.

Definition op_avoids (o : op) : Prop :=
  match o.2 with Some d => desc_avoids d | None => True end.

Definition worker_avoids (w : ProxyWorker) : Prop :=
  Forall (λ kr : key * list op, Forall op_avoids kr.2) (records w) ∧
  protoval_avoids (proto w).

Definition hobj_avoids (x : hobj) : Prop :=
  match x with
  | Plain o => object_avoids o
  | Proxy w => worker_avoids w
  end.

(** What a call passes to a facade holds no reference to [P]; the facade
    it is addressed to, and the argument of [wrap] and [unwrap], may be
    in [P]. *)
Definition action_avoids (a : action) : Prop :=
  match a with
  | WriteProperty _ _ x => value_avoids x
  | DefineProperty _ _ d => desc_avoids d
  | SetAncestor _ a => ancestor_avoids a
  | _ => True
  end.

(** [confined S h]: the locations of [P] are facades of the store [h],
    and no reference to them is held anywhere but in the workers of the
    facades at [S]. *)
Definition confined (S : list loc) (h : heap) : Prop :=
  (∀ p, p ∈ P → is_Some (worker_at h p)) ∧
  ∀ l x, h !! l = Some x →
         match x with
         | Plain o => object_avoids o
         | Proxy w => l ∉ S → worker_avoids w
         end.

End avoids.

(** The store [h] with the workers of the facades at [p1] and [p2]
    replaced. *)
Definition graft (p1 p2 : loc) (w1 w2 : ProxyWorker) (h : heap) : heap :=
  <[p1 := Proxy w1]> (<[p2 := Proxy w2]> h).

Section unchanged_log.
Variable getValue_rec : value → heap → option (res value * heap).
Variable c : object.

(** Following the words of the specification: the log [m] holds no
    Delete and no Define as the effective entry of a key and, for every
    logged key, the materialised buffered value is identical ([===]) to
    the origin's value at that key. The store is threaded through the
    materialisations, in log order, as the code runs them. *)
Fixpoint unchanged_log (m : recordsMap) (h : heap) : Prop :=
  match m with
  | [] => True
  | (key, record) :: m' =>
      ∃ opcode desc newValue h1,
        last record = Some (opcode, Some desc) ∧
        (opcode = GET ∨ opcode = SET) ∧
        getValue_rec (desc_value desc) h = Some (Ok newValue, h1) ∧
        same_value (obj_get c key) newValue = true ∧
        unchanged_log m' h1
  end.
End unchanged_log.

(* ================================================================== *)
(** ** Lemmas on the log *)

Lemma records_get_set_eq (m : recordsMap) (k : key) (r : list op) :
  Worker.records_get (Worker.records_set m k r) k = Some r.
Proof.
  induction m as [|[k' r'] m IH]; simpl.
  - by rewrite decide_True.
  - destruct (decide (k' = k)) as [->|Hne]; simpl.
    + by rewrite decide_True.
    + by rewrite decide_False.
Qed.

Lemma records_get_set_ne (m : recordsMap) (k k' : key) (r : list op) :
  k ≠ k' → Worker.records_get (Worker.records_set m k r) k' = Worker.records_get m k'.
Proof.
  intros Hne. induction m as [|[k0 r0] m IH]; simpl.
  - by rewrite decide_False.
  - destruct (decide (k0 = k)) as [->|Hne0]; simpl.
    + by rewrite !decide_False.
    + destruct (decide (k0 = k')); done.
Qed.

Lemma records_get_Some_elem (m : recordsMap) (k : key) (r : list op) :
  Worker.records_get m k = Some r → (k, r) ∈ m.
Proof.
  induction m as [|[k0 r0] m IH]; simpl; [done|].
  destruct (decide (k0 = k)) as [->|Hne].
  - intros [= ->]. left.
  - intros H. right. by apply IH.
Qed.

Lemma query_addOp_eq (this : ProxyWorker) (k : key) (o : op) :
  Worker.query (Worker.addOp this k o) k = Some o.
Proof.
  unfold Worker.query, Worker.addOp; simpl.
  rewrite records_get_set_eq. apply last_snoc.
Qed.

Lemma query_addOp_ne (this : ProxyWorker) (k k' : key) (o : op) :
  k ≠ k' → Worker.query (Worker.addOp this k o) k' = Worker.query this k'.
Proof.
  intros Hne. unfold Worker.query, Worker.addOp; simpl.
  by rewrite records_get_set_ne.
Qed.

Lemma client_addOp (this : ProxyWorker) (k : key) (o : op) :
  client (Worker.addOp this k o) = client this.
Proof. done. Qed.

Lemma deref_worker (h : heap) (f : loc) (w : ProxyWorker) (c : object) :
  Handler.deref h f = Some (w, c) →
  h !! f = Some (Proxy w) ∧ h !! client w = Some (Plain c).
Proof.
  unfold Handler.deref, worker_at, plain_at. intros H.
  destruct (h !! f) as [[|w']|] eqn:Hf; try done.
  destruct (h !! client w') as [[c'|]|] eqn:Hc; try done.
  by simplify_eq.
Qed.

Lemma deref_intro (h : heap) (f : loc) (w : ProxyWorker) (c : object) :
  h !! f = Some (Proxy w) → h !! client w = Some (Plain c) →
  Handler.deref h f = Some (w, c).
Proof.
  intros Hf Hc. unfold Handler.deref, worker_at, plain_at. by rewrite Hf, Hc.
Qed.

(* ================================================================== *)
(** ** delete, define, read of a deleted key, has *)

(** The worker of as-mutable.ts answers [undefined] for a key whose last
    logged entry is a Delete; the store and the log stay as they were. *)
Lemma get_deleted_as_mutable (this : ProxyWorker) (c : object) (k : key) (h : heap) :
  Worker.query this k = Some (DEL, None) →
  Worker.get AsMutable this c k h = Some (Ok VUndef, this, h).
Proof. intros Hq. unfold Worker.get. by rewrite Hq. Qed.

(** The worker of im-mutable.ts throws on the same read. *)
Lemma get_deleted_im_mutable (this : ProxyWorker) (c : object) (k : key) (h : heap) :
  Worker.query this k = Some (DEL, None) →
  Worker.get ImMutable this c k h = Some (Throw TypeError, this, h).
Proof. intros Hq. unfold Worker.get. by rewrite Hq. Qed.

(** A successful delete leaves a Delete as the last logged entry. *)
Lemma del_records_delete (this : ProxyWorker) (c : object) (k : key) (d : descriptor) :
  Worker.getOwnPropertyDescriptor this c k = Some d →
  desc_configurable d = true →
  Worker.del this c k = (true, Worker.addOp this k (DEL, None)) ∧
  Worker.query (Worker.addOp this k (DEL, None)) k = Some (DEL, None).
Proof.
  intros Hd Hc. unfold Worker.del. rewrite Hd, Hc. split; [done|].
  apply query_addOp_eq.
Qed.

(** C5, not met by im-mutable.ts: for [x = {a: 1}] and [f = wrap(x)],
    after [delete f.a] the last logged entry of [a] is a Delete; reading
    [f.a] yields [undefined] in as-mutable.ts, and raises a TypeError in
    im-mutable.ts, where the claim asks for an absent value and no
    error. *)
Theorem read_deleted_key_im_mutable_throws :
  let session v :=
    match Handler.deleteProperty 1 (KStr "a") (Sample.wrapped v 0 Sample.h_a1) with
    | Some (Ok true, h) =>
        match Handler.deref h 1 with
        | Some (w, _) => Some (Worker.query w (KStr "a"), fst <$> Handler.get v 1 (KStr "a") h)
        | None => None
        end
    | _ => None
    end in
  session AsMutable = Some (Some (DEL, None), Some (Ok VUndef)) ∧
  session ImMutable = Some (Some (DEL, None), Some (Throw TypeError)).
Proof. split; vm_compute; reflexivity. Qed.

(** Where no effective descriptor exists, the [defineProperty] trap
    throws, in both files, and the store is as it was. *)
Lemma defineProperty_absent_throws (f : loc) (k : key) (desc : descriptor)
      (h : heap) (w : ProxyWorker) (c : object) :
  Handler.deref h f = Some (w, c) →
  Worker.getOwnPropertyDescriptor w c k = None →
  Handler.defineProperty f k desc h = Some (Throw TypeError, h).
Proof. intros Hd Hn. unfold Handler.defineProperty. by rewrite Hd, Hn. Qed.

(** Where an effective descriptor exists, the trap fails exactly when it
    is not configurable, and then leaves the store as it was. *)
Lemma defineProperty_present (f : loc) (k : key) (desc old : descriptor)
      (h : heap) (w : ProxyWorker) (c : object) :
  Handler.deref h f = Some (w, c) →
  Worker.getOwnPropertyDescriptor w c k = Some old →
  Handler.defineProperty f k desc h =
    if desc_configurable old
    then Some (Ok true, <[f := Proxy (Worker.addOp w k (DEF, Some desc))]> h)
    else Some (Ok false, h).
Proof.
  intros Hd Ho. unfold Handler.defineProperty. rewrite Hd, Ho.
  by destruct (desc_configurable old).
Qed.

(** C6, not met by either file: for [x = {}] and [f = wrap(x)] the key [a]
    has no effective own descriptor, and
    [defineProperty(f, a, {value: 1, writable, enumerable, configurable})]
    raises a TypeError and records nothing, where the claim asks for
    [true] and a recorded Define; the same happens for a key whose last
    logged entry is a Delete. *)
Theorem defineProperty_absent_key_throws :
  ∀ v : variant,
    let h := Sample.wrapped v 0 Sample.h_empty in
    Handler.getOwnPropertyDescriptor 1 (KStr "a") h = Some (Ok None, h) ∧
    Handler.defineProperty 1 (KStr "a") (Sample.full (VNum 1)) h
      = Some (Throw TypeError, h) ∧
    match Handler.deleteProperty 1 (KStr "a") (Sample.wrapped v 0 Sample.h_a1) with
    | Some (Ok true, h') =>
        Handler.defineProperty 1 (KStr "a") (Sample.full (VNum 1)) h'
          = Some (Throw TypeError, h')
    | _ => False
    end.
Proof. intros []; vm_compute; done. Qed.

(** [has] in as-mutable.ts, for a worker whose prototype is an object:
    a Delete defers to the prototype chain, any other entry answers
    [true], no entry asks the origin and the chain. *)
Lemma has_as_mutable (this : ProxyWorker) (c : object) (k : key)
      (ps : props) (parent : ancestor) :
  proto this = PObject ps parent →
  Worker.has AsMutable this c k =
    Some (Ok match Worker.query this k with
             | Some (DEL, _) => chain_has (AObj ps parent) k
             | Some _ => true
             | None => bool_decide (is_Some (own_prop (o_props c) k))
                       || chain_has (AObj ps parent) k
             end).
Proof.
  intros Hp. unfold Worker.has. rewrite Hp.
  destruct (Worker.query this k) as [[[] d]|]; simpl; try done.
  do 3 f_equal. unfold Reflect_getOwnPropertyDescriptor.
  by destruct (own_prop (o_props c) k).
Qed.

(** [has] in as-mutable.ts throws for a worker whose prototype is
    [undefined] or [null], unless the key has a logged entry other than a
    Delete. *)
Lemma has_as_mutable_no_proto (this : ProxyWorker) (c : object) (k : key) :
  proto this = PValue VUndef ∨ proto this = PValue VNull →
  (∀ o d, Worker.query this k = Some (o, d) → o = DEL) →
  Worker.has AsMutable this c k = Some (Throw TypeError).
Proof.
  intros Hp Hq. unfold Worker.has.
  destruct (Worker.query this k) as [[o d]|].
  - rewrite (Hq o d eq_refl). simpl. by destruct Hp as [-> | ->].
  - by destruct Hp as [-> | ->].
Qed.

(** [has] in im-mutable.ts. *)
Lemma has_im_mutable (this : ProxyWorker) (c : object) (k : key) :
  Worker.has ImMutable this c k =
    Some (Ok match Worker.query this k with
             | Some (DEL, _) =>
                 chain_has (o_proto c) k
                 && negb (bool_decide (is_Some (own_prop (o_props c) k)))
             | Some _ => true
             | None => bool_decide (is_Some (own_prop (o_props c) k))
                       || chain_has (o_proto c) k
             end).
Proof.
  unfold Worker.has, Reflect_has, Reflect_getOwnPropertyDescriptor.
  destruct (Worker.query this k) as [[[] d]|]; simpl; try done;
    destruct (own_prop (o_props c) k); simpl; try done.
  by rewrite andb_false_r.
Qed.

(** C8, not met by im-mutable.ts: for [x = {toString: 1}] and
    [f = wrap(x)], after [delete f.toString] the last logged entry is a
    Delete and the ancestor chain ([Object.prototype]) has [toString];
    [hasProperty] answers [true] in as-mutable.ts and [false] in
    im-mutable.ts, where the claim asks for [true]. *)
Theorem has_deleted_inherited_key_im_mutable :
  let k := KStr "toString" in
  let session v :=
    match Handler.deleteProperty 1 k (Sample.wrapped v 0 Sample.h_toString) with
    | Some (Ok true, h) =>
        match Handler.deref h 1 with
        | Some (w, c) =>
            Some (Worker.query w k, chain_has (o_proto c) k, proto w,
                  fst <$> Handler.has v 1 k h)
        | None => None
        end
    | _ => None
    end in
  session AsMutable
    = Some (Some (DEL, None), true, protoval_of Object_prototype, Some (Ok true)) ∧
  session ImMutable
    = Some (Some (DEL, None), true, protoval_of Object_prototype, Some (Ok false)).
Proof. split; vm_compute; reflexivity. Qed.

(** C4, not met by im-mutable.ts: for [x = {a: 1}] and [f = wrap(x)],
    after [f.a = 2] the key [a] is an own key of the origin that was
    rewritten through the facade; [listOwnKeys] answers [[a]] in
    as-mutable.ts and [[a; a]] in im-mutable.ts, where the claim asks
    for no duplicates. *)
Theorem ownKeys_rewritten_key_im_mutable :
  let session v :=
    match Handler.set v 1 (KStr "a") (VNum 2) (Sample.wrapped v 0 Sample.h_a1) with
    | Some (_, h) => fst <$> Handler.ownKeys v 1 h
    | None => None
    end in
  session AsMutable = Some (Ok [KStr "a"]) ∧
  session ImMutable = Some (Ok [KStr "a"; KStr "a"]).
Proof. split; vm_compute; reflexivity. Qed.

(** C7: [deleteProperty(key)] on the facade at [f]: with no effective
    descriptor it answers [true] and the store (hence the log) is as it
    was; with an effective descriptor that is not configurable it
    answers [false] and the store (the log, the key's value and its
    descriptor) is as it was; otherwise it answers [true] and the worker
    of [f] is the old one with a Delete appended for [key], which is then
    the last logged entry of [key], every other location being as it
    was. *)
Theorem deleteProperty_three_cases (f : loc) (k : key) (h : heap)
        (w : ProxyWorker) (c : object) :
  Handler.deref h f = Some (w, c) →
  match Worker.getOwnPropertyDescriptor w c k with
  | None => Handler.deleteProperty f k h = Some (Ok true, h)
  | Some d =>
      if desc_configurable d
      then ∃ h', Handler.deleteProperty f k h = Some (Ok true, h') ∧
                 Handler.deref h' f = Some (Worker.addOp w k (DEL, None), c) ∧
                 Worker.query (Worker.addOp w k (DEL, None)) k = Some (DEL, None) ∧
                 (∀ k', k' ≠ k →
                    Worker.query (Worker.addOp w k (DEL, None)) k' = Worker.query w k') ∧
                 (∀ l, l ≠ f → h' !! l = h !! l)
      else Handler.deleteProperty f k h = Some (Ok false, h)
  end.
Proof.
  intros Hd. destruct (deref_worker _ _ _ _ Hd) as [Hf Hc].
  unfold Handler.deleteProperty, Worker.del. rewrite Hd.
  destruct (Worker.getOwnPropertyDescriptor w c k) as [d|].
  - destruct (desc_configurable d).
    + eexists. split; [reflexivity|]. repeat split.
      * apply deref_intro.
        -- apply list_lookup_insert_eq. by eapply lookup_lt_Some.
        -- rewrite client_addOp. destruct (decide (f = client w)) as [Heq|Hne].
           ++ rewrite <- Heq in Hc. congruence.
           ++ by rewrite list_lookup_insert_ne.
      * apply query_addOp_eq.
      * intros k' Hne. by apply query_addOp_ne.
      * intros l Hne. by rewrite list_lookup_insert_ne.
    + by rewrite list_insert_id.
  - by rewrite list_insert_id.
Qed.

Lemma deleteProperty_three_cases_witness :
  Handler.deref Sample.h_fixed 0 = None ∧
  Handler.deref (Sample.wrapped AsMutable 0 Sample.h_fixed) 1
    = Some (new_ProxyWorker AsMutable Sample.h_fixed 0,
            Sample.obj [(KStr "a", Data (VNum 1) true true false)]) ∧
  Handler.deleteProperty 1 (KStr "a") (Sample.wrapped AsMutable 0 Sample.h_fixed)
    = Some (Ok false, Sample.wrapped AsMutable 0 Sample.h_fixed).
Proof.
  split; [reflexivity|]. split; [reflexivity|].
  exact (deleteProperty_three_cases 1 (KStr "a")
           (Sample.wrapped AsMutable 0 Sample.h_fixed) _ _ eq_refl).
Defined.

(** [asMutable] applied to what it returned changes nothing, whatever
    the value. *)
Lemma asMutable_again (v : variant) (x y : value) (h h' : heap) :
  asMutable v x h = (Ok y, h') → asMutable v y h' = (Ok y, h').
Proof.
  unfold asMutable.
  destruct (negb (isDuplicable x)) eqn:Hdup; simpl.
  - intros [= <- <-]. by rewrite Hdup.
  - destruct (isMutable h x) eqn:Hmut; simpl.
    + intros [= <- <-]. by rewrite Hdup, Hmut.
    + destruct x; simpl; try done. intros [= <- <-]. simpl.
      unfold isMutable, MUTABLE_of, worker_at.
      by rewrite lookup_app_r, Nat.sub_diag by lia.
Qed.

(** C9: for every plain container [x] of the store, [wrap(x)] is a new
    facade [f]; that facade carries the hidden tag ([isMutable]), and
    [wrap(f)] returns [f] itself and allocates nothing. *)
Theorem wrap_idempotent (v : variant) (h : heap) (l : loc) (c : object) :
  plain_at h l = Some c →
  ∃ f h1, asMutable v (VRef l) h = (Ok (VRef f), h1) ∧
          h !! f = None ∧
          isMutable h1 (VRef f) = true ∧
          asMutable v (VRef f) h1 = (Ok (VRef f), h1).
Proof.
  intros Hc. exists (length h), (h ++ [Proxy (new_ProxyWorker v h l)]).
  assert (asMutable v (VRef l) h
          = (Ok (VRef (length h)), h ++ [Proxy (new_ProxyWorker v h l)])) as Hw.
  { unfold asMutable, isMutable, MUTABLE_of, worker_at. simpl.
    unfold plain_at in Hc. by destruct (h !! l) as [[]|]. }
  split; [done|]. split; [by apply lookup_ge_None_2|].
  pose proof (asMutable_again v _ _ _ _ Hw) as Hi.
  split; [|done].
  unfold isMutable, MUTABLE_of, worker_at.
  by rewrite lookup_app_r, Nat.sub_diag by lia.
Qed.

Lemma wrap_idempotent_witness :
  plain_at Sample.h_a1 0 = Some Sample.x_a1 ∧
  ∃ f h1, asMutable ImMutable (VRef 0) Sample.h_a1 = (Ok (VRef f), h1) ∧
          Sample.h_a1 !! f = None ∧
          isMutable h1 (VRef f) = true ∧
          asMutable ImMutable (VRef f) h1 = (Ok (VRef f), h1).
Proof.
  split; [reflexivity|].
  exact (wrap_idempotent ImMutable Sample.h_a1 0 Sample.x_a1 eq_refl).
Defined.

(* ================================================================== *)
(** ** Frame properties: what a call may change in the store *)

Lemma preserved_refl (h : heap) : preserved h h.
Proof. split; [done|]. intros l _. by left. Qed.

Lemma preserved_trans (h1 h2 h3 : heap) :
  preserved h1 h2 → preserved h2 h3 → preserved h1 h3.
Proof.
  intros [Hl1 H1] [Hl2 H2]. split; [lia|].
  intros l Hl. destruct (H1 l Hl) as [E1|(w & w' & Ha & Hb & Hc)];
    destruct (H2 l ltac:(lia)) as [E2|(u & u' & Ha' & Hb' & Hc')].
  - left. congruence.
  - right. exists u, u'. rewrite <- E1. done.
  - right. exists w, w'. rewrite E2. done.
  - right. exists w, u'. split; [done|]. split; [done|]. congruence.
Qed.

Lemma preserved_prefix (h h' : heap) : h `prefix_of` h' → preserved h h'.
Proof.
  intros [ext ->]. split; [rewrite length_app; lia|].
  intros l Hl. left. by apply lookup_app_l.
Qed.

Lemma preserved_insert_worker (h : heap) (f : loc) (w w' : ProxyWorker) :
  h !! f = Some (Proxy w) → client w' = client w →
  preserved h (<[f := Proxy w']> h).
Proof.
  intros Hf Hc. split; [by rewrite length_insert|].
  intros l Hl. destruct (decide (l = f)) as [->|Hne].
  - right. exists w, w'. split; [done|]. split; [|done].
    by apply list_lookup_insert_eq.
  - left. by apply list_lookup_insert_ne.
Qed.

Lemma preserved_plain (h h' : heap) (l : loc) (o : object) :
  preserved h h' → plain_at h l = Some o → plain_at h' l = Some o.
Proof.
  intros [_ H] Ho. unfold plain_at in *.
  destruct (h !! l) as [[o'|]|] eqn:Hl; try done.
  assert (l < length h) as Hlt by by eapply lookup_lt_Some.
  destruct (H l Hlt) as [E|(w & w' & Ha & _)].
  - by rewrite E, Hl.
  - rewrite Hl in Ha. done.
Qed.

Lemma asMutable_prefix (v : variant) (x : value) (h : heap) :
  h `prefix_of` (asMutable v x h).2.
Proof.
  unfold asMutable.
  destruct (negb (isDuplicable x)); [done|].
  destruct (isMutable h x); [done|].
  destruct x; simpl; try done. by apply prefix_app_r.
Qed.

(** [getValue] only allocates: the store it leaves starts with the store
    it was given, whether it returns or throws. *)
Lemma getValue_record_prefix
      (rec : value → heap → option (res value * heap)) (c : object) :
  (∀ x h r h', rec x h = Some (r, h') → h `prefix_of` h') →
  ∀ k record result mutated h r h',
    getValue_record rec c k record result mutated h = Some (r, h') → h `prefix_of` h'.
Proof.
  intros Hrec k record result mutated h r h' H. unfold getValue_record in H.
  destruct (last record) as [[[] [d|]]|]; simplify_eq; try done.
  1,2: destruct (rec (desc_value d) h) as [[[nv|e] h2]|] eqn:Hr; try done;
       [destruct (obj_set result k nv) as [[]|]|]; simplify_eq; by eapply Hrec.
  1,2: destruct (obj_delete result k); by simplify_eq.
  destruct (obj_define result k d) as [[]|]; by simplify_eq.
Qed.

Lemma getValue_forEach_prefix
      (rec : value → heap → option (res value * heap)) (c : object) :
  (∀ x h r h', rec x h = Some (r, h') → h `prefix_of` h') →
  ∀ m result mutated h r h',
    getValue_forEach rec c m result mutated h = Some (r, h') → h `prefix_of` h'.
Proof.
  intros Hrec m. induction m as [|[k record] m IH]; intros result mutated h r h' H.
  - simpl in H. by simplify_eq.
  - simpl in H.
    destruct (getValue_record rec c k record result mutated h) as [[[[r1 mu1]|e] h1]|] eqn:Hs;
      try done.
    + etrans; [by eapply getValue_record_prefix|]. by eapply IH.
    + simplify_eq. by eapply getValue_record_prefix.
Qed.

Lemma insert_fresh_copy (h ext : heap) (x y : hobj) :
  <[length h := y]> (h ++ x :: ext) = h ++ y :: ext.
Proof.
  rewrite insert_app_r_alt, Nat.sub_diag by lia. done.
Qed.

Lemma getValue_prefix (v : variant) (fuel : nat) :
  ∀ x h r h', getValue v fuel x h = Some (r, h') → h `prefix_of` h'.
Proof.
  induction fuel as [|fuel IH]; intros x h r h' H.
  - simpl in H. destruct (MUTABLE_of h x); by simplify_eq.
  - simpl in H. destruct (MUTABLE_of h x) as [w|]; [|by simplify_eq].
    destruct (plain_at h (client w)) as [c|]; [|done].
    destruct (records w) as [|kr m] eqn:Hm; [by simplify_eq|].
    destruct (duplicate v w c) as [[d|e]|]; [|by simplify_eq|done].
    destruct (getValue_forEach (getValue v fuel) c (kr :: m) d false
                (h ++ [Plain d])) as [[[[ro mu]|e] h1]|] eqn:Hf; try done.
    + apply getValue_forEach_prefix in Hf; [|exact IH].
      destruct Hf as [ext ->]. simplify_eq.
      rewrite <- (assoc_L (++)). simpl. rewrite insert_fresh_copy.
      by apply prefix_app_r.
    + apply getValue_forEach_prefix in Hf; [|exact IH]. simplify_eq.
      etrans; [|exact Hf]. by apply prefix_app_r.
Qed.

Lemma handler_update_preserved (h h1 : heap) (f : loc) (w w' : ProxyWorker) :
  h !! f = Some (Proxy w) → h `prefix_of` h1 → client w' = client w →
  preserved h (<[f := Proxy w']> h1).
Proof.
  intros Hf Hp Hc. eapply preserved_trans; [by apply preserved_prefix|].
  eapply preserved_insert_worker; [|done].
  by eapply prefix_lookup_Some.
Qed.

Lemma Worker_get_frame (v : variant) (w w' : ProxyWorker) (c : object) (k : key)
      (h h1 : heap) (r : res value) :
  Worker.get v w c k h = Some (r, w', h1) →
  h `prefix_of` h1 ∧ client w' = client w.
Proof.
  unfold Worker.get. intros H.
  destruct (Worker.query w k) as [[o [d|]]|].
  - destruct v; by simplify_eq.
  - destruct v; by simplify_eq.
  - destruct (Reflect_getOwnPropertyDescriptor c k) as [desc|].
    + destruct (obj_get c k) as [y|]; [|done].
      pose proof (asMutable_prefix v y h) as Hp.
      destruct (asMutable v y h) as [[x|e] h2]; simpl in Hp; [|by simplify_eq].
      destruct (isMutable h2 x && desc_has_value desc); by simplify_eq.
    + destruct v.
      * destruct (Worker.get_proto (proto w) k); simpl in H; by simplify_eq.
      * destruct (obj_get c k); simpl in H; by simplify_eq.
Qed.

Lemma Worker_set_frame (v : variant) (w : ProxyWorker) (k : key) (x : value)
      (h h1 : heap) (r : res ProxyWorker) :
  Worker.set v w k x h = (r, h1) →
  h `prefix_of` h1 ∧ ∀ w', r = Ok w' → client w' = client w.
Proof.
  unfold Worker.set. intros H.
  pose proof (asMutable_prefix v x h) as Hp.
  destruct (asMutable v x h) as [[y|e] h2]; simpl in Hp; simplify_eq; split; try done.
  by intros w' [= <-].
Qed.

Lemma Worker_del_frame (w w' : ProxyWorker) (c : object) (k : key) (b : bool) :
  Worker.del w c k = (b, w') → client w' = client w.
Proof.
  unfold Worker.del. intros H.
  destruct (Worker.getOwnPropertyDescriptor w c k) as [d|]; [|by simplify_eq].
  destruct (desc_configurable d); by simplify_eq.
Qed.

(** Every call leaves plain containers as they were: it changes the
    worker of a facade, or it allocates. *)
Lemma step_preserved (v : variant) (h : heap) (a : action) :
  preserved h (step v h a).
Proof.
  destruct a as [f k|f k x|f k|f k d|f k|f|f k|f|f a|f|x|fuel x]; simpl.
  - unfold Handler.get. destruct (Handler.deref h f) as [[w c]|] eqn:Hd;
      [|apply preserved_refl].
    destruct (deref_worker _ _ _ _ Hd) as [Hf _].
    destruct (Worker.get v w c k h) as [[[r w'] h1]|] eqn:Hg; simpl;
      [|apply preserved_refl].
    destruct (Worker_get_frame _ _ _ _ _ _ _ _ Hg). by eapply handler_update_preserved.
  - unfold Handler.set. destruct (Handler.deref h f) as [[w c]|] eqn:Hd;
      [|apply preserved_refl].
    destruct (deref_worker _ _ _ _ Hd) as [Hf _].
    destruct (Worker.set v w k x h) as [[w'|e] h1] eqn:Hg; simpl;
      destruct (Worker_set_frame _ _ _ _ _ _ _ Hg) as [Hp Hcl].
    + eapply handler_update_preserved; eauto.
    + by apply preserved_prefix.
  - unfold Handler.deleteProperty. destruct (Handler.deref h f) as [[w c]|] eqn:Hd;
      [|apply preserved_refl].
    destruct (deref_worker _ _ _ _ Hd) as [Hf _].
    destruct (Worker.del w c k) as [b w'] eqn:Hg. simpl.
    eapply preserved_insert_worker; [done|]. by eapply Worker_del_frame.
  - unfold Handler.defineProperty. destruct (Handler.deref h f) as [[w c]|] eqn:Hd;
      [|apply preserved_refl].
    destruct (deref_worker _ _ _ _ Hd) as [Hf _].
    destruct (Worker.getOwnPropertyDescriptor w c k) as [old|]; [|apply preserved_refl].
    destruct (negb (desc_configurable old)); simpl; [apply preserved_refl|].
    by eapply preserved_insert_worker.
  - unfold Handler.has. destruct (Handler.deref h f) as [[w c]|]; [|apply preserved_refl].
    destruct (Worker.has v w c k); apply preserved_refl.
  - unfold Handler.ownKeys. destruct (Handler.deref h f) as [[w c]|]; apply preserved_refl.
  - unfold Handler.getOwnPropertyDescriptor.
    destruct (Handler.deref h f) as [[w c]|]; apply preserved_refl.
  - unfold Handler.getPrototypeOf.
    destruct (Handler.deref h f) as [[w c]|]; apply preserved_refl.
  - unfold Handler.setPrototypeOf. destruct (Handler.deref h f) as [[w c]|] eqn:Hd;
      [|apply preserved_refl].
    destruct (deref_worker _ _ _ _ Hd) as [Hf _]. simpl.
    by eapply preserved_insert_worker.
  - apply preserved_refl.
  - apply preserved_prefix, asMutable_prefix.
  - destruct (getValue v fuel x h) as [[r h1]|] eqn:Hg; simpl; [|apply preserved_refl].
    apply preserved_prefix. by eapply getValue_prefix.
Qed.

Lemma run_preserved (v : variant) (script : list action) :
  ∀ h, preserved h (run v h script).
Proof.
  unfold run. induction script as [|a script IH]; intros h; simpl.
  - apply preserved_refl.
  - eapply preserved_trans; [apply step_preserved|apply IH].
Qed.

(** C1: let [x] be a plain container of the store and [f = wrap(x)].
    After any sequence of facade operations (read, write, delete,
    define, has, own keys, descriptor and ancestor queries, rebinding of
    the ancestor), of calls of wrap and of materialisations, addressed to
    any facades and values, the location of [x] holds the object it held
    before, with the same keys, values and descriptors. Every location
    that holds something else than before was the worker of a facade and
    is the worker of a facade for the same client; everything else that
    was written lies in locations allocated since. *)
Theorem origin_never_mutated (v : variant) (h : heap) (x : loc) (c : object)
        (script : list action) :
  plain_at h x = Some c →
  let h' := run v (asMutable v (VRef x) h).2 script in
  plain_at h' x = Some c ∧
  length h ≤ length h' ∧
  ∀ l, l < length h → h' !! l ≠ h !! l →
       ∃ w w', h !! l = Some (Proxy w) ∧ h' !! l = Some (Proxy w') ∧ client w' = client w.
Proof.
  intros Hc h'.
  assert (preserved h h') as Hp.
  { eapply preserved_trans; [apply preserved_prefix, asMutable_prefix|].
    apply run_preserved. }
  split; [by eapply preserved_plain|].
  destruct Hp as [Hlen Hp]. split; [done|].
  intros l Hl Hne. by destruct (Hp l Hl).
Qed.

Lemma origin_never_mutated_witness :
  plain_at Sample.h_nested 2
    = Some (Sample.obj [(KStr "a", Sample.ref 0); (KStr "b", Sample.ref 1)]) ∧
  let h' := run AsMutable (asMutable AsMutable (VRef 2) Sample.h_nested).2 Sample.session in
  plain_at h' 2
    = Some (Sample.obj [(KStr "a", Sample.ref 0); (KStr "b", Sample.ref 1)]) ∧
  length Sample.h_nested ≤ length h' ∧
  ∀ l, l < length Sample.h_nested → h' !! l ≠ Sample.h_nested !! l →
       ∃ w w', Sample.h_nested !! l = Some (Proxy w) ∧ h' !! l = Some (Proxy w')
               ∧ client w' = client w.
Proof.
  split; [reflexivity|].
  exact (origin_never_mutated AsMutable Sample.h_nested 2 _ Sample.session eq_refl).
Defined.

(** The sample session does write: it leaves seven locations, the last
    one being the copy made by the materialiser, in both files. *)
Example session_writes (v : variant) :
  length (run v (Sample.wrapped v 2 Sample.h_nested) Sample.session) = 7 ∧
  plain_at (run v (Sample.wrapped v 2 Sample.h_nested) Sample.session) 6
    = Some (Obj KObject [(KStr "a", Sample.num 7); (KStr "c", Sample.ref 1)]
                match v with AsMutable => ANull | ImMutable => Object_prototype end).
Proof. destruct v; vm_compute; done. Qed.

(* ================================================================== *)
(** ** When the materialiser returns the origin *)

Lemma getValue_not_mutable (v : variant) (fuel : nat) (x : value) (h : heap) :
  MUTABLE_of h x = None → getValue v fuel x h = Some (Ok x, h).
Proof. intros H. destruct fuel; simpl; by rewrite H. Qed.

(** With an empty log the origin is returned, whatever the fuel. *)
Lemma getValue_empty_log (v : variant) (fuel : nat) (f : loc) (h : heap)
      (w : ProxyWorker) (c : object) :
  worker_at h f = Some w → plain_at h (client w) = Some c → records w = [] →
  getValue v (S fuel) (VRef f) h = Some (Ok (VRef (client w)), h).
Proof. intros Hw Hc Hr. simpl. by rewrite Hw, Hc, Hr. Qed.

Lemma getValue_record_mutated
      (rec : value → heap → option (res value * heap)) (c : object)
      (k : key) (record : list op) (result result' : object)
      (mutated mutated' : bool) (h h' : heap) :
  getValue_record rec c k record result mutated h = Some (Ok (result', mutated'), h') →
  mutated' = false ↔
  mutated = false ∧
  ∃ opcode desc newValue,
    last record = Some (opcode, Some desc) ∧ (opcode = GET ∨ opcode = SET) ∧
    rec (desc_value desc) h = Some (Ok newValue, h') ∧
    same_value (obj_get c k) newValue = true.
Proof.
  unfold getValue_record. intros H.
  destruct (last record) as [[opcode desc]|] eqn:Hl; [|done].
  destruct opcode.
  1,2: destruct desc as [d|]; [|done];
       destruct (rec (desc_value d) h) as [[[nv|e] h2]|] eqn:Hr; try done;
       destruct (obj_set result k nv) as [[ro|e]|]; try done; simplify_eq;
       destruct (same_value (obj_get c k) nv) eqn:Hs;
       (split; [intros Hm; first [done|split; [done|]; eexists _, _, _;
                split; [reflexivity|]; split; [first [by left|by right]|]; by split]
               |intros [Hm (o & d' & nv' & Ho & _ & Hr' & Hs')]; simplify_eq; congruence]).
  - destruct (obj_delete result k); simplify_eq.
    split; [done|]. intros [_ (o & d' & nv' & Ho & [->| ->] & _)]; simplify_eq.
  - destruct desc as [d|]; [|done].
    destruct (obj_define result k d) as [[ro|e]|]; simplify_eq.
    split; [done|]. intros [_ (o & d' & nv' & Ho & [->| ->] & _)]; simplify_eq.
Qed.

Lemma getValue_forEach_mutated
      (rec : value → heap → option (res value * heap)) (c : object) (m : recordsMap) :
  ∀ (result result' : object) (mutated mutated' : bool) (h h' : heap),
    getValue_forEach rec c m result mutated h = Some (Ok (result', mutated'), h') →
    mutated' = false ↔ mutated = false ∧ unchanged_log rec c m h.
Proof.
  induction m as [|[k record] m IH]; intros result result' mutated mutated' h h' H.
  - simpl in H. simplify_eq. simpl. tauto.
  - simpl in H.
    destruct (getValue_record rec c k record result mutated h)
      as [[[[r1 mu1]|e] h1]|] eqn:Hs; try done.
    pose proof (getValue_record_mutated _ _ _ _ _ _ _ _ _ _ Hs) as Hrec.
    pose proof (IH _ _ _ _ _ _ H) as Hrest.
    rewrite Hrest, Hrec. simpl. split.
    + intros [[Hm (o & d & nv & Ho & Hk & Hr & Hq)] Hu].
      split; [done|]. by exists o, d, nv, h1.
    + intros [Hm (o & d & nv & h2 & Ho & Hk & Hr & Hq & Hu)].
      assert (h2 = h1) as ->.
      { unfold getValue_record in Hs. rewrite Ho in Hs.
        destruct Hk as [-> | ->]; rewrite Hr in Hs;
          destruct (obj_set result k nv) as [[]|]; by simplify_eq. }
      split; [|done]. split; [done|]. by exists o, d, nv.
Qed.

(** What [getValue] returns for a facade is the origin exactly when the
    log is empty or unchanged, and a new container otherwise. *)
Lemma getValue_returned_reference (v : variant) (fuel : nat) (f : loc) (h h' : heap)
        (w : ProxyWorker) (c : object) (r : value) :
  worker_at h f = Some w →
  plain_at h (client w) = Some c →
  getValue v (S fuel) (VRef f) h = Some (Ok r, h') →
  (r = VRef (client w) ↔
   records w = [] ∨
   (records w ≠ [] ∧
    ∃ d, duplicate v w c = Some (Ok d) ∧
         unchanged_log (getValue v fuel) c (records w) (h ++ [Plain d]))) ∧
  (r ≠ VRef (client w) →
   r = VRef (length h) ∧ h !! length h = None ∧ ∃ o, plain_at h' (length h) = Some o) ∧
  plain_at h' (client w) = Some c.
Proof.
  intros Hw Hc H.
  assert (plain_at h' (client w) = Some c) as Hc'.
  { eapply preserved_plain; [|exact Hc]. apply preserved_prefix.
    by eapply getValue_prefix. }
  assert (client w < length h) as Hlt.
  { unfold plain_at in Hc. destruct (h !! client w) eqn:E; [|done].
    by eapply lookup_lt_Some. }
  simpl in H. rewrite Hw, Hc in H.
  destruct (records w) as [|kr m] eqn:Hm.
  - simplify_eq. split; [|done]. split; [by left|done].
  - destruct (duplicate v w c) as [[d|e]|] eqn:Hdup; try done.
    destruct (getValue_forEach (getValue v fuel) c (kr :: m) d false
                (h ++ [Plain d])) as [[[[ro mu]|e] h1]|] eqn:Hf; try done.
    pose proof (getValue_forEach_mutated _ _ _ _ _ _ _ _ _ Hf) as Hmu.
    pose proof (getValue_forEach_prefix _ c (getValue_prefix v fuel) _ _ _ _ _ _ Hf)
      as [ext ->].
    simplify_eq. split; [|split; [|done]].
    + split.
      * intros Hr. right. split; [done|]. exists d. split; [done|]. apply Hmu.
        destruct mu; [|done]. simplify_eq. lia.
      * intros [?|[_ (d' & Hd' & Hu)]]; [done|]. simplify_eq.
        assert (mu = false) as -> by by apply Hmu. done.
    + intros Hr. destruct mu; [|done]. split; [done|].
      split; [by apply lookup_ge_None_2|].
      exists ro. unfold plain_at.
      rewrite <- (assoc_L (++)). simpl. rewrite insert_fresh_copy.
      by rewrite list_lookup_middle.
Qed.

(* ================================================================== *)
(** ** Structural sharing on the nested sample *)

Lemma strict_eq_false (a b : value) : a ≠ b → strict_eq a b = false.
Proof.
  intros H. unfold strict_eq.
  destruct a, b; try done; by rewrite bool_decide_eq_false_2.
Qed.

(** One unfolding of [getValue]. *)
Lemma getValue_S (v : variant) (fuel : nat) (x : value) (h : heap) :
  getValue v (S fuel) x h =
  match MUTABLE_of h x with
  | None => Some (Ok x, h)
  | Some proxyWorker =>
      match plain_at h (client proxyWorker) with
      | Some c =>
          match records proxyWorker with
          | [] => Some (Ok (VRef (client proxyWorker)), h)
          | _ :: _ =>
              match duplicate v proxyWorker c with
              | None => None
              | Some (Throw e) => Some (Throw e, h)
              | Some (Ok result) =>
                  match getValue_forEach (getValue v fuel) c (records proxyWorker)
                          result false (h ++ [Plain result]) with
                  | None => None
                  | Some (Throw e, h1) => Some (Throw e, h1)
                  | Some (Ok (result, mutated), h1) =>
                      Some (Ok (VRef (if mutated then length h else client proxyWorker)),
                            <[length h := Plain result]> h1)
                  end
              end
          end
      | None => None
      end
  end.
Proof. reflexivity. Qed.

(** C3: for [x = {a: {v: 1}, b: {v: 2}}] ([x.a] at location 0, [x.b] at
    1, [x] at 2) and [f = wrap(x)] (at 3), reading [f.a] yields a facade
    (at 4). If nothing is written, [unwrap(f)] is the reference of [x].
    If [f.a.v] is overwritten with a primitive [y] other than 1, then
    [unwrap(f)] is a container [ro] with [ro.b === x.b], [ro.a !== x.a]
    and [ro.a.v === y] unless [y] is [NaN]; [x] itself is as it was. *)
Theorem structural_sharing (v : variant) (fuel : nat) (y : value) :
  isPrimitive y = true → y ≠ VNum 1 →
  ∃ x h2,
    plain_at Sample.h_nested 2 = Some x ∧
    Handler.get v 3 (KStr "a") (Sample.wrapped v 2 Sample.h_nested)
      = Some (Ok (VRef 4), h2) ∧
    (∃ h3, getValue v (S (S fuel)) (VRef 3) h2 = Some (Ok (VRef 2), h3)) ∧
    ∃ h3 h4 r ro a,
      Handler.set v 4 (KStr "v") y h2 = Some (Ok true, h3) ∧
      getValue v (S (S fuel)) (VRef 3) h3 = Some (Ok (VRef r), h4) ∧
      plain_at h4 2 = Some x ∧
      plain_at h4 r = Some ro ∧
      identical (obj_get ro (KStr "b")) (obj_get x (KStr "b")) = Some true ∧
      identical (obj_get ro (KStr "a")) (obj_get x (KStr "a")) = Some false ∧
      obj_get ro (KStr "a") = Some (VRef a) ∧
      (∃ oa, plain_at h4 a = Some oa ∧ obj_get oa (KStr "v") = Some y).
Proof.
  intros Hp Hne.
  destruct v; (destruct y; try discriminate Hp).
  all: eexists _, _.
  all: split; [reflexivity|].
  all: split; [vm_compute; reflexivity|].
  all: split; [eexists; vm_compute; reflexivity|].
  all: eexists _, _, _, _, _.
  all: split; [vm_compute; reflexivity|].
  all: split; [rewrite getValue_S; cbv -[strict_eq getValue];
               rewrite getValue_S; cbv -[strict_eq getValue];
               rewrite getValue_not_mutable by reflexivity;
               cbv -[strict_eq getValue]; rewrite (strict_eq_false (VNum 1)) by congruence;
               cbv -[getValue]; reflexivity|].
  all: split; [reflexivity|].
  all: split; [reflexivity|].
  all: split; [reflexivity|].
  all: split; [vm_compute; reflexivity|].
  all: split; [reflexivity|].
  all: eexists; split; reflexivity.
Qed.

Lemma structural_sharing_witness :
  isPrimitive (VNum 3) = true ∧ VNum 3 ≠ VNum 1 ∧
  ∃ x h2,
    plain_at Sample.h_nested 2 = Some x ∧
    Handler.get ImMutable 3 (KStr "a") (Sample.wrapped ImMutable 2 Sample.h_nested)
      = Some (Ok (VRef 4), h2) ∧
    (∃ h3, getValue ImMutable 2 (VRef 3) h2 = Some (Ok (VRef 2), h3)) ∧
    ∃ h3 h4 r ro a,
      Handler.set ImMutable 4 (KStr "v") (VNum 3) h2 = Some (Ok true, h3) ∧
      getValue ImMutable 2 (VRef 3) h3 = Some (Ok (VRef r), h4) ∧
      plain_at h4 2 = Some x ∧
      plain_at h4 r = Some ro ∧
      identical (obj_get ro (KStr "b")) (obj_get x (KStr "b")) = Some true ∧
      identical (obj_get ro (KStr "a")) (obj_get x (KStr "a")) = Some false ∧
      obj_get ro (KStr "a") = Some (VRef a) ∧
      (∃ oa, plain_at h4 a = Some oa ∧ obj_get oa (KStr "v") = Some (VNum 3)).
Proof.
  split; [reflexivity|]. split; [discriminate|].
  exact (structural_sharing ImMutable 0 (VNum 3) eq_refl ltac:(discriminate)).
Defined.

(* ================================================================== *)
(** ** Own properties under the operations on the copy *)

Lemma own_prop_add_ne (k k' : key) (p : property) (ps : props) :
  k ≠ k' → own_prop (add_prop k' p ps) k = own_prop ps k.
Proof.
  intros Hne. induction ps as [|[k0 p0] ps IH]; simpl.
  - by rewrite decide_False.
  - destruct (key_before k' k0); simpl.
    + by rewrite decide_False.
    + by rewrite IH.
Qed.

Lemma own_prop_replace_ne (k k' : key) (p : property) (ps : props) :
  k ≠ k' → own_prop (replace_prop k' p ps) k = own_prop ps k.
Proof.
  intros Hne. induction ps as [|[k0 p0] ps IH]; simpl; [done|].
  destruct (decide (k0 = k')) as [->|Hne0]; simpl.
  - by rewrite !decide_False.
  - by rewrite IH.
Qed.

Lemma own_prop_remove_ne (k k' : key) (ps : props) :
  k ≠ k' → own_prop (remove_prop k' ps) k = own_prop ps k.
Proof.
  intros Hne. induction ps as [|[k0 p0] ps IH]; simpl; [done|].
  destruct (decide (k0 = k')) as [->|Hne0]; simpl.
  - by rewrite decide_False.
  - by rewrite IH.
Qed.

Lemma own_prop_put_ne (k k' : key) (p : property) (ps : props) :
  k ≠ k' → own_prop (put_prop k' p ps) k = own_prop ps k.
Proof.
  intros Hne. unfold put_prop. destruct (own_prop ps k').
  - by apply own_prop_replace_ne.
  - by apply own_prop_add_ne.
Qed.

Lemma own_prop_elem (ps : props) (k : key) (p : property) :
  own_prop ps k = Some p → (k, p) ∈ ps.
Proof.
  induction ps as [|[k0 p0] ps IH]; simpl; [done|].
  destruct (decide (k0 = k)) as [->|Hne].
  - intros [= ->]. left.
  - intros H. right. by apply IH.
Qed.

Lemma own_prop_not_elem (k : key) (ps : props) :
  k ∉ ps.*1 → own_prop ps k = None.
Proof.
  induction ps as [|[k0 p0] ps IH]; simpl; [done|].
  intros Hn. apply not_elem_of_cons in Hn as [Hne Hn].
  rewrite decide_False by done. by apply IH.
Qed.

Lemma own_prop_truncate (n : N) (k : key) (ps : props) :
  own_prop (filter (λ kp, index_from n kp = false) ps) k = own_prop ps k ∨
  own_prop (filter (λ kp, index_from n kp = false) ps) k = None.
Proof.
  induction ps as [|[k0 p0] ps IH]; [by left|].
  rewrite filter_cons. destruct (decide (index_from n (k0, p0) = false)) as [Hk|Hk]; simpl.
  - destruct (decide (k0 = k)); [by left|done].
  - destruct (decide (k0 = k)) as [->|]; [|done].
    right. apply own_prop_not_elem. intros Hin.
    apply list_elem_of_fmap in Hin as [[k1 p1] [-> Hin]].
    apply list_elem_of_filter in Hin as [Hf _]. simpl in *.
    unfold index_from in *. simpl in *. done.
Qed.

Lemma keeps_refl (k : key) (o : object) : keeps k o o.
Proof. split; [done|by left]. Qed.

Lemma keeps_trans (k : key) (o1 o2 o3 : object) :
  keeps k o1 o2 → keeps k o2 o3 → keeps k o1 o3.
Proof.
  intros [K1 [E1|E1]] [K2 [E2|E2]]; split; try congruence.
  - left. congruence.
  - by right.
  - right. congruence.
  - by right.
Qed.

Lemma store_prop_keeps (o o' : object) (k k' : key) (p : property) :
  k ≠ k' → (o_kind o = KArray → k ≠ KStr "length") →
  store_prop o k' p = Some (Ok o') → keeps k o o'.
Proof.
  intros Hne Hlen H. unfold store_prop in H.
  destruct (o_kind o) eqn:Hk.
  - simplify_eq. split; [done|]. left. simpl. by apply own_prop_put_ne.
  - specialize (Hlen eq_refl). destruct k' as [i|s|n].
    + destruct (i <? own_length (o_props o))%N.
      * simplify_eq. split; [done|]. left. simpl. by apply own_prop_put_ne.
      * destruct (length_writable (o_props o)); simplify_eq.
        split; [done|]. left. simpl. rewrite own_prop_put_ne by done.
        by apply own_prop_put_ne.
    + destruct (decide (s = "length"%string)) as [->|Hs].
      * destruct p as [x w e c|]; [|done].
        destruct (to_array_length x) as [[n|err]|]; try done.
        destruct (own_length (o_props o) <=? n)%N.
        -- simplify_eq. split; [done|]. left. simpl. by apply own_prop_put_ne.
        -- destruct (forallb _ _); simplify_eq. split; [done|]. simpl.
           rewrite own_prop_put_ne by done. apply own_prop_truncate.
      * simplify_eq. split; [done|]. left. simpl. by apply own_prop_put_ne.
    + simplify_eq. split; [done|]. left. simpl. by apply own_prop_put_ne.
Qed.

Lemma set_prototype_props (o o' : object) (x : protoval) :
  set_prototype o x = Some (Ok o') → o_kind o' = o_kind o ∧ o_props o' = o_props o.
Proof.
  unfold set_prototype. intros H.
  destruct x as [[]|]; by simplify_eq.
Qed.

Lemma obj_assign_keeps (o o' : object) (k k' : key) (x : protoval) :
  k ≠ k' → (o_kind o = KArray → k ≠ KStr "length") →
  obj_assign o k' x = Some (Ok o') → keeps k o o'.
Proof.
  intros Hne Hlen H. unfold obj_assign in H.
  assert (∀ o1, set_prototype o x = Some (Ok o1) → keeps k o o1) as Hsp.
  { intros o1 H1. apply set_prototype_props in H1 as [Hk Hp].
    split; [done|]. left. by rewrite Hp. }
  destruct (own_prop (o_props o) k') as [[x0 [] e c|g [[sid|]|] e c]|];
    try destruct x as [y|ps parent]; simplify_eq;
    try (by eapply store_prop_keeps); try apply keeps_refl; try (by apply Hsp).
  all: destruct (chain_prop (o_proto o) k') as [[x0 [] e c|g [[sid|]|] e c]|]; simplify_eq;
    try (by eapply store_prop_keeps); try apply keeps_refl; try (by apply Hsp).
Qed.

Lemma obj_set_keeps (o o' : object) (k k' : key) (x : value) :
  k ≠ k' → (o_kind o = KArray → k ≠ KStr "length") →
  obj_set o k' x = Some (Ok o') → keeps k o o'.
Proof. apply obj_assign_keeps. Qed.

Lemma obj_define_keeps (o o' : object) (k k' : key) (d : descriptor) :
  k ≠ k' → (o_kind o = KArray → k ≠ KStr "length") →
  obj_define o k' d = Some (Ok o') → keeps k o o'.
Proof.
  intros Hne Hlen H. unfold obj_define in H.
  destruct (is_accessor_desc d && is_data_desc d); [done|].
  destruct (own_prop (o_props o) k') as [cur|].
  - destruct (compatible cur d); [|done]. by eapply store_prop_keeps.
  - by eapply store_prop_keeps.
Qed.

Lemma obj_delete_keeps (o o' : object) (k k' : key) :
  k ≠ k' → obj_delete o k' = Ok o' → keeps k o o'.
Proof.
  intros Hne H. unfold obj_delete in H.
  destruct (own_prop (o_props o) k') as [p|]; [|simplify_eq; apply keeps_refl].
  destruct (prop_configurable p); simplify_eq.
  split; [done|]. left. simpl. by apply own_prop_remove_ne.
Qed.

Lemma own_prop_filter_enumerable (ps : props) (k : key) :
  NoDup ps.*1 →
  own_prop (filter (λ kp : key * property, prop_enumerable kp.2 = true) ps) k
  = match own_prop ps k with
    | Some p => if prop_enumerable p then Some p else None
    | None => None
    end.
Proof.
  induction ps as [|[k0 p0] ps IH]; intros Hnd; [done|].
  apply NoDup_cons in Hnd as [Hnin Hnd].
  rewrite filter_cons. simpl.
  destruct (decide (k0 = k)) as [->|Hne].
  - destruct (decide (prop_enumerable p0 = true)) as [He|He]; simpl.
    + by rewrite decide_True, He.
    + apply not_true_is_false in He. rewrite He.
      apply own_prop_not_elem. intros Hin. apply Hnin.
      apply list_elem_of_fmap in Hin as [[k1 p1] [-> Hin]].
      apply list_elem_of_filter in Hin as [_ Hin].
      apply list_elem_of_fmap. by exists (k1, p1).
  - destruct (decide (prop_enumerable p0 = true)); simpl.
    + rewrite decide_False by done. by apply IH.
    + by apply IH.
Qed.

Lemma own_prop_mapM (f : property → option value) (l ps : props) (k : key) :
  mapM (λ kp : key * property, (λ x, (kp.1, Data x true true true)) <$> f kp.2) l = Some ps →
  own_prop ps k = (λ x, Data x true true true) <$> (own_prop l k ≫= f).
Proof.
  intros H. apply mapM_Some_1 in H.
  induction H as [|[k0 p0] [k1 p1] l ps H0 _ IH]; [done|].
  simpl in *. destruct (f p0) as [x|] eqn:Hf; simpl in *; simplify_eq. simpl.
  destruct (decide (k1 = k)); [|done]. simpl. by rewrite Hf.
Qed.

(** The copy [{ ...c }] at a key: the value read from [c], where [c] owns
    the key as an enumerable property. *)
Lemma own_prop_spread_object_eq (c d : object) (k : key) :
  spread_object c = Some d →
  NoDup (Reflect_ownKeys c) →
  o_kind d = KObject ∧ o_proto d = Object_prototype ∧
  own_prop (o_props d) k
  = match own_prop (o_props c) k with
    | Some p =>
        if prop_enumerable p then (λ x, Data x true true true) <$> obj_get c k else None
    | None => None
    end.
Proof.
  unfold spread_object, Reflect_ownKeys. intros H Hnd.
  apply bind_Some in H as (ps & Hm & H). simplify_eq. simpl.
  split; [done|]. split; [done|].
  rewrite (own_prop_mapM (λ p, prop_get p (o_proto c)) _ _ k Hm).
  rewrite own_prop_filter_enumerable by done. unfold obj_get.
  destruct (own_prop (o_props c) k) as [p|]; [|done].
  by destruct (prop_enumerable p).
Qed.

Lemma own_prop_spread_object (c d : object) (k : key) :
  spread_object c = Some d →
  NoDup (Reflect_ownKeys c) →
  own_prop (o_props d) k = None ∨
  ∃ x, obj_get c k = Some x ∧ own_prop (o_props d) k = Some (Data x true true true).
Proof.
  intros H Hnd. destruct (own_prop_spread_object_eq c d k H Hnd) as (_ & _ & ->).
  destruct (own_prop (o_props c) k) as [p|]; [|by left].
  destruct (prop_enumerable p); [|by left].
  destruct (obj_get c k) as [x|]; [|by left]. right. by exists x.
Qed.

Lemma own_prop_elements (c : object) (k : key) (tail es : props) (idx : list nat) :
  own_prop tail k = None →
  mapM (λ i, (λ x, (KIdx (N.of_nat i), Data x true true true))
               <$> obj_get c (KIdx (N.of_nat i))) idx = Some es →
  own_prop (es ++ tail) k = None ∨
  ∃ x, obj_get c k = Some x ∧ own_prop (es ++ tail) k = Some (Data x true true true).
Proof.
  intros Ht H. apply mapM_Some_1 in H.
  induction H as [|i [k1 p1] idx es H0 _ IH]; simpl; [by left|].
  destruct (obj_get c (KIdx (N.of_nat i))) as [x|] eqn:Hx; simpl in *; simplify_eq.
  destruct (decide (KIdx (N.of_nat i) = k)) as [<-|Hne]; [|done].
  right. by exists x.
Qed.

Lemma own_prop_spread_array (c d : object) (k : key) :
  spread_array c = Some d →
  k ≠ KStr "length" →
  own_prop (o_props d) k = None ∨
  ∃ x, obj_get c k = Some x ∧ own_prop (o_props d) k = Some (Data x true true true).
Proof.
  unfold spread_array. intros H Hk.
  apply bind_Some in H as (n & Hn & H). apply bind_Some in H as (es & Hm & H).
  simplify_eq. simpl.
  eapply own_prop_elements; [|exact Hm]. simpl. by rewrite decide_False.
Qed.

Lemma o_kind_spread (c d : object) :
  match o_kind c with
  | KArray => spread_array c
  | KObject => spread_object c
  end = Some d →
  o_kind d = o_kind c.
Proof.
  unfold spread_array, spread_object. destruct (o_kind c); intros H.
  - apply bind_Some in H as (ps & Hm & H). by simplify_eq.
  - apply bind_Some in H as (n & Hn & H). apply bind_Some in H as (es & Hm & H).
    by simplify_eq.
Qed.

(** The duplicate at a key other than [__proto__], which the assignment
    [result.__proto__ = proto] of as-mutable.ts may hit. *)
Lemma own_prop_duplicate (v : variant) (w : ProxyWorker) (c d : object) (k : key) :
  duplicate v w c = Some (Ok d) →
  NoDup (Reflect_ownKeys c) →
  (o_kind c = KArray → k ≠ KStr "length") →
  v = ImMutable ∨ k ≠ KStr "__proto__" →
  own_prop (o_props d) k = None ∨
  ∃ x, obj_get c k = Some x ∧ own_prop (o_props d) k = Some (Data x true true true).
Proof.
  intros H Hnd Hlen Hk. unfold duplicate in H.
  destruct (match o_kind c with
            | KArray => spread_array c
            | KObject => spread_object c
            end) as [d0|] eqn:Hs; [|done].
  assert (own_prop (o_props d0) k = None ∨
          ∃ x, obj_get c k = Some x ∧ own_prop (o_props d0) k = Some (Data x true true true))
    as H0.
  { destruct (o_kind c).
    - by apply own_prop_spread_object.
    - by apply own_prop_spread_array, Hlen. }
  destruct v; [|by simplify_eq].
  destruct Hk as [|Hk]; [done|].
  assert (keeps k d0 d) as [_ K].
  { eapply obj_assign_keeps; [exact Hk| |exact H].
    rewrite (o_kind_spread _ _ Hs). exact Hlen. }
  destruct K as [K|K]; rewrite K; [done|by left].
Qed.

Lemma o_kind_duplicate (v : variant) (w : ProxyWorker) (c d : object) :
  duplicate v w c = Some (Ok d) → o_kind d = o_kind c.
Proof.
  unfold duplicate. intros H.
  destruct (match o_kind c with
            | KArray => spread_array c
            | KObject => spread_object c
            end) as [d0|] eqn:Hs; [|done].
  rewrite <- (o_kind_spread _ _ Hs).
  destruct v; [|by simplify_eq].
  assert (keeps (KSym 0) d0 d) as [K _]; [|done].
  eapply obj_assign_keeps; [| |exact H]; done.
Qed.

Lemma getValue_record_keeps
      (rec : value → heap → option (res value * heap)) (c : object)
      (k k' : key) (record : list op) (result result' : object)
      (mutated mutated' : bool) (h h' : heap) :
  k ≠ k' → (o_kind result = KArray → k ≠ KStr "length") →
  getValue_record rec c k' record result mutated h = Some (Ok (result', mutated'), h') →
  keeps k result result'.
Proof.
  intros Hne Hlen H. unfold getValue_record in H.
  destruct (last record) as [[opcode desc]|]; [|done].
  destruct opcode.
  1,2: destruct desc as [d|]; [|done];
       destruct (rec (desc_value d) h) as [[[nv|e] h2]|]; try done;
       destruct (obj_set result k' nv) as [[ro|e]|] eqn:Hs; simplify_eq;
       by eapply obj_set_keeps.
  - destruct (obj_delete result k') eqn:Hd; simplify_eq. by eapply obj_delete_keeps.
  - destruct desc as [d|]; [|done].
    destruct (obj_define result k' d) as [[ro|e]|] eqn:Hd; simplify_eq.
    by eapply obj_define_keeps.
Qed.

Lemma records_get_None_cons (m : recordsMap) (k k' : key) (r : list op) :
  Worker.records_get ((k', r) :: m) k = None →
  k ≠ k' ∧ Worker.records_get m k = None.
Proof. simpl. destruct (decide (k' = k)); [done|]. intros. by split. Qed.

Lemma getValue_forEach_keeps
      (rec : value → heap → option (res value * heap)) (c : object) (k : key)
      (m : recordsMap) :
  ∀ (result result' : object) (mutated mutated' : bool) (h h' : heap),
    Worker.records_get m k = None →
    (o_kind result = KArray → k ≠ KStr "length") →
    getValue_forEach rec c m result mutated h = Some (Ok (result', mutated'), h') →
    keeps k result result'.
Proof.
  induction m as [|[k' record] m IH];
    intros result result' mutated mutated' h h' Hk Hlen H.
  - simpl in H. simplify_eq. apply keeps_refl.
  - apply records_get_None_cons in Hk as [Hne Hk]. simpl in H.
    destruct (getValue_record rec c k' record result mutated h)
      as [[[[r1 mu1]|e] h1]|] eqn:Hs; try done.
    pose proof (getValue_record_keeps _ _ _ _ _ _ _ _ _ _ _ Hne Hlen Hs) as K1.
    eapply keeps_trans; [exact K1|].
    eapply IH; [done| |exact H].
    destruct K1 as [-> _]. done.
Qed.

(* ================================================================== *)
(** ** Reads of accessor properties *)

Lemma asMutable_plain (v : variant) (h : heap) (l : loc) (o : object) :
  plain_at h l = Some o →
  asMutable v (VRef l) h = (Ok (VRef (length h)), h ++ [Proxy (new_ProxyWorker v h l)]).
Proof.
  intros Ho. unfold asMutable, isMutable, MUTABLE_of, worker_at. simpl.
  unfold plain_at in Ho. by destruct (h !! l) as [[]|].
Qed.

(** Reading an unlogged accessor key whose getter produces a plain
    container allocates a facade on it and leaves every worker as it
    was. *)
Lemma get_accessor (v : variant) (f : loc) (k : key) (h : heap)
      (w : ProxyWorker) (c o : object) (g : nat) (s : option setter)
      (e cf : bool) (l : loc) :
  Handler.deref h f = Some (w, c) →
  Worker.query w k = None →
  own_prop (o_props c) k = Some (Accessor (Some (Getter g (VRef l))) s e cf) →
  plain_at h l = Some o →
  Handler.get v f k h
  = Some (Ok (VRef (length h)), h ++ [Proxy (new_ProxyWorker v h l)]).
Proof.
  intros Hd Hq Hp Ho. destruct (deref_worker _ _ _ _ Hd) as [Hf Hc].
  unfold Handler.get. rewrite Hd. unfold Worker.get. rewrite Hq.
  unfold Reflect_getOwnPropertyDescriptor, obj_get. rewrite Hp. simpl.
  rewrite (asMutable_plain _ _ _ _ Ho).
  assert (isMutable (h ++ [Proxy (new_ProxyWorker v h l)]) (VRef (length h)) = true) as ->.
  { unfold isMutable, MUTABLE_of, worker_at.
    by rewrite lookup_app_r, Nat.sub_diag by lia. }
  simpl. rewrite list_insert_id; [done|]. by apply lookup_app_l_Some.
Qed.

Lemma deref_prefix (h h' : heap) (f : loc) (w : ProxyWorker) (c : object) :
  h `prefix_of` h' → Handler.deref h f = Some (w, c) → Handler.deref h' f = Some (w, c).
Proof.
  intros Hp Hd. destruct (deref_worker _ _ _ _ Hd) as [Hf Hc].
  apply deref_intro; by eapply prefix_lookup_Some.
Qed.

Lemma plain_at_prefix (h h' : heap) (l : loc) (o : object) :
  h `prefix_of` h' → plain_at h l = Some o → plain_at h' l = Some o.
Proof. intros Hp. apply preserved_plain. by apply preserved_prefix. Qed.

Lemma worker_at_prefix (h h' : heap) (f : loc) (w : ProxyWorker) :
  h `prefix_of` h' → worker_at h f = Some w → worker_at h' f = Some w.
Proof.
  intros Hp. unfold worker_at. intros Hw.
  destruct (h !! f) as [[|w']|] eqn:Hf; simplify_eq.
  by rewrite (prefix_lookup_Some _ _ _ _ Hf Hp).
Qed.

Lemma worker_at_insert_ne (h : heap) (f f' : loc) (w : ProxyWorker) (x : hobj) :
  f ≠ f' → worker_at h f = Some w → worker_at (<[f' := x]> h) f = Some w.
Proof. intros Hne. unfold worker_at. by rewrite list_lookup_insert_ne. Qed.

(** A call addressed to another facade, a wrap or a materialisation
    leaves the worker of [f] as it was. *)
Lemma step_other_worker (v : variant) (h : heap) (a : action) (f : loc) (w : ProxyWorker) :
  target_of a ≠ Some f →
  worker_at h f = Some w → worker_at (step v h a) f = Some w.
Proof.
  intros Ht Hw.
  destruct a as [f' k|f' k x|f' k|f' k d|f' k|f'|f' k|f'|f' a|f'|x|fuel x]; simpl in *.
  - unfold Handler.get. destruct (Handler.deref h f') as [[w' c]|]; [|done].
    destruct (Worker.get v w' c k h) as [[[r w''] h1]|] eqn:Hg; simpl; [|done].
    destruct (Worker_get_frame _ _ _ _ _ _ _ _ Hg) as [Hp _].
    apply worker_at_insert_ne; [congruence|]. by eapply worker_at_prefix.
  - unfold Handler.set. destruct (Handler.deref h f') as [[w' c]|]; [|done].
    destruct (Worker.set v w' k x h) as [[w''|e] h1] eqn:Hg; simpl;
      destruct (Worker_set_frame _ _ _ _ _ _ _ Hg) as [Hp _].
    + apply worker_at_insert_ne; [congruence|]. by eapply worker_at_prefix.
    + by eapply worker_at_prefix.
  - unfold Handler.deleteProperty. destruct (Handler.deref h f') as [[w' c]|]; [|done].
    destruct (Worker.del w' c k) as [b w'']. simpl.
    apply worker_at_insert_ne; [congruence|done].
  - unfold Handler.defineProperty. destruct (Handler.deref h f') as [[w' c]|]; [|done].
    destruct (Worker.getOwnPropertyDescriptor w' c k) as [old|]; [|done].
    destruct (negb (desc_configurable old)); simpl; [done|].
    apply worker_at_insert_ne; [congruence|done].
  - unfold Handler.has. destruct (Handler.deref h f') as [[w' c]|]; [|done].
    by destruct (Worker.has v w' c k).
  - unfold Handler.ownKeys. by destruct (Handler.deref h f') as [[w' c]|].
  - unfold Handler.getOwnPropertyDescriptor. by destruct (Handler.deref h f') as [[w' c]|].
  - unfold Handler.getPrototypeOf. by destruct (Handler.deref h f') as [[w' c]|].
  - unfold Handler.setPrototypeOf. destruct (Handler.deref h f') as [[w' c]|]; [|done].
    simpl. apply worker_at_insert_ne; [congruence|done].
  - done.
  - eapply worker_at_prefix; [apply asMutable_prefix|done].
  - destruct (getValue v fuel x h) as [[r h1]|] eqn:Hg; simpl; [|done].
    eapply worker_at_prefix; [by eapply getValue_prefix|done].
Qed.

Lemma run_other_worker (v : variant) (script : list action) (f : loc) (w : ProxyWorker) :
  Forall (λ a, target_of a ≠ Some f) script →
  ∀ h, worker_at h f = Some w → worker_at (run v h script) f = Some w.
Proof.
  unfold run. induction 1 as [|a script Ha _ IH]; intros h Hw; simpl; [done|].
  apply IH. by apply step_other_worker.
Qed.

(** What [getValue] returns for a facade: the origin, or the copy it
    built from the duplicate. *)
Lemma getValue_facade_result (v : variant) (fuel : nat) (f : loc) (h h' : heap)
      (w : ProxyWorker) (c : object) (r : value) :
  worker_at h f = Some w →
  plain_at h (client w) = Some c →
  getValue v fuel (VRef f) h = Some (Ok r, h') →
  r = VRef (client w) ∨
  ∃ n d ro mu h1,
    fuel = S n ∧
    duplicate v w c = Some (Ok d) ∧
    getValue_forEach (getValue v n) c (records w) d false (h ++ [Plain d])
    = Some (Ok (ro, mu), h1) ∧
    r = VRef (length h) ∧ plain_at h' (length h) = Some ro.
Proof.
  intros Hw Hc H. destruct fuel as [|n]; simpl in H; rewrite Hw in H; [done|].
  rewrite Hc in H. destruct (records w) as [|kr m] eqn:Hm; [simplify_eq; by left|].
  destruct (duplicate v w c) as [[d|e]|] eqn:Hdup; try done.
  destruct (getValue_forEach (getValue v n) c (kr :: m) d false
              (h ++ [Plain d])) as [[[[ro mu]|e] h1]|] eqn:Hf; try done.
  pose proof (getValue_forEach_prefix _ c (getValue_prefix v n) _ _ _ _ _ _ Hf)
    as [ext ->].
  simplify_eq. destruct mu; [|by left]. right.
  exists n, d, ro, true, ((h ++ [Plain d]) ++ ext).
  split; [done|]. split; [done|]. split; [done|]. split; [done|].
  unfold plain_at. rewrite <- (assoc_L (++)). simpl. rewrite insert_fresh_copy.
  by rewrite list_lookup_middle.
Qed.

(* ================================================================== *)
(** ** C10: reads of an accessor key *)

Section avoids_lemmas.
Variable P : list loc.

Lemma own_prop_avoids (ps : props) (k : key) (p : property) :
  props_avoid P ps → own_prop ps k = Some p → prop_avoids P p.
Proof.
  intros Hps H. apply own_prop_elem in H.
  unfold props_avoid in Hps. rewrite Forall_forall in Hps. by apply Hps in H.
Qed.

Lemma chain_prop_avoids (a : ancestor) (k : key) (p : property) :
  ancestor_avoids P a → chain_prop a k = Some p → prop_avoids P p.
Proof.
  induction a as [|ps parent IH]; simpl; [done|]. intros [Hps Hpa] H.
  destruct (own_prop ps k) as [q|] eqn:Hq.
  - simplify_eq. by eapply own_prop_avoids.
  - by apply IH.
Qed.

Lemma prop_get_avoids (p : property) (a : ancestor) (x : value) :
  prop_avoids P p → prop_get p a = Some x → value_avoids P x.
Proof.
  destruct p as [y ? ? ?|[[gid y|]|] ? ? ?]; simpl; intros Hp H; simplify_eq; try done.
  destruct a; by simplify_eq.
Qed.

Lemma obj_get_avoids (o : object) (k : key) (x : value) :
  object_avoids P o → obj_get o k = Some x → value_avoids P x.
Proof.
  intros [Hps Ha]. unfold obj_get.
  destruct (own_prop (o_props o) k) as [p|] eqn:Hp.
  - apply prop_get_avoids. by eapply own_prop_avoids.
  - destruct (chain_prop (o_proto o) k) as [p|] eqn:Hc; [|by intros [= <-]].
    apply prop_get_avoids. by eapply chain_prop_avoids.
Qed.

Lemma chain_get_avoids (a : ancestor) (k : key) (x : value) :
  ancestor_avoids P a → chain_get a k = Some x → value_avoids P x.
Proof.
  intros Ha. unfold chain_get.
  destruct (chain_prop a k) as [p|] eqn:Hc; [|by intros [= <-]].
  apply prop_get_avoids. by eapply chain_prop_avoids.
Qed.

Lemma prop_desc_avoids (p : property) : prop_avoids P p → desc_avoids P (prop_desc p).
Proof. destruct p as [y ? ? ?|[g|] ? ? ?]; by split. Qed.

Lemma descriptor_avoids (o : object) (k : key) (d : descriptor) :
  object_avoids P o → Reflect_getOwnPropertyDescriptor o k = Some d → desc_avoids P d.
Proof.
  intros [Hps _]. unfold Reflect_getOwnPropertyDescriptor.
  destruct (own_prop (o_props o) k) as [p|] eqn:Hp; [|done]. intros [= <-].
  apply prop_desc_avoids. by eapply own_prop_avoids.
Qed.

Lemma with_value_avoids (d : descriptor) (x : value) :
  desc_avoids P d → value_avoids P x → desc_avoids P (Worker.with_value d x).
Proof. intros [_ Hg] Hx. by split. Qed.

Lemma desc_value_avoids (d : descriptor) : desc_avoids P d → value_avoids P (desc_value d).
Proof. intros [Hx _]. unfold desc_value. by destruct (d_value d). Qed.

Lemma new_prop_of_desc_avoids (d : descriptor) :
  desc_avoids P d → prop_avoids P (new_prop_of_desc d).
Proof.
  intros Hd. pose proof (desc_value_avoids d Hd) as Hx. destruct Hd as [_ Hg].
  unfold new_prop_of_desc. destruct (is_accessor_desc d); [|done].
  simpl. by destruct (d_get d) as [[g|]|].
Qed.

Lemma merge_prop_avoids (cur : property) (d : descriptor) :
  prop_avoids P cur → desc_avoids P d → prop_avoids P (merge_prop cur d).
Proof.
  intros Hc Hd. pose proof (desc_value_avoids d Hd) as Hx. destruct Hd as [Hv Hg].
  unfold merge_prop. destruct cur as [y ? ? ?|g0 ? ? ?].
  - destruct (is_accessor_desc d); simpl.
    + by destruct (d_get d) as [[g|]|].
    + by destruct (d_value d).
  - destruct (is_data_desc d); simpl; [done|].
    by destruct (d_get d) as [[g|]|].
Qed.

Lemma add_prop_avoids (k : key) (p : property) (ps : props) :
  props_avoid P ps → prop_avoids P p → props_avoid P (add_prop k p ps).
Proof.
  intros Hps Hp. induction ps as [|[k0 p0] ps IH]; simpl.
  - by repeat constructor.
  - apply Forall_cons in Hps as [H0 Hps]. destruct (key_before k k0).
    + by repeat constructor.
    + constructor; [done|]. by apply IH.
Qed.

Lemma replace_prop_avoids (k : key) (p : property) (ps : props) :
  props_avoid P ps → prop_avoids P p → props_avoid P (replace_prop k p ps).
Proof.
  intros Hps Hp. induction ps as [|[k0 p0] ps IH]; simpl; [done|].
  apply Forall_cons in Hps as [H0 Hps]. destruct (decide (k0 = k)).
  - by constructor.
  - constructor; [done|]. by apply IH.
Qed.

Lemma put_prop_avoids (k : key) (p : property) (ps : props) :
  props_avoid P ps → prop_avoids P p → props_avoid P (put_prop k p ps).
Proof.
  intros Hps Hp. unfold put_prop. destruct (own_prop ps k).
  - by apply replace_prop_avoids.
  - by apply add_prop_avoids.
Qed.

Lemma remove_prop_avoids (k : key) (ps : props) :
  props_avoid P ps → props_avoid P (remove_prop k ps).
Proof.
  intros Hps. induction ps as [|[k0 p0] ps IH]; simpl; [done|].
  apply Forall_cons in Hps as [H0 Hps]. destruct (decide (k0 = k)); [done|].
  constructor; [done|]. by apply IH.
Qed.

Lemma filter_props_avoid (Q : key * property → Prop) `{∀ x, Decision (Q x)} (ps : props) :
  props_avoid P ps → props_avoid P (filter Q ps).
Proof.
  unfold props_avoid. rewrite !Forall_forall. intros Hps kp Hin.
  apply list_elem_of_filter in Hin as [_ Hin]. by apply Hps.
Qed.

Lemma store_prop_avoids (o o' : object) (k : key) (p : property) :
  object_avoids P o → prop_avoids P p → store_prop o k p = Some (Ok o') →
  object_avoids P o'.
Proof.
  intros [Hps Ha] Hp. unfold store_prop. intros H.
  assert (∀ ps', props_avoid P ps' → object_avoids P (Obj (o_kind o) ps' (o_proto o)))
    as Hok by (intros ps' ?; by split).
  destruct (o_kind o) eqn:Hk; [simplify_eq; by apply Hok, put_prop_avoids|].
  destruct k as [i|s|n].
  - destruct (i <? own_length (o_props o))%N; [simplify_eq; by apply Hok, put_prop_avoids|].
    destruct (length_writable (o_props o)); simplify_eq.
    apply Hok, put_prop_avoids; [by apply put_prop_avoids|done].
  - destruct (decide (s = "length"%string)) as [->|Hs];
      [|simplify_eq; by apply Hok, put_prop_avoids].
    destruct p as [x w en c|]; [|done].
    destruct (to_array_length x) as [[n|err]|]; try done.
    destruct (own_length (o_props o) <=? n)%N;
      [simplify_eq; by apply Hok, put_prop_avoids|].
    destruct (forallb _ _); simplify_eq.
    apply Hok, put_prop_avoids; [by apply filter_props_avoid|done].
  - simplify_eq. by apply Hok, put_prop_avoids.
Qed.

Lemma set_prototype_avoids (o o' : object) (x : protoval) :
  object_avoids P o → protoval_avoids P x → set_prototype o x = Some (Ok o') →
  object_avoids P o'.
Proof.
  intros [Hps Ha] Hx. unfold set_prototype. intros H.
  destruct x as [[]|ps parent]; simplify_eq; by split.
Qed.

Lemma obj_assign_avoids (o o' : object) (k : key) (x : protoval) :
  object_avoids P o → protoval_avoids P x → obj_assign o k x = Some (Ok o') →
  object_avoids P o'.
Proof.
  intros Ho Hx H. unfold obj_assign in H.
  assert (∀ y w e c, x = PValue y → store_prop o k (Data y w e c) = Some (Ok o') →
                     object_avoids P o') as Hst.
  { intros y w e c -> Hs. eapply store_prop_avoids; [exact Ho| |exact Hs]. exact Hx. }
  assert (set_prototype o x = Some (Ok o') → object_avoids P o') as Hsp
      by by apply set_prototype_avoids.
  destruct (own_prop (o_props o) k) as [[x0 [] e c|g [[sid|]|] e c]|];
    try destruct x as [y|ps parent]; simplify_eq; eauto.
  all: destruct (chain_prop (o_proto o) k) as [[x1 [] e c|g [[sid|]|] e c]|];
    simplify_eq; eauto.
Qed.

Lemma obj_set_avoids (o o' : object) (k : key) (x : value) :
  object_avoids P o → value_avoids P x → obj_set o k x = Some (Ok o') →
  object_avoids P o'.
Proof. intros Ho Hx. by apply obj_assign_avoids. Qed.

Lemma obj_define_avoids (o o' : object) (k : key) (d : descriptor) :
  object_avoids P o → desc_avoids P d → obj_define o k d = Some (Ok o') →
  object_avoids P o'.
Proof.
  intros Ho Hd. unfold obj_define. intros H.
  destruct (is_accessor_desc d && is_data_desc d); [done|].
  destruct (own_prop (o_props o) k) as [cur|] eqn:Hc.
  - destruct (compatible cur d); [|done].
    eapply store_prop_avoids; [done| |exact H].
    apply merge_prop_avoids; [|done]. destruct Ho as [Hps _]. by eapply own_prop_avoids.
  - eapply store_prop_avoids; [done| |exact H]. by apply new_prop_of_desc_avoids.
Qed.

Lemma obj_delete_avoids (o o' : object) (k : key) :
  object_avoids P o → obj_delete o k = Ok o' → object_avoids P o'.
Proof.
  intros [Hps Ha]. unfold obj_delete.
  destruct (own_prop (o_props o) k) as [p|]; [|by intros [= <-]].
  destruct (prop_configurable p); [|done]. intros [= <-].
  split; [|done]. by apply remove_prop_avoids.
Qed.

Lemma Object_prototype_avoids : ancestor_avoids P Object_prototype.
Proof. split; [|done]. by repeat constructor. Qed.

Lemma Array_prototype_avoids : ancestor_avoids P Array_prototype.
Proof. split; [|apply Object_prototype_avoids]. by repeat constructor. Qed.

Lemma spread_avoids (c d : object) :
  object_avoids P c →
  match o_kind c with
  | KArray => spread_array c
  | KObject => spread_object c
  end = Some d →
  object_avoids P d.
Proof.
  intros Hc. unfold spread_array, spread_object. destruct (o_kind c); intros H.
  - apply bind_Some in H as (ps & Hm & H). simplify_eq.
    split; [|apply Object_prototype_avoids]. simpl.
    apply mapM_Some_1 in Hm. destruct Hc as [Hps _].
    assert (props_avoid P (filter (λ kp : key * property, prop_enumerable kp.2 = true)
                                  (o_props c))) as Hf by by apply filter_props_avoid.
    revert Hf. induction Hm as [|[k0 p0] [k1 p1] l ps H0 _ IH]; [done|].
    intros [Hp0 Hl]%Forall_cons. simpl in *.
    destruct (prop_get p0 (o_proto c)) as [x|] eqn:Hx; simpl in *; simplify_eq.
    constructor; [|by apply IH]. simpl. by eapply prop_get_avoids.
  - apply bind_Some in H as (n & Hn & H). apply bind_Some in H as (es & Hm & H).
    simplify_eq. split; [|apply Array_prototype_avoids]. simpl.
    apply Forall_app. split; [|by repeat constructor].
    apply mapM_Some_1 in Hm.
    induction Hm as [|i [k1 p1] l ps H0 _ IH]; [done|]. simpl in *.
    destruct (obj_get c (KIdx (N.of_nat i))) as [x|] eqn:Hx; simpl in *; simplify_eq.
    constructor; [|done]. simpl. by eapply obj_get_avoids.
Qed.

Lemma duplicate_avoids (v : variant) (w : ProxyWorker) (c d : object) :
  object_avoids P c → protoval_avoids P (proto w) → duplicate v w c = Some (Ok d) →
  object_avoids P d.
Proof.
  intros Hc Hw. unfold duplicate. intros H.
  destruct (match o_kind c with
            | KArray => spread_array c
            | KObject => spread_object c
            end) as [d0|] eqn:Hs; [|done].
  pose proof (spread_avoids _ _ Hc Hs) as Hd0.
  destruct v; [|by simplify_eq]. by eapply obj_assign_avoids.
Qed.

Lemma protoval_of_avoids (a : ancestor) : ancestor_avoids P a → protoval_avoids P (protoval_of a).
Proof. by destruct a. Qed.

Lemma dunder_proto_avoids (c : object) : object_avoids P c → protoval_avoids P (dunder_proto c).
Proof.
  intros [Hps Ha]. unfold dunder_proto.
  destruct (own_prop (o_props c) (KStr "__proto__")) as [p|] eqn:Hp.
  - pose proof (own_prop_avoids _ _ _ Hps Hp) as Hq.
    destruct p as [y ? ? ?|[[gid y|]|] ? ? ?]; try done. by apply protoval_of_avoids.
  - destruct (chain_prop (o_proto c) (KStr "__proto__")) as [p|] eqn:Hc; [|done].
    pose proof (chain_prop_avoids _ _ _ Ha Hc) as Hq.
    destruct p as [y ? ? ?|[[gid y|]|] ? ? ?]; try done. by apply protoval_of_avoids.
Qed.

Lemma addOp_avoids (w : ProxyWorker) (k : key) (o : op) :
  worker_avoids P w → op_avoids P o → worker_avoids P (Worker.addOp w k o).
Proof.
  intros [Hr Hp] Ho. split; [|done]. simpl.
  assert (Forall (op_avoids P) (default [] (Worker.records_get (records w) k) ++ [o])) as Hn.
  { apply Forall_app. split; [|by repeat constructor].
    destruct (Worker.records_get (records w) k) as [r|] eqn:Hk; [|done]. simpl.
    apply records_get_Some_elem in Hk. rewrite Forall_forall in Hr. by apply Hr in Hk. }
  revert Hn. generalize (default [] (Worker.records_get (records w) k) ++ [o]).
  intros r Hn. induction (records w) as [|[k0 r0] m IH]; simpl.
  - by repeat constructor.
  - apply Forall_cons in Hr as [H0 Hr]. destruct (decide (k0 = k)).
    + by constructor.
    + constructor; [done|]. by apply IH.
Qed.

End avoids_lemmas.

Section confined_lemmas.
Variable P : list loc.
Variable S : list loc.

Lemma confined_bound (h : heap) (p : loc) : confined P S h → p ∈ P → p < length h.
Proof.
  intros [Hf _] Hp. destruct (Hf p Hp) as [w Hw]. unfold worker_at in Hw.
  destruct (h !! p) eqn:E; [|done]. by eapply lookup_lt_Some.
Qed.

Lemma confined_fresh (h : heap) (l : loc) : confined P S h → length h ≤ l → l ∉ P.
Proof. intros Hc Hl Hp. pose proof (confined_bound h l Hc Hp). lia. Qed.

Lemma confined_plain (h : heap) (l : loc) (c : object) :
  confined P S h → plain_at h l = Some c → object_avoids P c ∧ l ∉ P.
Proof.
  intros [Hf Hc]. unfold plain_at. destruct (h !! l) as [[o|w]|] eqn:E; intros H;
    simplify_eq.
  split; [by apply (Hc l (Plain c))|]. intros Hp. destruct (Hf l Hp) as [w Hw].
  unfold worker_at in Hw. by rewrite E in Hw.
Qed.

Lemma confined_worker (h : heap) (l : loc) (w : ProxyWorker) :
  confined P S h → worker_at h l = Some w → l ∉ S → worker_avoids P w.
Proof.
  intros [_ Hc]. unfold worker_at. destruct (h !! l) as [[o|w0]|] eqn:E; intros H;
    simplify_eq.
  by apply (Hc l (Proxy w)).
Qed.

Lemma confined_app (h : heap) (x : hobj) :
  confined P S h → hobj_avoids P x → confined P S (h ++ [x]).
Proof.
  intros [Hf Hc] Hx. split.
  - intros p Hp. destruct (Hf p Hp) as [w Hw]. exists w.
    eapply worker_at_prefix; [by apply prefix_app_r|done].
  - intros l y Hy. apply lookup_app_Some in Hy as [Hy|[_ Hy]]; [by apply Hc|].
    apply list_lookup_singleton_Some in Hy as [_ <-]. by destruct x.
Qed.

Lemma confined_insert_worker (h : heap) (f : loc) (w : ProxyWorker) :
  confined P S h → worker_avoids P w → confined P S (<[f := Proxy w]> h).
Proof.
  intros [Hf Hc] Hw. split.
  - intros p Hp. destruct (Hf p Hp) as [w0 Hw0]. unfold worker_at in *.
    destruct (decide (p = f)) as [->|Hne].
    + destruct (h !! f) eqn:E; [|done].
      rewrite list_lookup_insert_eq by by eapply lookup_lt_Some. by eexists.
    + rewrite list_lookup_insert_ne by done. by eexists.
  - intros l y Hy. apply list_lookup_insert_Some in Hy as [(-> & <- & _)|[_ Hy]];
      [done|by apply Hc].
Qed.

Lemma confined_insert_plain (h : heap) (l : loc) (o : object) :
  confined P S h → object_avoids P o → l ∉ P → confined P S (<[l := Plain o]> h).
Proof.
  intros [Hf Hc] Ho Hl. split.
  - intros p Hp. destruct (Hf p Hp) as [w0 Hw0]. unfold worker_at in *.
    rewrite list_lookup_insert_ne; [by eexists|]. intros ->. done.
  - intros l0 y Hy. apply list_lookup_insert_Some in Hy as [(-> & <- & _)|[_ Hy]];
      [done|by apply Hc].
Qed.

Lemma new_ProxyWorker_avoids (v : variant) (h : heap) (l : loc) :
  confined P S h → worker_avoids P (new_ProxyWorker v h l).
Proof.
  intros Hc. split; [by constructor|]. simpl.
  destruct (plain_at h l) as [c|] eqn:E; [|done].
  destruct (confined_plain _ _ _ Hc E) as [[Hps Ha] _]. destruct v.
  - by apply dunder_proto_avoids.
  - by apply protoval_of_avoids.
Qed.

Lemma asMutable_confined (v : variant) (x : value) (h h' : heap) (r : res value) :
  confined P S h → asMutable v x h = (r, h') →
  confined P S h' ∧ (value_avoids P x → ∀ y, r = Ok y → value_avoids P y).
Proof.
  intros Hc. unfold asMutable.
  destruct (negb (isDuplicable x)); [intros [= <- <-]; split; [done|by intros ? ? [= <-]]|].
  destruct (isMutable h x); [intros [= <- <-]; split; [done|by intros ? ? [= <-]]|].
  destruct x as [| | | | | | | | |l]; intros [= <- <-]; try by split.
  split.
  - apply confined_app; [done|]. by apply new_ProxyWorker_avoids.
  - intros _ y [= <-]. simpl. by eapply confined_fresh.
Qed.

Lemma Worker_get_confined (v : variant) (w w' : ProxyWorker) (c : object) (k : key)
      (h h' : heap) (r : res value) :
  confined P S h → worker_avoids P w → object_avoids P c →
  Worker.get v w c k h = Some (r, w', h') →
  confined P S h' ∧ worker_avoids P w'.
Proof.
  intros Hc Hw Ho. unfold Worker.get. intros H.
  destruct (Worker.query w k) as [[o [d|]]|].
  - destruct v; by simplify_eq.
  - destruct v; by simplify_eq.
  - destruct (Reflect_getOwnPropertyDescriptor c k) as [desc|] eqn:Hd.
    + destruct (obj_get c k) as [y|] eqn:Hy; [|done].
      pose proof (obj_get_avoids P _ _ _ Ho Hy) as Hav.
      destruct (asMutable v y h) as [[x|e] h2] eqn:Ha;
        destruct (asMutable_confined _ _ _ _ _ Hc Ha) as [Hc2 Hx]; [|by simplify_eq].
      destruct (isMutable h2 x && desc_has_value desc); simplify_eq; [|done].
      split; [done|]. apply addOp_avoids; [done|].
      apply with_value_avoids; [by eapply descriptor_avoids|by apply Hx].
    + destruct v.
      * destruct (Worker.get_proto (proto w) k); simpl in H; by simplify_eq.
      * destruct (obj_get c k); simpl in H; by simplify_eq.
Qed.

Lemma Worker_set_confined (v : variant) (w : ProxyWorker) (k : key) (x : value)
      (h h' : heap) (r : res ProxyWorker) :
  confined P S h → worker_avoids P w → value_avoids P x →
  Worker.set v w k x h = (r, h') →
  confined P S h' ∧ ∀ w', r = Ok w' → worker_avoids P w'.
Proof.
  intros Hc Hw Hx. unfold Worker.set. intros H.
  destruct (asMutable v x h) as [[y|e] h2] eqn:Ha;
    destruct (asMutable_confined _ _ _ _ _ Hc Ha) as [Hc2 Hy]; simplify_eq;
    (split; [done|]); [|done].
  intros w' [= <-]. apply addOp_avoids; [done|]. split; [|done]. simpl. by apply Hy.
Qed.

Lemma Worker_del_avoids (w w' : ProxyWorker) (c : object) (k : key) (b : bool) :
  worker_avoids P w → Worker.del w c k = (b, w') → worker_avoids P w'.
Proof.
  intros Hw. unfold Worker.del.
  destruct (Worker.getOwnPropertyDescriptor w c k) as [d|]; [|by intros [= <- <-]].
  destruct (desc_configurable d); intros [= <- <-]; [|done].
  by apply addOp_avoids.
Qed.

Hypothesis S_sub : ∀ l, l ∈ S → l ∈ P.

Section getValue_loop.
Variable rec : value → heap → option (res value * heap).
Variable c : object.
Hypothesis rec_confined :
  ∀ x h r h', confined P S h → value_avoids P x → rec x h = Some (r, h') →
              confined P S h' ∧ ∀ y, r = Ok y → value_avoids P y.

Lemma getValue_record_confined (k : key) (record : list op) (result : object)
      (mutated : bool) (h h' : heap) (r : res (object * bool)) :
  Forall (op_avoids P) record → confined P S h → object_avoids P result →
  getValue_record rec c k record result mutated h = Some (r, h') →
  confined P S h' ∧ ∀ ro mu, r = Ok (ro, mu) → object_avoids P ro.
Proof using rec_confined.
  intros Hr Hc Ho. unfold getValue_record. intros H.
  destruct (last record) as [[opcode desc]|] eqn:Hl; [|by simplify_eq].
  assert (op_avoids P (opcode, desc)) as Hop.
  { rewrite Forall_forall in Hr. apply Hr. apply last_Some in Hl as [l' ->].
    apply elem_of_app. right. left. }
  unfold op_avoids in Hop. simpl in Hop.
  destruct opcode.
  1,2: destruct desc as [d|]; [|by simplify_eq];
       destruct (rec (desc_value d) h) as [[[nv|e] h2]|] eqn:Hrec; [| |done];
       destruct (rec_confined _ _ _ _ Hc (desc_value_avoids P d Hop) Hrec) as [Hc2 Hnv];
       [|by simplify_eq];
       destruct (obj_set result k nv) as [[ro|e]|] eqn:Hs; simplify_eq;
       (split; [done|]); [|done]; intros ? ? [= <- <-];
       eapply obj_set_avoids; [done| |exact Hs]; by apply Hnv.
  - destruct (obj_delete result k) as [ro|e] eqn:Hd; simplify_eq; (split; [done|]); [|done].
    intros ? ? [= <- <-]. by eapply obj_delete_avoids.
  - destruct desc as [d|]; [|by simplify_eq].
    destruct (obj_define result k d) as [[ro|e]|] eqn:Hd; simplify_eq;
      (split; [done|]); [|done].
    intros ? ? [= <- <-]. by eapply obj_define_avoids.
Qed.

Lemma getValue_forEach_confined (m : recordsMap) :
  Forall (λ kr : key * list op, Forall (op_avoids P) kr.2) m →
  ∀ (result : object) (mutated : bool) (h h' : heap) (r : res (object * bool)),
    confined P S h → object_avoids P result →
    getValue_forEach rec c m result mutated h = Some (r, h') →
    confined P S h' ∧ ∀ ro mu, r = Ok (ro, mu) → object_avoids P ro.
Proof using rec_confined.
  induction m as [|[k record] m IH]; intros Hm result mutated h h' r Hc Ho H.
  - simpl in H. simplify_eq. split; [done|]. by intros ? ? [= <- <-].
  - apply Forall_cons in Hm as [Hr Hm]. simpl in H, Hr.
    destruct (getValue_record rec c k record result mutated h)
      as [[[[r1 mu1]|e] h1]|] eqn:Hs; [| |done];
      destruct (getValue_record_confined _ _ _ _ _ _ _ Hr Hc Ho Hs) as [Hc1 Ho1].
    + eapply IH; [done|exact Hc1| |exact H]. by eapply Ho1.
    + by simplify_eq.
Qed.
End getValue_loop.

Lemma getValue_confined (v : variant) (fuel : nat) :
  ∀ x h r h', confined P S h → (∀ l, x = VRef l → l ∉ S) →
              getValue v fuel x h = Some (r, h') →
              confined P S h' ∧ ∀ y, r = Ok y → value_avoids P y.
Proof using S_sub.
  induction fuel as [|n IH]; intros x h r h' Hc Hx H.
  - simpl in H. destruct (MUTABLE_of h x) as [w|] eqn:Hm; [done|]. simplify_eq.
    split; [done|]. intros y [= <-]. destruct x as [| | | | | | | | |l]; try done.
    simpl. intros Hp. destruct Hc as [Hf _]. destruct (Hf l Hp) as [w Hw].
    simpl in Hm. by rewrite Hm in Hw.
  - rewrite getValue_S in H. destruct (MUTABLE_of h x) as [w|] eqn:Hm.
    + destruct x as [| | | | | | | | |l]; try done. simpl in Hm.
      pose proof (confined_worker _ _ _ Hc Hm (Hx l eq_refl)) as [Hr Hp].
      destruct (plain_at h (client w)) as [c|] eqn:Hcl; [|done].
      destruct (confined_plain _ _ _ Hc Hcl) as [Hoc Hcp].
      destruct (records w) as [|kr m] eqn:Hrec.
      { simplify_eq. split; [done|]. by intros y [= <-]. }
      destruct (duplicate v w c) as [[d|e]|] eqn:Hdup; [| |done].
      2: { simplify_eq. by split. }
      pose proof (duplicate_avoids P _ _ _ _ Hoc Hp Hdup) as Hd.
      destruct (getValue_forEach (getValue v n) c (kr :: m) d false (h ++ [Plain d]))
        as [[[[ro mu]|e] h1]|] eqn:Hfe; [| |done].
      * destruct (getValue_forEach_confined (getValue v n) c) with
          (m := kr :: m) (result := d) (mutated := false) (h := h ++ [Plain d])
          (h' := h1) (r := Ok (ro, mu)) as [Hc1 Hro]; try done.
        { intros x0 h0 r0 h0' Hc0 Hx0. apply IH; [done|].
          intros l0 -> Hl0. apply Hx0. by apply S_sub. }
        { by apply confined_app. }
        simplify_eq. split.
        -- apply confined_insert_plain; [done|by eapply Hro|by apply (confined_fresh h)].
        -- intros y [= <-]. destruct mu; simpl; [by apply (confined_fresh h)|done].
      * destruct (getValue_forEach_confined (getValue v n) c) with
          (m := kr :: m) (result := d) (mutated := false) (h := h ++ [Plain d])
          (h' := h1) (r := @Throw (object * bool) e) as [Hc1 Hro]; try done.
        { intros x0 h0 r0 h0' Hc0 Hx0. apply IH; [done|].
          intros l0 -> Hl0. apply Hx0. by apply S_sub. }
        { by apply confined_app. }
        simplify_eq. by split.
    + simplify_eq. split; [done|]. intros y [= <-].
      destruct x as [| | | | | | | | |l]; try done.
      simpl. intros Hp. destruct Hc as [Hf _]. destruct (Hf l Hp) as [w Hw].
      simpl in Hm. by rewrite Hm in Hw.
Qed.

End confined_lemmas.

Lemma step_confined (P : list loc) (v : variant) (h : heap) (a : action) :
  confined P [] h → action_avoids P a → confined P [] (step v h a).
Proof.
  intros Hc Ha.
  assert (∀ f w c, Handler.deref h f = Some (w, c) →
                   worker_avoids P w ∧ object_avoids P c) as Hd.
  { intros f w c Hd. destruct (deref_worker _ _ _ _ Hd) as [Hf Hcl]. split.
    - eapply confined_worker; [done| |apply not_elem_of_nil].
      unfold worker_at. by rewrite Hf.
    - eapply confined_plain; [done|]. unfold plain_at. by rewrite Hcl. }
  destruct a as [f k|f k x|f k|f k d|f k|f|f k|f|f a|f|x|fuel x]; simpl.
  - unfold Handler.get. destruct (Handler.deref h f) as [[w c]|] eqn:E; [|done].
    destruct (Hd _ _ _ E) as [Hw Ho].
    destruct (Worker.get v w c k h) as [[[r w'] h1]|] eqn:Hg; simpl; [|done].
    destruct (Worker_get_confined _ _ _ _ _ _ _ _ _ _ Hc Hw Ho Hg) as [Hc1 Hw'].
    by apply confined_insert_worker.
  - unfold Handler.set. destruct (Handler.deref h f) as [[w c]|] eqn:E; [|done].
    destruct (Hd _ _ _ E) as [Hw Ho].
    destruct (Worker.set v w k x h) as [[w'|e] h1] eqn:Hg; simpl;
      destruct (Worker_set_confined _ _ _ _ _ _ _ _ _ Hc Hw Ha Hg) as [Hc1 Hw']; [|done].
    apply confined_insert_worker; [done|by apply Hw'].
  - unfold Handler.deleteProperty. destruct (Handler.deref h f) as [[w c]|] eqn:E; [|done].
    destruct (Hd _ _ _ E) as [Hw Ho].
    destruct (Worker.del w c k) as [b w'] eqn:Hg. simpl.
    apply confined_insert_worker; [done|]. by eapply Worker_del_avoids.
  - unfold Handler.defineProperty. destruct (Handler.deref h f) as [[w c]|] eqn:E; [|done].
    destruct (Hd _ _ _ E) as [Hw Ho].
    destruct (Worker.getOwnPropertyDescriptor w c k) as [old|]; [|done].
    destruct (negb (desc_configurable old)); simpl; [done|].
    apply confined_insert_worker; [done|]. by apply addOp_avoids.
  - unfold Handler.has. destruct (Handler.deref h f) as [[w c]|]; [|done].
    by destruct (Worker.has v w c k).
  - unfold Handler.ownKeys. by destruct (Handler.deref h f) as [[w c]|].
  - unfold Handler.getOwnPropertyDescriptor. by destruct (Handler.deref h f) as [[w c]|].
  - unfold Handler.getPrototypeOf. by destruct (Handler.deref h f) as [[w c]|].
  - unfold Handler.setPrototypeOf. destruct (Handler.deref h f) as [[w c]|] eqn:E; [|done].
    destruct (Hd _ _ _ E) as [[Hr Hp] Ho]. simpl.
    apply confined_insert_worker; [done|]. split; [done|]. by apply protoval_of_avoids.
  - done.
  - destruct (asMutable v x h) as [r h1] eqn:Hg. simpl.
    by destruct (asMutable_confined _ _ _ _ _ _ _ Hc Hg).
  - destruct (getValue v fuel x h) as [[r h1]|] eqn:Hg; simpl; [|done].
    eapply getValue_confined; [|exact Hc| |exact Hg].
    + by intros l ?%elem_of_nil.
    + intros l _. apply not_elem_of_nil.
Qed.

Lemma run_confined (P : list loc) (v : variant) (script : list action) :
  Forall (action_avoids P) script →
  ∀ h, confined P [] h → confined P [] (run v h script).
Proof.
  unfold run. induction 1 as [|a script Ha _ IH]; intros h Hc; simpl; [done|].
  apply IH. by apply step_confined.
Qed.

Lemma confined_weaken (P S : list loc) (h : heap) : confined P [] h → confined P S h.
Proof.
  intros [Hf Hc]. split; [done|]. intros l x Hx. specialize (Hc l x Hx).
  destruct x; [done|]. intros _. apply Hc, not_elem_of_nil.
Qed.

Section graft.
Variables (p1 p2 : loc) (w1 w2 : ProxyWorker).

Lemma length_graft (h : heap) : length (graft p1 p2 w1 w2 h) = length h.
Proof. unfold graft. by rewrite !length_insert. Qed.

Lemma lookup_graft_ne (h : heap) (l : loc) :
  l ≠ p1 → l ≠ p2 → graft p1 p2 w1 w2 h !! l = h !! l.
Proof. intros H1 H2. unfold graft. by rewrite !list_lookup_insert_ne. Qed.

Lemma plain_at_graft (S : list loc) (h : heap) (l : loc) :
  confined [p1; p2] S h → plain_at (graft p1 p2 w1 w2 h) l = plain_at h l.
Proof.
  intros [Hf _]. unfold plain_at, graft.
  destruct (decide (l = p1)) as [->|H1].
  { destruct (Hf p1) as [w Hw]; [left|]. unfold worker_at in Hw.
    destruct (h !! p1) as [[o|w0]|] eqn:E; try done.
    rewrite list_lookup_insert_eq; [done|].
    rewrite length_insert. by eapply lookup_lt_Some. }
  rewrite list_lookup_insert_ne by done.
  destruct (decide (l = p2)) as [->|H2]; [|by rewrite list_lookup_insert_ne].
  destruct (Hf p2) as [w Hw]; [right; left|]. unfold worker_at in Hw.
  destruct (h !! p2) as [[o|w0]|] eqn:E; try done.
  rewrite list_lookup_insert_eq; [done|]. by eapply lookup_lt_Some.
Qed.

Lemma MUTABLE_of_graft (h : heap) (x : value) :
  value_avoids [p1; p2] x → MUTABLE_of (graft p1 p2 w1 w2 h) x = MUTABLE_of h x.
Proof.
  destruct x as [| | | | | | | | |l]; try done. simpl. intros Hl.
  unfold worker_at. rewrite lookup_graft_ne; [done| |].
  - intros ->. apply Hl. left.
  - intros ->. apply Hl. right. left.
Qed.

Lemma graft_app (S : list loc) (h ext : heap) :
  confined [p1; p2] S h → graft p1 p2 w1 w2 (h ++ ext) = graft p1 p2 w1 w2 h ++ ext.
Proof.
  intros Hc. unfold graft.
  assert (p1 < length h) as H1 by (eapply confined_bound; [done|left]).
  assert (p2 < length h) as H2 by (eapply confined_bound; [done|right; left]).
  rewrite (insert_app_l h) by done. rewrite insert_app_l; [done|].
  by rewrite length_insert.
Qed.

Lemma graft_insert (h : heap) (l : loc) (x : hobj) :
  l ≠ p1 → l ≠ p2 →
  graft p1 p2 w1 w2 (<[l := x]> h) = <[l := x]> (graft p1 p2 w1 w2 h).
Proof.
  intros H1 H2. unfold graft.
  rewrite (list_insert_insert_ne h p2 l) by done.
  by rewrite (list_insert_insert_ne _ p1 l).
Qed.

Section getValue_loop.
Variable rec : value → heap → option (res value * heap).
Variable c : object.
Hypothesis rec_confined :
  ∀ x h r h', confined [p1; p2] [p1; p2] h → value_avoids [p1; p2] x →
              rec x h = Some (r, h') →
              confined [p1; p2] [p1; p2] h' ∧ ∀ y, r = Ok y → value_avoids [p1; p2] y.
Hypothesis rec_graft :
  ∀ x h, confined [p1; p2] [p1; p2] h → value_avoids [p1; p2] x →
         rec x (graft p1 p2 w1 w2 h)
         = (λ rh, (rh.1, graft p1 p2 w1 w2 rh.2)) <$> rec x h.

Lemma getValue_record_graft (k : key) (record : list op) (result : object)
      (mutated : bool) (h : heap) :
  Forall (op_avoids [p1; p2]) record → confined [p1; p2] [p1; p2] h →
  getValue_record rec c k record result mutated (graft p1 p2 w1 w2 h)
  = (λ rh, (rh.1, graft p1 p2 w1 w2 rh.2))
      <$> getValue_record rec c k record result mutated h.
Proof using rec_graft.
  intros Hr Hc. unfold getValue_record.
  destruct (last record) as [[opcode desc]|] eqn:Hl; [|done].
  assert (op_avoids [p1; p2] (opcode, desc)) as Hop.
  { rewrite Forall_forall in Hr. apply Hr. apply last_Some in Hl as [l' ->].
    apply elem_of_app. right. left. }
  unfold op_avoids in Hop. simpl in Hop.
  destruct opcode.
  1,2: destruct desc as [d|]; [|done];
       rewrite (rec_graft _ _ Hc (desc_value_avoids _ d Hop));
       destruct (rec (desc_value d) h) as [[[nv|e] h2]|]; simpl; [|done..];
       by destruct (obj_set result k nv) as [[ro|e]|].
  - by destruct (obj_delete result k).
  - destruct desc as [d|]; [|done]. by destruct (obj_define result k d) as [[ro|e]|].
Qed.

Lemma getValue_forEach_graft (m : recordsMap) :
  Forall (λ kr : key * list op, Forall (op_avoids [p1; p2]) kr.2) m →
  ∀ (result : object) (mutated : bool) (h : heap),
    confined [p1; p2] [p1; p2] h → object_avoids [p1; p2] result →
    getValue_forEach rec c m result mutated (graft p1 p2 w1 w2 h)
    = (λ rh, (rh.1, graft p1 p2 w1 w2 rh.2))
        <$> getValue_forEach rec c m result mutated h.
Proof using rec_graft rec_confined.
  induction m as [|[k record] m IH]; intros Hm result mutated h Hc Ho; [done|].
  apply Forall_cons in Hm as [Hr Hm]. simpl in Hr. simpl.
  rewrite (getValue_record_graft k record result mutated h Hr Hc).
  destruct (getValue_record rec c k record result mutated h)
    as [[[[r1 mu1]|e] h1]|] eqn:Hs; simpl; [|done..].
  destruct (getValue_record_confined [p1; p2] [p1; p2] rec c rec_confined
              _ _ _ _ _ _ _ Hr Hc Ho Hs) as [Hc1 Ho1].
  apply IH; [done..|]. by eapply Ho1.
Qed.
End getValue_loop.

(** [getValue] of a value that holds no reference to the two facades
    neither reads nor writes their workers. *)
Lemma getValue_graft (v : variant) (fuel : nat) :
  ∀ x h, confined [p1; p2] [p1; p2] h → value_avoids [p1; p2] x →
         getValue v fuel x (graft p1 p2 w1 w2 h)
         = (λ rh, (rh.1, graft p1 p2 w1 w2 rh.2)) <$> getValue v fuel x h.
Proof.
  induction fuel as [|n IH]; intros x h Hc Hx.
  - simpl. rewrite MUTABLE_of_graft by done. by destruct (MUTABLE_of h x).
  - rewrite !getValue_S. rewrite MUTABLE_of_graft by done.
    destruct (MUTABLE_of h x) as [w|] eqn:Hm; [|done].
    rewrite (plain_at_graft _ _ _ Hc).
    destruct x as [| | | | | | | | |l]; try done. simpl in Hm, Hx.
    pose proof (confined_worker _ _ _ _ _ Hc Hm Hx) as [Hr Hp].
    destruct (plain_at h (client w)) as [c|] eqn:Hcl; [|done].
    destruct (confined_plain _ _ _ _ _ Hc Hcl) as [Hoc Hcp].
    destruct (records w) as [|kr m] eqn:Hrec; [done|].
    destruct (duplicate v w c) as [[d|e]|] eqn:Hdup; [|done..].
    pose proof (duplicate_avoids _ _ _ _ _ Hoc Hp Hdup) as Hd.
    assert (∀ x0 h0 r0 h0',
              confined [p1; p2] [p1; p2] h0 → value_avoids [p1; p2] x0 →
              getValue v n x0 h0 = Some (r0, h0') →
              confined [p1; p2] [p1; p2] h0' ∧ ∀ y, r0 = Ok y → value_avoids [p1; p2] y)
      as Hrc.
    { intros x0 h0 r0 h0' Hc0 Hx0. apply getValue_confined; [done..|].
      by intros l0 ->. }
    rewrite <- (graft_app _ _ _ Hc).
    rewrite (getValue_forEach_graft (getValue v n) c Hrc IH (kr :: m) Hr d false
               (h ++ [Plain d])); [|by apply confined_app|done].
    rewrite length_graft.
    destruct (getValue_forEach (getValue v n) c (kr :: m) d false (h ++ [Plain d]))
      as [[[[ro mu]|e] h1]|]; simpl; [|done..].
    rewrite graft_insert; [done| |].
    + intros E. pose proof (confined_bound _ _ _ p1 Hc). rewrite <- E in H.
      specialize (H ltac:(left)). lia.
    + intros E. pose proof (confined_bound _ _ _ p2 Hc). rewrite <- E in H.
      specialize (H ltac:(right; left)). lia.
Qed.

End graft.



(** C10, the clause as worded fails: with [a1 = f.a] for the accessor key
    [a], after [f.a = a1; a1.v = 5] the result of [unwrap(f)] holds at
    [a] a copy of the getter's container in which [v] is [5], in both
    files: the write through [a1] shows in it. The facade [a1] was
    itself written to [f]. *)
Lemma accessor_facade_written_back :
  let script := [ReadProperty 2 (KStr "a"); WriteProperty 2 (KStr "a") (VRef 3);
                 WriteProperty 3 (KStr "v") (VNum 5)] in
  let shows v :=
    let h := Sample.wrapped v 1 Sample.h_getter in
    own_prop (o_props (Sample.obj [(KStr "a", Accessor (Some (Getter 100 (VRef 0))) None
                                                       true true);
                                   (KStr "n", Sample.num 0)])) (KStr "a")
    = Some (Accessor (Some (Getter 100 (VRef 0))) None true true) ∧
    Handler.get v 2 (KStr "a") h = Some (Ok (VRef 3), step v h (ReadProperty 2 (KStr "a"))) ∧
    ∃ h3 x a,
      getValue v 3 (VRef 2) (run v h script) = Some (Ok (VRef 4), h3) ∧
      plain_at h3 4 = Some x ∧ obj_get x (KStr "a") = Some (VRef 5) ∧
      plain_at h3 5 = Some a ∧ obj_get a (KStr "v") = Some (VNum 5) in
  shows AsMutable ∧ shows ImMutable ∧ ¬ Forall (action_avoids [3; 4]) script.
Proof.
  intros script shows. split; [|split].
  - split; [reflexivity|]. split; [reflexivity|].
    eexists _, _, _. split; [vm_compute; reflexivity|]. repeat split; reflexivity.
  - split; [reflexivity|]. split; [reflexivity|].
    eexists _, _, _. split; [vm_compute; reflexivity|]. repeat split; reflexivity.
  - intros H. apply Forall_cons in H as [_ H]. apply Forall_cons in H as [H _].
    simpl in H. apply H. left.
Qed.


(** On the sample with a getter: a write through the facade the read
    returned, then a write to another key of [f], then [unwrap(f)]: the
    copy holds the getter's own container at [a], in both files. *)
Example accessor_session (v : variant) :
  let h := Sample.wrapped v 1 Sample.h_getter in
  let hs := run v h [ReadProperty 2 (KStr "a");
                     WriteProperty 3 (KStr "v") (VNum 5);
                     WriteProperty 2 (KStr "n") (VNum 1)] in
  (fst <$> getValue v 3 (VRef 3) hs) = Some (Ok (VRef 4)) ∧
  match getValue v 3 (VRef 2) hs with
  | Some (Ok (VRef r), h3) =>
      r = 4 ∧
      (o_props <$> plain_at h3 r)
      = Some [(KStr "a", Data (VRef 0) true true true); (KStr "n", Sample.num 1)]
  | _ => False
  end.
Proof. destruct v; vm_compute; done. Qed.

(* ================================================================== *)
(** ** The own keys of a facade in as-mutable.ts *)

Lemma filter_ext_elem {A} (P Q : A → Prop) `{∀ x, Decision (P x)} `{∀ x, Decision (Q x)}
      (l : list A) :
  (∀ x, x ∈ l → (P x ↔ Q x)) → filter P l = filter Q l.
Proof.
  induction l as [|a l IH]; intros Hext; [done|].
  rewrite !filter_cons.
  assert (P a ↔ Q a) as Ha by (apply Hext; left).
  rewrite IH by (intros x Hx; apply Hext; by right).
  destruct (decide (P a)), (decide (Q a)); tauto.
Qed.

Lemma filter_all {A} (P : A → Prop) `{∀ x, Decision (P x)} (l : list A) :
  (∀ x, x ∈ l → P x) → filter P l = l.
Proof.
  induction l as [|a l IH]; intros Hall; [done|].
  rewrite filter_cons_True by (apply Hall; left).
  f_equal. apply IH. intros x Hx. apply Hall. by right.
Qed.

Lemma records_wf_nil : records_wf [].
Proof. split; constructor. Qed.

Lemma records_set_keys_elem (m : recordsMap) (k k' : key) (r : list op) :
  k' ∈ (Worker.records_set m k r).*1 ↔ k' = k ∨ k' ∈ m.*1.
Proof.
  induction m as [|[k0 r0] m IH]; simpl.
  - rewrite list_elem_of_singleton, elem_of_nil. tauto.
  - destruct (decide (k0 = k)) as [->|Hne]; simpl.
    + rewrite !elem_of_cons. tauto.
    + rewrite !elem_of_cons, IH. tauto.
Qed.

Lemma records_wf_set (m : recordsMap) (k : key) (r : list op) :
  r ≠ [] → records_wf m → records_wf (Worker.records_set m k r).
Proof.
  intros Hr [Hnd Hne]. split.
  - induction m as [|[k0 r0] m IH]; simpl;
      [apply NoDup_singleton|].
    simpl in Hnd. apply NoDup_cons in Hnd as [Hnin Hnd].
    apply Forall_cons in Hne as [_ Hne].
    destruct (decide (k0 = k)) as [->|Hk]; simpl.
    + by apply NoDup_cons.
    + apply NoDup_cons. split; [|by apply IH].
      rewrite records_set_keys_elem. intros [->|Hin]; done.
  - induction m as [|[k0 r0] m IH]; simpl; [by repeat constructor|].
    apply Forall_cons in Hne as [H0 Hne].
    simpl in Hnd. apply NoDup_cons in Hnd as [_ Hnd].
    destruct (decide (k0 = k)); apply Forall_cons; split; try done. by apply IH.
Qed.

Lemma records_wf_addOp (this : ProxyWorker) (k : key) (o : op) :
  records_wf (records this) → records_wf (records (Worker.addOp this k o)).
Proof.
  intros Hwf. unfold Worker.addOp. simpl. apply records_wf_set; [|done].
  by destruct (default [] (Worker.records_get (records this) k)).
Qed.

Lemma is_deleted_cons_eq (m : recordsMap) (k : key) (r : list op) :
  is_deleted ((k, r) :: m) k
  = match last r with Some (DEL, _) => true | _ => false end.
Proof. unfold is_deleted. simpl. by rewrite decide_True. Qed.

Lemma is_deleted_cons_ne (m : recordsMap) (k k' : key) (r : list op) :
  k ≠ k' → is_deleted ((k, r) :: m) k' = is_deleted m k'.
Proof. intros Hne. unfold is_deleted. simpl. by rewrite decide_False. Qed.

Lemma records_get_not_elem (m : recordsMap) (k : key) :
  k ∉ m.*1 → Worker.records_get m k = None.
Proof.
  induction m as [|[k0 r0] m IH]; simpl; [done|].
  intros Hnin. apply not_elem_of_cons in Hnin as [? ?].
  rewrite decide_False by done. by apply IH.
Qed.

Lemma ownKeys_set_spec (m : recordsMap) :
  records_wf m →
  ∀ keys,
    Worker.ownKeys_set m keys
    = Ok (filter (λ k, is_deleted m k = false) keys
          ++ filter (λ k, (k ∉ keys) ∧ is_deleted m k = false) (m.*1)).
Proof.
  intros [Hnd Hne]. induction m as [|[k r] m IH]; intros keys.
  - simpl. rewrite app_nil_r. f_equal. symmetry. by apply filter_all.
  - simpl in Hnd. apply NoDup_cons in Hnd as [Hnin Hnd].
    apply Forall_cons in Hne as [Hr Hne]. simpl in Hr.
    destruct (last r) as [[opcode d]|] eqn:Hl; [|by apply last_None in Hl].
    assert (∀ k', k' ∈ m.*1 → is_deleted ((k, r) :: m) k' = is_deleted m k') as Hdm.
    { intros k' Hin. apply is_deleted_cons_ne. by intros ->. }
    assert (is_deleted m k = false) as Hdk'.
    { unfold is_deleted. by rewrite records_get_not_elem. }
    cbn [Worker.ownKeys_set fmap list_fmap fst]. rewrite Hl. cbn [fst].
    rewrite (filter_cons _ k).
    destruct (decide (opcode = DEL)) as [->|Hop].
    + rewrite IH by done. f_equal. unfold Worker.set_delete.
      rewrite list_filter_filter.
      assert (is_deleted ((k, r) :: m) k = true) as Hdk
          by by rewrite is_deleted_cons_eq, Hl.
      rewrite decide_False by (rewrite Hdk; intros [_ ?]; done).
      f_equal.
      * apply filter_ext_elem. intros k' _.
        destruct (decide (k = k')) as [<-|Hk].
        -- rewrite Hdk. split; [by intros [_ ?]|done].
        -- rewrite is_deleted_cons_ne by done. split; [by intros [? _]|]. intros. by split.
      * apply filter_ext_elem. intros k' Hin.
        assert (k' ≠ k) as Hk by (intros ->; done).
        rewrite Hdm by done.
        rewrite list_elem_of_filter. split; intros [H1 H2]; (split; [|done]).
        -- intros H3. apply H1. by split.
        -- intros [_ H3]. done.
    + assert (is_deleted ((k, r) :: m) k = false) as Hdk.
      { rewrite is_deleted_cons_eq, Hl. by destruct opcode. }
      rewrite IH by done. f_equal. unfold Worker.set_add.
      destruct (bool_decide (k ∈ keys)) eqn:Hin.
      * apply bool_decide_eq_true in Hin.
        rewrite decide_False by (intros [? _]; done). f_equal.
        -- apply filter_ext_elem. intros k' _.
           destruct (decide (k = k')) as [<-|Hk]; [by rewrite Hdk, Hdk'|].
           by rewrite is_deleted_cons_ne.
        -- apply filter_ext_elem. intros k' Hk'. by rewrite Hdm.
      * apply bool_decide_eq_false in Hin.
        rewrite decide_True by done.
        rewrite filter_app, (filter_cons _ k), decide_True, filter_nil by done.
        rewrite <- (assoc_L (++)). simpl. f_equal.
        -- apply filter_ext_elem. intros k' Hk'.
           rewrite is_deleted_cons_ne; [done|]. by intros ->.
        -- f_equal. apply filter_ext_elem. intros k' Hk'. rewrite Hdm by done.
           rewrite elem_of_app, list_elem_of_singleton.
           assert (k' ≠ k) by (intros ->; done). tauto.
Qed.

Lemma foldl_set_add (l : list key) :
  ∀ acc, NoDup (acc ++ l) → foldl Worker.set_add acc l = acc ++ l.
Proof.
  induction l as [|k l IH]; intros acc Hnd; simpl; [by rewrite app_nil_r|].
  assert (k ∉ acc) as Hk.
  { apply NoDup_app in Hnd as (_ & Hd & _). intros Hin. apply (Hd k Hin). left. }
  unfold Worker.set_add at 2. rewrite bool_decide_eq_false_2 by done.
  rewrite IH; rewrite <- (assoc_L (++)); done.
Qed.

(** In as-mutable.ts the own keys of a facade are the ones the
    specification lists, without duplicates: a key of the origin that was
    read or rewritten through the facade stays once, in its place. *)
Lemma ownKeys_as_mutable (this : ProxyWorker) (c : object) :
  NoDup (Reflect_ownKeys c) →
  records_wf (records this) →
  Worker.ownKeys AsMutable this c = Ok (listOwnKeys_spec this c) ∧
  NoDup (listOwnKeys_spec this c).
Proof.
  intros Hnd Hwf. split.
  - unfold Worker.ownKeys. rewrite (foldl_set_add _ []) by done. simpl.
    by rewrite ownKeys_set_spec.
  - unfold listOwnKeys_spec. apply NoDup_app. split; [by apply NoDup_filter|].
    split; [|apply NoDup_filter, Hwf].
    intros k Hin1 Hin2.
    apply list_elem_of_filter in Hin1 as [_ Hin1].
    apply list_elem_of_filter in Hin2 as [[Hnin _] _]. done.
Qed.

(* ================================================================== *)
(** ** Fuel *)

Lemma getValue_forEach_ext
      (rec rec' : value → heap → option (res value * heap)) (c : object) :
  (∀ x h r, rec x h = Some r → rec' x h = Some r) →
  ∀ m result mutated h r,
    getValue_forEach rec c m result mutated h = Some r →
    getValue_forEach rec' c m result mutated h = Some r.
Proof.
  intros Hrec m. induction m as [|[k record] m IH]; intros result mutated h r H;
    simpl in *; [done|].
  assert (∀ r1, getValue_record rec c k record result mutated h = Some r1 →
                getValue_record rec' c k record result mutated h = Some r1) as Hstep.
  { intros r1. unfold getValue_record.
    destruct (last record) as [[[] [d|]]|]; try done;
      (destruct (rec (desc_value d) h) as [r2|] eqn:Hr; [|done]);
      by rewrite (Hrec _ _ _ Hr). }
  destruct (getValue_record rec c k record result mutated h) as [r1|] eqn:Hs; [|done].
  rewrite (Hstep _ eq_refl). destruct r1 as [[[r1 mu1]|e] h1]; [|done]. by apply IH.
Qed.

(** More fuel does not change an answer. *)
Lemma getValue_fuel_mono (v : variant) (n : nat) :
  ∀ m x h r, n ≤ m → getValue v n x h = Some r → getValue v m x h = Some r.
Proof.
  induction n as [|n IH]; intros m x h r Hle H.
  - simpl in H. destruct (MUTABLE_of h x) eqn:Hm; [done|].
    simplify_eq. by apply getValue_not_mutable.
  - destruct m as [|m]; [lia|]. simpl in *.
    destruct (MUTABLE_of h x) as [w|]; [|done].
    destruct (plain_at h (client w)) as [c|]; [|done].
    destruct (records w) as [|kr recs]; [done|].
    destruct (duplicate v w c) as [[d|e]|]; [|done|done].
    destruct (getValue_forEach (getValue v n) c (kr :: recs) d false
                (h ++ [Plain d])) as [r1|] eqn:Hf; [|done].
    erewrite getValue_forEach_ext; [exact H| |exact Hf].
    intros x' h0 r0. apply IH. lia.
Qed.

Lemma grows_refl (h : heap) : grows h h.
Proof. exists []. by rewrite app_nil_r. Qed.

Lemma grows_trans (h1 h2 h3 : heap) : grows h1 h2 → grows h2 h3 → grows h1 h3.
Proof.
  intros (e1 & -> & F1) (e2 & -> & F2). exists (e1 ++ e2).
  split; [by rewrite (assoc_L (++))|]. by apply Forall_app.
Qed.

Lemma grows_prefix (h h' : heap) : grows h h' → h `prefix_of` h'.
Proof. intros (ext & -> & _). by apply prefix_app_r. Qed.

Lemma grows_worker (h h' : heap) (f : loc) (w : ProxyWorker) :
  grows h h' → worker_at h' f = Some w → worker_at h f = Some w.
Proof.
  intros (ext & -> & Hext). unfold worker_at. intros H.
  destruct (decide (f < length h)) as [Hlt|Hge].
  - by rewrite lookup_app_l in H.
  - rewrite lookup_app_r in H by lia.
    destruct (ext !! (f - length h)) as [[o|w']|] eqn:He; try done.
    rewrite Forall_lookup in Hext. by apply Hext in He.
Qed.

Lemma replayable_grows (v : variant) (rk : loc → nat) (h h' : heap) :
  replayable v rk h → grows h h' → replayable v rk h'.
Proof.
  intros Hr Hg f w Hw. apply (grows_worker _ _ _ _ Hg) in Hw.
  destruct (Hr f w Hw) as (c & d & Hc & Hd & Hnd & Hlen & Hacc & Hb).
  exists c, d. split; [eapply plain_at_prefix; [by apply grows_prefix|done]|].
  do 4 (split; [done|]).
  intros g Hin [w' Hw']. apply Hb; [done|]. exists w'. by eapply grows_worker.
Qed.

Lemma getValue_record_grows
      (rec : value → heap → option (res value * heap)) (c : object) :
  (∀ x h r h', rec x h = Some (r, h') → grows h h') →
  ∀ k record result mutated h r h',
    getValue_record rec c k record result mutated h = Some (r, h') → grows h h'.
Proof.
  intros Hrec k record result mutated h r h' H. unfold getValue_record in H.
  destruct (last record) as [[[] [d|]]|]; simplify_eq; try apply grows_refl.
  1,2: destruct (rec (desc_value d) h) as [[[nv|e] h2]|] eqn:Hr; try done;
       [destruct (obj_set result k nv) as [[]|]|]; simplify_eq; by eapply Hrec.
  1,2: destruct (obj_delete result k); simplify_eq; apply grows_refl.
  destruct (obj_define result k d) as [[]|]; simplify_eq; apply grows_refl.
Qed.

Lemma getValue_forEach_grows
      (rec : value → heap → option (res value * heap)) (c : object) :
  (∀ x h r h', rec x h = Some (r, h') → grows h h') →
  ∀ m result mutated h r h',
    getValue_forEach rec c m result mutated h = Some (r, h') → grows h h'.
Proof.
  intros Hrec m. induction m as [|[k record] m IH]; intros result mutated h r h' H.
  - simpl in H. simplify_eq. apply grows_refl.
  - simpl in H.
    destruct (getValue_record rec c k record result mutated h) as [[[[r1 mu1]|e] h1]|] eqn:Hs;
      try done.
    + eapply grows_trans; [by eapply getValue_record_grows|]. by eapply IH.
    + simplify_eq. by eapply getValue_record_grows.
Qed.

(** [getValue] allocates plain containers only. *)
Lemma getValue_grows (v : variant) (fuel : nat) :
  ∀ x h r h', getValue v fuel x h = Some (r, h') → grows h h'.
Proof.
  induction fuel as [|fuel IH]; intros x h r h' H.
  - simpl in H. destruct (MUTABLE_of h x); simplify_eq. apply grows_refl.
  - simpl in H. destruct (MUTABLE_of h x) as [w|]; [|simplify_eq; apply grows_refl].
    destruct (plain_at h (client w)) as [c|]; [|done].
    destruct (records w) as [|kr m] eqn:Hm; [simplify_eq; apply grows_refl|].
    destruct (duplicate v w c) as [[d|e]|]; [|simplify_eq; apply grows_refl|done].
    destruct (getValue_forEach (getValue v fuel) c (kr :: m) d false
                (h ++ [Plain d])) as [[[[ro mu]|e] h1]|] eqn:Hf; try done.
    + apply getValue_forEach_grows in Hf; [|exact IH].
      destruct Hf as (ext & -> & Hext). simplify_eq.
      rewrite <- (assoc_L (++)). simpl. rewrite insert_fresh_copy.
      exists (Plain ro :: ext). split; [done|]. by apply Forall_cons.
    + apply getValue_forEach_grows in Hf; [|exact IH]. simplify_eq.
      eapply grows_trans; [|exact Hf]. exists [Plain d].
      split; [done|]. by repeat constructor.
Qed.

(* ================================================================== *)
(** ** When the replay is accepted *)

Lemma store_prop_meta (o o' : object) (k : key) (p : property) :
  store_prop o k p = Some (Ok o') → o_kind o' = o_kind o ∧ o_proto o' = o_proto o.
Proof.
  unfold store_prop. intros H.
  destruct (o_kind o) eqn:Hk; [by simplify_eq|].
  destruct k as [i|s|n]; [| |by simplify_eq].
  - destruct (i <? own_length (o_props o))%N; [by simplify_eq|].
    destruct (length_writable (o_props o)); by simplify_eq.
  - destruct (decide (s = "length"%string)) as [->|Hs]; [|by simplify_eq].
    destruct p as [x w en c|]; [|done].
    destruct (to_array_length x) as [[n|err]|]; try done.
    destruct (own_length (o_props o) <=? n)%N; [by simplify_eq|].
    destruct (forallb _ _); by simplify_eq.
Qed.

Lemma obj_assign_kind (o o' : object) (k : key) (x : protoval) :
  obj_assign o k x = Some (Ok o') → o_kind o' = o_kind o.
Proof.
  unfold obj_assign. intros H.
  assert (∀ p, store_prop o k p = Some (Ok o') → o_kind o' = o_kind o) as Hst.
  { intros p Hp. by apply store_prop_meta in Hp as [? _]. }
  assert (set_prototype o x = Some (Ok o') → o_kind o' = o_kind o) as Hsp.
  { intros Hp. by apply set_prototype_props in Hp as [? _]. }
  destruct (own_prop (o_props o) k) as [[x0 [] e c|g [[sid|]|] e c]|];
    try destruct x as [y|ps parent]; simplify_eq; eauto.
  all: destruct (chain_prop (o_proto o) k) as [[x1 [] e c|g [[sid|]|] e c]|];
    simplify_eq; eauto.
Qed.

Lemma obj_set_kind (o o' : object) (k : key) (x : value) :
  obj_set o k x = Some (Ok o') → o_kind o' = o_kind o.
Proof. apply obj_assign_kind. Qed.

Lemma obj_define_kind (o o' : object) (k : key) (d : descriptor) :
  obj_define o k d = Some (Ok o') → o_kind o' = o_kind o.
Proof.
  unfold obj_define. intros H.
  destruct (is_accessor_desc d && is_data_desc d); [done|].
  destruct (own_prop (o_props o) k) as [cur|].
  - destruct (compatible cur d); [|done]. by apply store_prop_meta in H as [? _].
  - by apply store_prop_meta in H as [? _].
Qed.

Lemma obj_delete_kind (o o' : object) (k : key) :
  obj_delete o k = Ok o' → o_kind o' = o_kind o.
Proof.
  unfold obj_delete. destruct (own_prop (o_props o) k) as [p|]; [|by intros [= <-]].
  destruct (prop_configurable p); [|done]. by intros [= <-].
Qed.

Lemma length_writable_put (k : key) (p : property) (ps : props) :
  k ≠ KStr "length" → length_writable (put_prop k p ps) = length_writable ps.
Proof. intros Hk. unfold length_writable. by rewrite own_prop_put_ne. Qed.

Lemma own_prop_put_eq (k : key) (p : property) (ps : props) :
  own_prop (put_prop k p ps) k = Some p.
Proof.
  unfold put_prop. destruct (own_prop ps k) as [q|] eqn:Hq.
  - induction ps as [|[k0 p0] ps IH]; simpl in *; [done|].
    destruct (decide (k0 = k)) as [->|Hne]; simpl.
    + by rewrite decide_True.
    + rewrite decide_False by done. by apply IH.
  - induction ps as [|[k0 p0] ps IH]; simpl in *.
    + by rewrite decide_True.
    + destruct (decide (k0 = k)) as [->|Hne]; [done|].
      destruct (key_before k k0); simpl.
      * by rewrite decide_True.
      * rewrite decide_False by done. by apply IH.
Qed.

(** Outside the [length] of an array, a property is stored where the
    array can still grow, and nothing else changes. *)
Lemma store_prop_accepted (o : object) (k : key) (p : property) :
  (o_kind o = KArray → k ≠ KStr "length" ∧ length_writable (o_props o) = true) →
  ∃ o', store_prop o k p = Some (Ok o') ∧
        o_kind o' = o_kind o ∧ o_proto o' = o_proto o ∧
        own_prop (o_props o') k = Some p ∧
        (∀ k', k' ≠ k → (o_kind o = KArray → k' ≠ KStr "length") →
               own_prop (o_props o') k' = own_prop (o_props o) k') ∧
        (o_kind o = KArray → length_writable (o_props o') = true).
Proof.
  intros Ha. unfold store_prop.
  destruct (o_kind o) eqn:Hk.
  - eexists. split; [reflexivity|]. simpl.
    split; [done|]. split; [done|]. split; [apply own_prop_put_eq|].
    split; [|done]. intros k' Hne _. by apply own_prop_put_ne.
  - destruct (Ha eq_refl) as [Hlen Hw].
    assert (∃ o', Some (Ok (Obj KArray (put_prop k p (o_props o)) (o_proto o)))
                  = Some (Ok o') ∧
                  o_kind o' = KArray ∧ o_proto o' = o_proto o ∧
                  own_prop (o_props o') k = Some p ∧
                  (∀ k', k' ≠ k → (KArray = KArray → k' ≠ KStr "length") →
                         own_prop (o_props o') k' = own_prop (o_props o) k') ∧
                  (KArray = KArray → length_writable (o_props o') = true)) as Hput.
    { eexists. split; [reflexivity|]. simpl.
      split; [done|]. split; [done|]. split; [apply own_prop_put_eq|].
      split; [intros k' Hne _; by apply own_prop_put_ne|].
      intros _. by rewrite length_writable_put. }
    destruct k as [i|s|n]; [| |done].
    + destruct (i <? own_length (o_props o))%N; [done|].
      rewrite Hw. eexists. split; [reflexivity|]. simpl.
      split; [done|]. split; [done|].
      split; [rewrite own_prop_put_ne by done; apply own_prop_put_eq|].
      split.
      * intros k' Hne Hl. rewrite own_prop_put_ne by by apply Hl.
        by apply own_prop_put_ne.
      * intros _. unfold length_writable. by rewrite own_prop_put_eq.
    + rewrite decide_False by congruence. done.
Qed.

Lemma own_prop_app (ps qs : props) (k : key) :
  own_prop (ps ++ qs) k
  = match own_prop ps k with Some p => Some p | None => own_prop qs k end.
Proof.
  induction ps as [|[k0 p0] ps IH]; simpl; [done|].
  by destruct (decide (k0 = k)).
Qed.

Lemma own_prop_elements_idx (c : object) (idx : list nat) (es : props) (k : key)
      (q : property) :
  mapM (λ i, (λ x, (KIdx (N.of_nat i), Data x true true true))
               <$> obj_get c (KIdx (N.of_nat i))) idx = Some es →
  own_prop es k = Some q →
  (∃ i, k = KIdx i) ∧ ∃ x, q = Data x true true true.
Proof.
  intros Hm. apply mapM_Some_1 in Hm.
  induction Hm as [|i [k1 p1] idx es H0 _ IH]; [done|].
  destruct (obj_get c (KIdx (N.of_nat i))) as [x|]; simpl in *; simplify_eq.
  destruct (decide (KIdx (N.of_nat i) = k)) as [<-|]; [|by apply IH].
  intros [= <-]. split; by eexists.
Qed.

Lemma spread_tame (c d : object) :
  match o_kind c with
  | KArray => spread_array c
  | KObject => spread_object c
  end = Some d →
  tame d ∧ (o_kind d = KArray → length_writable (o_props d) = true).
Proof.
  unfold spread_array, spread_object. destruct (o_kind c); intros H.
  - apply bind_Some in H as (ps & Hm & H). simplify_eq. split; [|done].
    intros k p. simpl.
    rewrite (own_prop_mapM (λ p, prop_get p (o_proto c)) _ _ k Hm).
    destruct (own_prop _ k ≫= _) as [x|]; [|done]. simpl. intros [= <-].
    right. by exists x.
  - apply bind_Some in H as (n & Hn & H). apply bind_Some in H as (es & Hm & H).
    simplify_eq. simpl. split.
    + intros k p. simpl. rewrite own_prop_app. simpl.
      destruct (own_prop es k) as [q|] eqn:Hq.
      * intros [= <-]. right.
        by destruct (own_prop_elements_idx _ _ _ _ _ Hm Hq) as [_ ?].
      * destruct (decide (KStr "length" = k)) as [<-|]; [|done]. intros _. by left.
    + intros _. unfold length_writable. rewrite own_prop_app.
      destruct (own_prop es (KStr "length")) as [q|] eqn:Hq; [|by simpl].
      by destruct (own_prop_elements_idx _ _ _ _ _ Hm Hq) as [[i ?] _].
Qed.

Lemma duplicate_tame (v : variant) (w : ProxyWorker) (c d : object) :
  duplicate v w c = Some (Ok d) →
  tame d ∧ (o_kind d = KArray → length_writable (o_props d) = true).
Proof.
  unfold duplicate. intros H.
  destruct (match o_kind c with
            | KArray => spread_array c
            | KObject => spread_object c
            end) as [d0|] eqn:Hs; [|done].
  destruct (spread_tame _ _ Hs) as [Ht Hl].
  destruct v; [|by simplify_eq].
  unfold set_dunder_proto, obj_assign in H.
  assert (set_prototype d0 (proto w) = Some (Ok d) →
          tame d ∧ (o_kind d = KArray → length_writable (o_props d) = true)) as Hsp.
  { intros Hp. apply set_prototype_props in Hp as [Hk Hp].
    split; [|by rewrite Hk, Hp]. intros k p. rewrite Hk, Hp. apply Ht. }
  assert (∀ x w0 e0 c0,
            (w0 = true ∧ e0 = true ∧ c0 = true) →
            store_prop d0 (KStr "__proto__") (Data x w0 e0 c0) = Some (Ok d) →
            tame d ∧ (o_kind d = KArray → length_writable (o_props d) = true)) as Hst.
  { intros x w0 e0 c0 (-> & -> & ->) Hp.
    destruct (store_prop_accepted d0 (KStr "__proto__") (Data x true true true))
      as (o' & Ho' & Hk & _ & Hsame & Hother & Hlw).
    { intros Ha. split; [done|]. by apply Hl. }
    rewrite Hp in Ho'. simplify_eq. split; [|by rewrite Hk].
    intros k p Hkp. rewrite Hk.
    destruct (decide (k = KStr "__proto__")) as [->|Hne].
    - rewrite Hsame in Hkp. simplify_eq. right. by eexists.
    - destruct (decide (o_kind d0 = KArray ∧ k = KStr "length")) as [?|Hn]; [by left|].
      rewrite Hother in Hkp; [|done|tauto].
      destruct (Ht k p Hkp) as [?|?]; tauto. }
  destruct (own_prop (o_props d0) (KStr "__proto__")) as [p0|] eqn:Hown.
  - destruct (Ht _ _ Hown) as [[_ ?]|[x0 ->]]; [done|].
    destruct (proto w) as [y|]; [|done]. by eapply Hst.
  - destruct (chain_prop (o_proto d0) (KStr "__proto__")) as [[x0 [] e c0|g [[sid|]|] e c0]|];
      simplify_eq; eauto;
      try (destruct (proto w) as [y|]; [|done]; by eapply Hst);
      try (by split).
Qed.

Lemma spread_proto (c d : object) :
  match o_kind c with
  | KArray => spread_array c
  | KObject => spread_object c
  end = Some d →
  o_proto d = Object_prototype ∨ o_proto d = Array_prototype.
Proof.
  unfold spread_array, spread_object. destruct (o_kind c); intros H.
  - apply bind_Some in H as (ps & Hm & H). simplify_eq. by left.
  - apply bind_Some in H as (n & Hn & H). apply bind_Some in H as (es & Hm & H).
    simplify_eq. by right.
Qed.

(** The duplicate is made without a throw: the copy owns data properties
    that are writable, and inherits the standard accessor of
    [__proto__]. *)
Lemma duplicate_no_throw (v : variant) (w : ProxyWorker) (c : object) (e : error) :
  duplicate v w c ≠ Some (Throw e).
Proof.
  unfold duplicate.
  destruct (match o_kind c with
            | KArray => spread_array c
            | KObject => spread_object c
            end) as [d0|] eqn:Hs; [|done].
  destruct v; [|done].
  destruct (spread_tame _ _ Hs) as [Ht Hl].
  unfold set_dunder_proto, obj_assign.
  destruct (own_prop (o_props d0) (KStr "__proto__")) as [p0|] eqn:Hown.
  - destruct (Ht _ _ Hown) as [[_ ?]|[x0 ->]]; [done|].
    destruct (proto w) as [y|]; [|done].
    destruct (store_prop_accepted d0 (KStr "__proto__") (Data y true true true))
      as (o' & -> & _); [|done].
    intros Ha. split; [done|]. by apply Hl.
  - destruct (spread_proto _ _ Hs) as [-> | ->]; simpl;
      unfold set_prototype; by destruct (proto w) as [[]|].
Qed.

Lemma obj_set_accepted (d o : object) (k : key) (keys : list key) (x : value) :
  tame d → agrees d o (k :: keys) → k ∉ keys →
  (o_kind d = KArray → KStr "length" ∉ k :: keys) →
  assignable d k = true →
  ∃ o', obj_set o k x = Some (Ok o') ∧ agrees d o' keys.
Proof.
  intros Ht (Hk & Hp & Hown & Hlw) Hnin Hlen Ha.
  assert (∀ p, ∃ o', store_prop o k p = Some (Ok o') ∧ agrees d o' keys) as Hst.
  { intros p. destruct (store_prop_accepted o k p) as (o' & Ho' & Hk' & Hp' & _ & Hother & Hlw').
    { rewrite Hk. intros Harr. split; [|by apply Hlw].
      intros ->. apply (Hlen Harr). by left. }
    exists o'. split; [done|]. split; [congruence|]. split; [congruence|]. split.
    - intros k' Hin. rewrite Hother; [apply Hown; by right|by intros ->|].
      rewrite Hk. intros Harr ->. apply (Hlen Harr). by right.
    - rewrite <- Hk. exact Hlw'. }
  assert (agrees d o keys) as Hsame.
  { split; [done|]. split; [done|]. split; [|done]. intros k' Hin. apply Hown. by right. }
  unfold assignable in Ha. unfold obj_set, obj_assign.
  rewrite Hown by by left. rewrite Hp.
  destruct (own_prop (o_props d) k) as [[x0 [] e c|g [[sid|]|] e c]|]; try done; eauto.
  destruct (chain_prop (o_proto d) k) as [[x0 [] e c|g [[sid|]|] e c]|]; try done; eauto.
Qed.

Lemma obj_define_accepted (d o : object) (k : key) (keys : list key) (desc : descriptor) :
  tame d → agrees d o (k :: keys) → k ∉ keys →
  (o_kind d = KArray → KStr "length" ∉ k :: keys) →
  is_accessor_desc desc && is_data_desc desc = false →
  ∃ o', obj_define o k desc = Some (Ok o') ∧ agrees d o' keys.
Proof.
  intros Ht (Hk & Hp & Hown & Hlw) Hnin Hlen Hv.
  assert (∀ p, ∃ o', store_prop o k p = Some (Ok o') ∧ agrees d o' keys) as Hst.
  { intros p. destruct (store_prop_accepted o k p) as (o' & Ho' & Hk' & Hp' & _ & Hother & Hlw').
    { rewrite Hk. intros Harr. split; [|by apply Hlw].
      intros ->. apply (Hlen Harr). by left. }
    exists o'. split; [done|]. split; [congruence|]. split; [congruence|]. split.
    - intros k' Hin. rewrite Hother; [apply Hown; by right|by intros ->|].
      rewrite Hk. intros Harr ->. apply (Hlen Harr). by right.
    - rewrite <- Hk. exact Hlw'. }
  unfold obj_define. rewrite Hv, Hown by by left.
  destruct (own_prop (o_props d) k) as [cur|] eqn:Hcur; [|done].
  destruct (Ht _ _ Hcur) as [[Harr ->]|[x ->]].
  - exfalso. apply (Hlen Harr). by left.
  - simpl. done.
Qed.

Lemma obj_delete_accepted (d o : object) (k : key) (keys : list key) :
  tame d → agrees d o (k :: keys) → k ∉ keys →
  (o_kind d = KArray → KStr "length" ∉ k :: keys) →
  ∃ o', obj_delete o k = Ok o' ∧ agrees d o' keys.
Proof.
  intros Ht (Hk & Hp & Hown & Hlw) Hnin Hlen.
  unfold obj_delete. rewrite Hown by by left.
  destruct (own_prop (o_props d) k) as [cur|] eqn:Hcur.
  - destruct (Ht _ _ Hcur) as [[Harr ->]|[x ->]].
    + exfalso. apply (Hlen Harr). by left.
    + simpl. eexists. split; [reflexivity|]. split; [done|]. split; [done|]. simpl. split.
      * intros k' Hin. rewrite own_prop_remove_ne by by intros ->. apply Hown. by right.
      * intros Harr. unfold length_writable. rewrite own_prop_remove_ne.
        -- by apply Hlw.
        -- intros <-. apply (Hlen Harr). by left.
  - exists o. split; [done|]. split; [done|]. split; [done|]. split; [|done].
    intros k' Hin. apply Hown. by right.
Qed.

Lemma getValue_forEach_accepted
      (rec : value → heap → option (res value * heap)) (c d : object) (h0 : heap) :
  (∀ x h r h', rec x h = Some (r, h') → grows h h') →
  tame d →
  ∀ m,
    NoDup m.*1 →
    (o_kind d = KArray → KStr "length" ∉ m.*1) →
    Forall (λ kr, ∃ e, last kr.2 = Some e ∧ accepts d kr.1 e = true) m →
    (∀ x h, x ∈ buffered m → grows h0 h → ∃ r h', rec x h = Some (Ok r, h')) →
    ∀ result mutated h,
      agrees d result m.*1 → grows h0 h →
      ∃ ro mu h', getValue_forEach rec c m result mutated h = Some (Ok (ro, mu), h').
Proof.
  intros Hg Ht m. induction m as [|[k record] m IH];
    intros Hnd Hlen Hacc Hrec result mutated h Hag Hh.
  - by eexists _, _, _.
  - apply NoDup_cons in Hnd as [Hnin Hnd].
    apply Forall_cons in Hacc as [(e & Hl & He) Hacc]. simpl in *.
    assert (∀ x h, x ∈ buffered m → grows h0 h → ∃ r h', rec x h = Some (Ok r, h')) as Hrec'.
    { intros x h1 Hin. apply Hrec. unfold buffered in *. simpl.
      destruct (last record) as [[[] [dd|]]|]; simpl; try done; by right. }
    assert (∃ ro mu h1, getValue_record rec c k record result mutated h
                        = Some (Ok (ro, mu), h1) ∧ agrees d ro m.*1 ∧ grows h h1)
      as (ro & mu & h1 & -> & Hag1 & Hg1).
    { unfold getValue_record. rewrite Hl. destruct e as [[] [desc|]]; try done.
      1,2: destruct (Hrec (desc_value desc) h) as (nv & h1 & Hr);
             [unfold buffered; simpl; rewrite Hl; simpl; by left|done|];
           rewrite Hr;
           destruct (obj_set_accepted d result k m.*1 nv Ht Hag Hnin Hlen He)
             as (o' & -> & Hag');
           eexists _, _, _; split; [reflexivity|]; split; [done|]; by eapply Hg.
      - destruct (obj_delete_accepted d result k m.*1 Ht Hag Hnin Hlen) as (o' & -> & Hag').
        eexists _, _, _. split; [reflexivity|]. split; [done|]. apply grows_refl.
      - destruct (obj_delete_accepted d result k m.*1 Ht Hag Hnin Hlen) as (o' & -> & Hag').
        eexists _, _, _. split; [reflexivity|]. split; [done|]. apply grows_refl.
      - simpl in He. apply negb_true_iff in He.
        destruct (obj_define_accepted d result k m.*1 desc Ht Hag Hnin Hlen He)
          as (o' & -> & Hag').
        eexists _, _, _. split; [reflexivity|]. split; [done|]. apply grows_refl. }
    apply IH; try done.
    + intros Harr Hin. apply (Hlen Harr). by right.
    + by eapply grows_trans.
Qed.

(** In a replayable store, enough fuel makes [getValue] return. *)
Lemma getValue_accepted (v : variant) (rk : loc → nat) (fuel : nat) :
  ∀ x h,
    replayable v rk h →
    (∀ f, x = VRef f → is_Some (worker_at h f) → rk f < fuel) →
    ∃ r h', getValue v fuel x h = Some (Ok r, h').
Proof.
  induction fuel as [|n IH]; intros x h Hr Hx.
  - rewrite getValue_not_mutable; [by eexists _, _|].
    destruct x; try done. simpl. destruct (worker_at h l) eqn:Hw; [|done].
    specialize (Hx l eq_refl (ex_intro _ _ Hw)). lia.
  - rewrite getValue_S. destruct (MUTABLE_of h x) as [w|] eqn:Hm; [|by eexists _, _].
    destruct x; try done. simpl in Hm. rename l into f.
    destruct (Hr f w Hm) as (c & d & Hc & Hd & Hnd & Hlen & Hacc & Hb). rewrite Hc, Hd.
    destruct (records w) as [|kr m] eqn:Hrecs; [by eexists _, _|].
    destruct (duplicate_tame _ _ _ _ Hd) as [Ht Hlw].
    assert (grows h (h ++ [Plain d])) as Hg0.
    { eexists. split; [done|]. by repeat constructor. }
    destruct (getValue_forEach_accepted (getValue v n) c d (h ++ [Plain d])
                (getValue_grows v n) Ht (kr :: m))
      with (result := d) (mutated := false) (h := h ++ [Plain d])
      as (ro & mu & h1 & ->).
    + exact Hnd.
    + rewrite (o_kind_duplicate _ _ _ _ Hd). exact Hlen.
    + exact Hacc.
    + intros y h1 Hin Hg1. apply IH.
      * eapply replayable_grows; [exact Hr|]. by eapply grows_trans.
      * intros g -> [w' Hw'].
        assert (rk g < rk f); [|specialize (Hx f eq_refl (ex_intro _ _ Hm)); lia].
        apply Hb; [done|]. exists w'. eapply grows_worker; [|exact Hw'].
        by eapply grows_trans.
    + by repeat split.
    + apply grows_refl.
    + by eexists _, _.
Qed.

(* ================================================================== *)
(** ** The reference the materialiser returns *)


(** The sample store after [f = wrap(x); f.a]: the replay is accepted,
    with rank 1 for [f] and 0 for the facade of [x.a]. *)
Lemma h_read_replayable (v : variant) :
  replayable v (λ f, if decide (f = 3) then 1 else 0) (Sample.h_read v).
Proof.
  intros f w Hw.
  destruct f as [|[|[|[|[|f]]]]]; destruct v; vm_compute in Hw; simplify_eq.
  all: eexists _, _; split; [reflexivity|]; split; [vm_compute; reflexivity|].
  all: split; [apply (bool_decide_unpack _); vm_compute; exact I|].
  all: split; [discriminate|].
  all: split; [repeat constructor; eexists; split; reflexivity|].
  all: intros g Hg _; simpl in Hg.
  all: first [by apply elem_of_nil in Hg
             |apply list_elem_of_singleton in Hg; vm_compute in Hg; simplify_eq;
              vm_compute; lia].
Qed.


(** C2 as worded does not hold. For [x = Object.create({z: 5})] with a
    non-writable [z], [f = wrap(x)] and [f.z = 5], the log holds one
    Write whose materialised value is identical to [x.z], and
    [unwrap(f)] in as-mutable.ts throws a TypeError instead of returning
    [x]: the copy inherits the non-writable [z]. For [x = [1, 2, 3]],
    [f = wrap(x)] and [f.length = -1], the logged value differs from
    [x.length], and [unwrap(f)] throws a RangeError in both files instead
    of returning a new container. *)
Lemma getValue_unchanged_log_throws :
  let x := Obj KObject [] (AObj [(KStr "z", Data (VNum 5) false true true)] Object_prototype) in
  let h := run AsMutable [Plain x] [Wrap (VRef 0); WriteProperty 1 (KStr "z") (VNum 5)] in
  (∃ w d, worker_at h 1 = Some w ∧ client w = 0 ∧ plain_at h 0 = Some x ∧
          records w ≠ [] ∧
          duplicate AsMutable w x = Some (Ok d) ∧
          unchanged_log (getValue AsMutable 1) x (records w) (h ++ [Plain d])) ∧
  (fst <$> getValue AsMutable 2 (VRef 1) h) = Some (Throw TypeError) ∧
  ∀ v, (fst <$> getValue v 2 (VRef 1)
                  (run v Sample.h_arr
                       [Wrap (VRef 0); WriteProperty 1 (KStr "length") (VNum (-1))]))
       = Some (Throw RangeError).
Proof.
  split; [|split; [vm_compute; reflexivity|intros []; vm_compute; reflexivity]].
  eexists _, _. split; [reflexivity|]. split; [reflexivity|]. split; [reflexivity|].
  split; [discriminate|]. split; [vm_compute; reflexivity|].
  eexists _, _, _, _. split; [reflexivity|]. split; [by right|].
  split; [reflexivity|]. split; [reflexivity|exact I].
Qed.

(** In the replayable sample store [unwrap(f)] returns [x]: the log of
    [f] is not empty and unchanged. *)
Example h_read_unwrap (v : variant) :
  (fst <$> getValue v 2 (VRef 3) (Sample.h_read v)) = Some (Ok (VRef 2)).
Proof. by destruct v. Qed.

(* ================================================================== *)
(** ** The testable properties of the specification on the samples *)

(** Pass-through. A string, a number, a boolean, [undefined], [null] or
    a function is wrapped to itself and unwrapped to itself, with any
    fuel, and nothing is allocated. *)
Lemma pass_through (v : variant) (fuel : nat) (p : value) (h : heap) :
  isDuplicable p = false →
  asMutable v p h = (Ok p, h) ∧ getValue v fuel p h = Some (Ok p, h).
Proof.
  intros Hp. split.
  - unfold asMutable. by rewrite Hp.
  - apply getValue_not_mutable. by destruct p.
Qed.

(** X20: no-op round trip. For a plain container [x] of the store,
    [wrap(x)] allocates one facade and [unwrap(wrap(x))] is the reference
    of [x], with nothing more allocated. *)
Theorem round_trip (v : variant) (fuel : nat) (h : heap) (l : loc) (c : object) :
  plain_at h l = Some c →
  ∃ f h1, asMutable v (VRef l) h = (Ok (VRef f), h1) ∧
          getValue v (S fuel) (VRef f) h1 = Some (Ok (VRef l), h1).
Proof.
  intros Hc. eexists _, _. split; [by eapply asMutable_plain|].
  eapply (getValue_empty_log v fuel (length h) _ (new_ProxyWorker v h l) c).
  - unfold worker_at. by rewrite lookup_app_r, Nat.sub_diag by lia.
  - eapply plain_at_prefix; [by apply prefix_app_r|done].
  - done.
Qed.

Lemma round_trip_witness :
  plain_at Sample.h_arr 0 = Some (Sample.arr [VNum 1; VNum 2; VNum 3]) ∧
  ∃ f h1, asMutable AsMutable (VRef 0) Sample.h_arr = (Ok (VRef f), h1) ∧
          getValue AsMutable 1 (VRef f) h1 = Some (Ok (VRef 0), h1).
Proof.
  split; [reflexivity|].
  exact (round_trip AsMutable 0 Sample.h_arr 0 _ eq_refl).
Defined.

(** Write/read coherence: [f = wrap({a: 1}); f.a = 2]; then [f.a] is 2
    and [unwrap(f)] is a new container [{a: 2}]. *)
Example write_read_coherence (v : variant) :
  let h := run v (Sample.wrapped v 0 Sample.h_a1) [WriteProperty 1 (KStr "a") (VNum 2)] in
  (fst <$> Handler.get v 1 (KStr "a") h) = Some (Ok (VNum 2)) ∧
  match getValue v 1 (VRef 1) h with
  | Some (Ok (VRef r), h') =>
      r = 2 ∧ (o_props <$> plain_at h' r) = Some [(KStr "a", Sample.num 2)]
      ∧ plain_at h' 0 = Some Sample.x_a1
  | _ => False
  end.
Proof. destruct v; vm_compute; done. Qed.

(** Sequence mutation: [x = [1, 2, 3]; f = wrap(x); f.push(4)], that is a
    read of [length], a write of index 3 and a write of [length]; then
    [unwrap(f)] is a new array [[1, 2, 3, 4]]. *)
Example sequence_mutation (v : variant) :
  let h := run v (Sample.wrapped v 0 Sample.h_arr)
               [ReadProperty 1 (KStr "length");
                WriteProperty 1 (KIdx 3) (VNum 4);
                WriteProperty 1 (KStr "length") (VNum 4)] in
  match getValue v 1 (VRef 1) h with
  | Some (Ok (VRef r), h') =>
      r = 2 ∧ plain_at h' r = Some (Sample.arr [VNum 1; VNum 2; VNum 3; VNum 4])
      ∧ plain_at h' 0 = Some (Sample.arr [VNum 1; VNum 2; VNum 3])
  | _ => False
  end.
Proof. destruct v; vm_compute; done. Qed.

(** Non-configurable protection: a non-configurable own key of the
    origin rejects delete and redefine through the facade, and its value
    and descriptor stay what they were. *)
Example non_configurable_protection (v : variant) :
  let h := Sample.wrapped v 0 Sample.h_fixed in
  Handler.deleteProperty 1 (KStr "a") h = Some (Ok false, h) ∧
  Handler.defineProperty 1 (KStr "a") (Sample.full (VNum 2)) h = Some (Ok false, h) ∧
  (fst <$> Handler.get v 1 (KStr "a") h) = Some (Ok (VNum 1)) ∧
  (fst <$> Handler.getOwnPropertyDescriptor 1 (KStr "a") h)
  = Some (Ok (Some (Desc (Some (VNum 1)) (Some true) (Some true) (Some false) None None))).
Proof. destruct v; vm_compute; done. Qed.

(** Delete semantics on [x = {a: 1}]: after [delete f.a] the key is not
    in the facade, and not among its own keys, in both files. *)
Example delete_semantics (v : variant) :
  let h := run v (Sample.wrapped v 0 Sample.h_a1) [DeleteProperty 1 (KStr "a")] in
  (fst <$> Handler.has v 1 (KStr "a") h) = Some (Ok false) ∧
  (fst <$> Handler.ownKeys v 1 h) = Some (Ok []).
Proof. destruct v; vm_compute; done. Qed.

(* ================================================================== *)
(** ** The log stays well formed *)

Lemma workers_wf_insert (h : heap) (f : loc) (w : ProxyWorker) :
  workers_wf h → records_wf (records w) → workers_wf (<[f := Proxy w]> h).
Proof.
  intros Hh Hw g u. unfold worker_at. destruct (decide (g = f)) as [->|Hne].
  - destruct (decide (f < length h)) as [Hlt|Hge].
    + rewrite list_lookup_insert_eq by done. by intros [= <-].
    + rewrite list_insert_ge by lia. apply Hh.
  - rewrite list_lookup_insert_ne by done. apply Hh.
Qed.

Lemma workers_wf_grows (h h' : heap) : workers_wf h → grows h h' → workers_wf h'.
Proof. intros Hh Hg f w Hw. eapply Hh. by eapply grows_worker. Qed.

Lemma workers_wf_asMutable (v : variant) (x : value) (h : heap) :
  workers_wf h → workers_wf (asMutable v x h).2.
Proof.
  intros Hh. unfold asMutable.
  destruct (negb (isDuplicable x)); [done|].
  destruct (isMutable h x); [done|].
  destruct x; simpl; try done.
  intros f w. unfold worker_at. destruct (decide (f < length h)) as [Hlt|Hge].
  - rewrite lookup_app_l by done. apply Hh.
  - rewrite lookup_app_r by lia.
    destruct (f - length h) as [|n]; simpl; [|done].
    intros [= <-]. apply records_wf_nil.
Qed.

(** Every call keeps the logs of all facades well formed: one record per
    key, no record empty. *)
Lemma step_workers_wf (v : variant) (h : heap) (a : action) :
  workers_wf h → workers_wf (step v h a).
Proof.
  intros Hh.
  destruct a as [f k|f k x|f k|f k d|f k|f|f k|f|f a|f|x|fuel x]; simpl.
  - unfold Handler.get. destruct (Handler.deref h f) as [[w c]|] eqn:Hd; [|done].
    destruct (deref_worker _ _ _ _ Hd) as [Hf _].
    assert (records_wf (records w)) as Hw by (apply (Hh f); unfold worker_at; by rewrite Hf).
    unfold Worker.get.
    destruct (Worker.query w k) as [[o [d|]]|].
    1,2: destruct v; simpl; by apply workers_wf_insert.
    destruct (Reflect_getOwnPropertyDescriptor c k) as [desc|].
    + destruct (obj_get c k) as [x|]; [|done].
      pose proof (workers_wf_asMutable v x h Hh) as Ha.
      destruct (asMutable v x h) as [[y|e] h1]; simpl in Ha;
        [|simpl; by apply workers_wf_insert].
      destruct (isMutable h1 y && desc_has_value desc); simpl;
        apply workers_wf_insert; try done. by apply records_wf_addOp.
    + destruct v.
      * destruct (Worker.get_proto (proto w) k); simpl; [|done].
        by apply workers_wf_insert.
      * destruct (obj_get c k); simpl; [|done]. by apply workers_wf_insert.
  - unfold Handler.set. destruct (Handler.deref h f) as [[w c]|] eqn:Hd; [|done].
    destruct (deref_worker _ _ _ _ Hd) as [Hf _].
    assert (records_wf (records w)) as Hw by (apply (Hh f); unfold worker_at; by rewrite Hf).
    unfold Worker.set.
    pose proof (workers_wf_asMutable v x h Hh) as Ha.
    destruct (asMutable v x h) as [[y|e] h1]; simpl in *; [|done].
    apply workers_wf_insert; [done|]. by apply records_wf_addOp.
  - unfold Handler.deleteProperty. destruct (Handler.deref h f) as [[w c]|] eqn:Hd; [|done].
    destruct (deref_worker _ _ _ _ Hd) as [Hf _].
    assert (records_wf (records w)) as Hw by (apply (Hh f); unfold worker_at; by rewrite Hf).
    unfold Worker.del. destruct (Worker.getOwnPropertyDescriptor w c k) as [d|]; simpl;
      [|by apply workers_wf_insert].
    destruct (desc_configurable d); simpl; apply workers_wf_insert; try done.
    by apply records_wf_addOp.
  - unfold Handler.defineProperty. destruct (Handler.deref h f) as [[w c]|] eqn:Hd; [|done].
    destruct (deref_worker _ _ _ _ Hd) as [Hf _].
    assert (records_wf (records w)) as Hw by (apply (Hh f); unfold worker_at; by rewrite Hf).
    destruct (Worker.getOwnPropertyDescriptor w c k) as [old|]; [|done].
    destruct (negb (desc_configurable old)); simpl; [done|].
    apply workers_wf_insert; [done|]. by apply records_wf_addOp.
  - unfold Handler.has. destruct (Handler.deref h f) as [[w c]|]; [|done].
    by destruct (Worker.has v w c k).
  - unfold Handler.ownKeys. by destruct (Handler.deref h f) as [[w c]|].
  - unfold Handler.getOwnPropertyDescriptor. by destruct (Handler.deref h f) as [[w c]|].
  - unfold Handler.getPrototypeOf. by destruct (Handler.deref h f) as [[w c]|].
  - unfold Handler.setPrototypeOf. destruct (Handler.deref h f) as [[w c]|] eqn:Hd; [|done].
    destruct (deref_worker _ _ _ _ Hd) as [Hf _]. simpl.
    apply workers_wf_insert; [done|]. simpl. apply (Hh f). unfold worker_at. by rewrite Hf.
  - done.
  - by apply workers_wf_asMutable.
  - destruct (getValue v fuel x h) as [[r h1]|] eqn:Hg; simpl; [|done].
    eapply workers_wf_grows; [done|]. by eapply getValue_grows.
Qed.

Lemma run_workers_wf (v : variant) (script : list action) :
  ∀ h, workers_wf h → workers_wf (run v h script).
Proof.
  unfold run. induction script as [|a script IH]; intros h Hh; simpl; [done|].
  by apply IH, step_workers_wf.
Qed.

(** X21: the own keys as-mutable.ts answers. Whatever the session on a
    store that started with well-formed logs (for one, a store of plain
    containers), the own keys of a facade on an origin without duplicate
    keys are: the origin's own keys in their order without those whose
    last logged entry is a Delete, followed by the keys that only the log
    has, in log order, again without those whose last entry is a Delete;
    no key is answered twice. *)
Theorem ownKeys_as_mutable_session (script : list action) (h : heap) (f : loc)
      (w : ProxyWorker) (c : object) :
  workers_wf h →
  Handler.deref (run AsMutable h script) f = Some (w, c) →
  NoDup (Reflect_ownKeys c) →
  Handler.ownKeys AsMutable f (run AsMutable h script)
  = Some (Ok (listOwnKeys_spec w c), run AsMutable h script) ∧
  NoDup (listOwnKeys_spec w c).
Proof.
  intros Hh Hd Hnd. destruct (deref_worker _ _ _ _ Hd) as [Hf _].
  assert (records_wf (records w)) as Hw.
  { apply (run_workers_wf AsMutable script h Hh f). unfold worker_at. by rewrite Hf. }
  destruct (ownKeys_as_mutable w c Hnd Hw) as [Ho Hn]. split; [|done].
  unfold Handler.ownKeys. by rewrite Hd, Ho.
Qed.

(* ================================================================== *)
(** ** Further properties: reads and writes through a facade *)

Lemma deref_fresh (v : variant) (h : heap) (l : loc) (c : object) :
  plain_at h l = Some c →
  Handler.deref (h ++ [Proxy (new_ProxyWorker v h l)]) (length h)
  = Some (new_ProxyWorker v h l, c).
Proof.
  intros Hc. apply deref_intro.
  - by rewrite lookup_app_r, Nat.sub_diag by lia.
  - simpl. unfold plain_at in Hc. destruct (h !! l) as [[c'|]|] eqn:Hl; simplify_eq.
    by apply lookup_app_l_Some.
Qed.

Lemma deref_update (h h1 : heap) (f : loc) (w w' : ProxyWorker) (c : object) :
  Handler.deref h f = Some (w, c) → h `prefix_of` h1 → client w' = client w →
  Handler.deref (<[f := Proxy w']> h1) f = Some (w', c).
Proof.
  intros Hd Hp Hcl. destruct (deref_worker _ _ _ _ Hd) as [Hf Hc].
  apply deref_intro.
  - apply list_lookup_insert_eq. eapply lookup_lt_Some, prefix_lookup_Some; eauto.
  - rewrite Hcl. destruct (decide (f = client w)) as [Heq|Hne]; [congruence|].
    rewrite list_lookup_insert_ne by done. by eapply prefix_lookup_Some.
Qed.

Lemma get_logged (v : variant) (f : loc) (k : key) (h : heap) (w : ProxyWorker)
      (c : object) (o : ops) (d : descriptor) :
  Handler.deref h f = Some (w, c) →
  Worker.query w k = Some (o, Some d) →
  Handler.get v f k h = Some (Ok (desc_value d), h).
Proof.
  intros Hd Hq. destruct (deref_worker _ _ _ _ Hd) as [Hf _].
  unfold Handler.get, Worker.get. rewrite Hd, Hq.
  destruct v; simpl; by rewrite list_insert_id.
Qed.

(** X1: what was written is what is read. A write [f[k] = x] of a symbol
    or a bigint throws a TypeError and records nothing. For any other [x]
    the write is recorded and the facade then answers, for [k]: [has] is
    [true]; the descriptor is the fresh writable, enumerable,
    configurable one around [wrap(x)]; a read yields [wrap(x)], which is
    [x] itself unless [x] is a plain container, and changes nothing in
    the store; this holds whatever the origin and the log held for [k]
    before, in both files. *)
Theorem write_then_read (v : variant) (f : loc) (k : key) (x : value) (h : heap)
        (w : ProxyWorker) (c : object) :
  Handler.deref h f = Some (w, c) →
  match x with
  | VSym _ | VBig _ => Handler.set v f k x h = Some (Throw TypeError, h)
  | _ =>
      ∃ y h0 h1,
        asMutable v x h = (Ok y, h0) ∧
        Handler.set v f k x h = Some (Ok true, h1) ∧
        Handler.has v f k h1 = Some (Ok true, h1) ∧
        Handler.getOwnPropertyDescriptor f k h1
        = Some (Ok (Some (Desc (Some y) (Some true) (Some true) (Some true) None None)),
                h1) ∧
        Handler.get v f k h1 = Some (Ok y, h1) ∧
        (isDuplicable x = false → y = x) ∧
        (isDuplicable x = true → isMutable h1 y = true)
  end.
Proof.
  intros Hd. destruct (deref_worker _ _ _ _ Hd) as [Hf Hc].
  assert ((∃ y h0, asMutable v x h = (Ok y, h0)) →
          ∃ y h0 h1,
            asMutable v x h = (Ok y, h0) ∧
            Handler.set v f k x h = Some (Ok true, h1) ∧
            Handler.has v f k h1 = Some (Ok true, h1) ∧
            Handler.getOwnPropertyDescriptor f k h1
            = Some (Ok (Some (Desc (Some y) (Some true) (Some true) (Some true) None None)),
                    h1) ∧
            Handler.get v f k h1 = Some (Ok y, h1) ∧
            (isDuplicable x = false → y = x) ∧
            (isDuplicable x = true → isMutable h1 y = true)) as Hmain.
  { intros (y & h' & Ha).
    pose proof (asMutable_prefix v x h) as Hp. rewrite Ha in Hp. simpl in Hp.
    set (d := Desc (Some y) (Some true) (Some true) (Some true) None None).
    set (w1 := Worker.addOp w k (SET, Some d)).
    assert (Handler.deref (<[f := Proxy w1]> h') f = Some (w1, c)) as Hd1
        by by eapply deref_update.
    assert (Worker.query w1 k = Some (SET, Some d)) as Hq by apply query_addOp_eq.
    exists y, h', (<[f := Proxy w1]> h'). split; [done|].
    split. { unfold Handler.set, Worker.set. by rewrite Hd, Ha. }
    split. { unfold Handler.has, Worker.has. rewrite Hd1, Hq. by destruct v. }
    split. { unfold Handler.getOwnPropertyDescriptor, Worker.getOwnPropertyDescriptor.
             by rewrite Hd1, Hq. }
    split. { by rewrite (get_logged v _ _ _ _ _ _ _ Hd1 Hq). }
    split.
    { intros Hx. unfold asMutable in Ha. rewrite Hx in Ha. simpl in Ha. by simplify_eq. }
    intros Hx. unfold asMutable in Ha. rewrite Hx in Ha. simpl in Ha.
    assert (∀ z, isMutable h' z = true → isMutable (<[f := Proxy w1]> h') z = true)
      as Hkeep.
    { intros z. unfold isMutable, MUTABLE_of, worker_at. destruct z; try done.
      destruct (decide (l = f)) as [->|Hne].
      - destruct (h' !! f) eqn:E; [|done].
        rewrite list_lookup_insert_eq; [done|]. by eapply lookup_lt_Some.
      - by rewrite list_lookup_insert_ne. }
    apply Hkeep. destruct (isMutable h x) eqn:Hm; simplify_eq; [done|].
    destruct x; simplify_eq. unfold isMutable, MUTABLE_of, worker_at.
    by rewrite lookup_app_r, Nat.sub_diag by lia. }
  destruct x; try (apply Hmain; by eexists _, _);
    try (unfold Handler.set, Worker.set; by rewrite Hd).
  apply Hmain. unfold asMutable. simpl. destruct (isMutable h (VRef l)); by eexists _, _.
Qed.

Lemma write_then_read_witness :
  Handler.deref (Sample.wrapped ImMutable 2 Sample.h_nested) 3
  = Some (new_ProxyWorker ImMutable Sample.h_nested 2,
          Sample.obj [(KStr "a", Sample.ref 0); (KStr "b", Sample.ref 1)]) ∧
  ∃ h1,
    Handler.set ImMutable 3 (KStr "a") (VRef 1) (Sample.wrapped ImMutable 2 Sample.h_nested)
    = Some (Ok true, h1) ∧
    Handler.get ImMutable 3 (KStr "a") h1 = Some (Ok (VRef 4), h1) ∧
    isMutable h1 (VRef 4) = true.
Proof.
  split; [reflexivity|].
  destruct (write_then_read ImMutable 3 (KStr "a") (VRef 1)
              (Sample.wrapped ImMutable 2 Sample.h_nested) _ _ eq_refl)
    as (y & h0 & h1 & Ha & Hs & _ & _ & Hg & _ & Hm).
  assert (y = VRef 4) as -> by (vm_compute in Ha; congruence).
  exists h1. split; [exact Hs|]. split; [exact Hg|]. exact (Hm eq_refl).
Defined.

(** X2: a read caches the facade of a nested container. For an unlogged
    own data key [k] of the origin that holds the plain container at
    [l], the first read of [f.k] allocates one facade on [l] and logs it
    as a Read whose descriptor is the origin's with the facade as value;
    every later read of [f.k] yields that same facade and changes
    nothing. *)
Theorem read_caches_nested_facade (v : variant) (f : loc) (k : key) (h : heap)
        (w : ProxyWorker) (c o : object) (l : loc) (wr e cf : bool) :
  Handler.deref h f = Some (w, c) →
  Worker.query w k = None →
  own_prop (o_props c) k = Some (Data (VRef l) wr e cf) →
  plain_at h l = Some o →
  ∃ h1,
    Handler.get v f k h = Some (Ok (VRef (length h)), h1) ∧
    h !! length h = None ∧
    worker_at h1 (length h) = Some (new_ProxyWorker v h l) ∧
    Handler.getOwnPropertyDescriptor f k h1
    = Some (Ok (Some (Desc (Some (VRef (length h))) (Some wr) (Some e) (Some cf) None None)),
            h1) ∧
    Handler.get v f k h1 = Some (Ok (VRef (length h)), h1) ∧
    length h1 = S (length h).
Proof.
  intros Hd Hq Hp Ho. destruct (deref_worker _ _ _ _ Hd) as [Hf Hc].
  set (h' := h ++ [Proxy (new_ProxyWorker v h l)]).
  set (d := Desc (Some (VRef (length h))) (Some wr) (Some e) (Some cf) None None).
  set (w1 := Worker.addOp w k (GET, Some d)).
  assert (h `prefix_of` h') as Hpre by by apply prefix_app_r.
  assert (Handler.get v f k h = Some (Ok (VRef (length h)), <[f := Proxy w1]> h')) as Hg.
  { unfold Handler.get, Worker.get. rewrite Hd, Hq.
    unfold Reflect_getOwnPropertyDescriptor, obj_get. rewrite Hp. simpl.
    rewrite (asMutable_plain _ _ _ _ Ho). fold h'.
    assert (isMutable h' (VRef (length h)) = true) as ->; [|done].
    unfold isMutable, MUTABLE_of, worker_at, h'.
    by rewrite lookup_app_r, Nat.sub_diag by lia. }
  assert (Handler.deref (<[f := Proxy w1]> h') f = Some (w1, c)) as Hd1
      by by eapply deref_update.
  assert (Worker.query w1 k = Some (GET, Some d)) as Hq1 by apply query_addOp_eq.
  assert (f < length h) as Hlt by by eapply lookup_lt_Some.
  eexists. split; [exact Hg|]. split; [by apply lookup_ge_None_2|].
  split.
  { unfold worker_at. rewrite list_lookup_insert_ne by lia.
    unfold h'. by rewrite lookup_app_r, Nat.sub_diag by lia. }
  split.
  { unfold Handler.getOwnPropertyDescriptor, Worker.getOwnPropertyDescriptor.
    by rewrite Hd1, Hq1. }
  split; [by rewrite (get_logged v _ _ _ _ _ _ _ Hd1 Hq1)|].
  rewrite length_insert. unfold h'. rewrite length_app. simpl. lia.
Qed.

Lemma read_caches_nested_facade_witness :
  let h := Sample.wrapped AsMutable 2 Sample.h_nested in
  (Handler.deref h 3
   = Some (new_ProxyWorker AsMutable Sample.h_nested 2,
           Sample.obj [(KStr "a", Sample.ref 0); (KStr "b", Sample.ref 1)]) ∧
   Worker.query (new_ProxyWorker AsMutable Sample.h_nested 2) (KStr "b") = None ∧
   plain_at h 1 = Some (Sample.obj [(KStr "v", Sample.num 2)])) ∧
  ∃ h1,
    Handler.get AsMutable 3 (KStr "b") h = Some (Ok (VRef 4), h1) ∧
    Handler.get AsMutable 3 (KStr "b") h1 = Some (Ok (VRef 4), h1).
Proof.
  intros h. split; [repeat split; reflexivity|].
  destruct (read_caches_nested_facade AsMutable 3 (KStr "b") h _ _ _ 1 true true true
              eq_refl eq_refl eq_refl eq_refl)
    as (h1 & Hg & _ & _ & _ & Hg' & _).
  exists h1. split; [exact Hg|exact Hg'].
Defined.



(* ================================================================== *)
(** ** Further properties: delete, define, ancestors *)

(** X4: deleting twice. Where [delete f[k]] records a Delete (the
    effective descriptor exists and is configurable), the facade then has
    no own descriptor for [k], and a second [delete f[k]] answers [true]
    and changes nothing; the first delete changes no other location than
    the worker of [f]. *)
Theorem delete_twice (f : loc) (k : key) (h : heap) (w : ProxyWorker) (c : object)
        (d : descriptor) :
  Handler.deref h f = Some (w, c) →
  Worker.getOwnPropertyDescriptor w c k = Some d →
  desc_configurable d = true →
  ∃ h1,
    Handler.deleteProperty f k h = Some (Ok true, h1) ∧
    Handler.getOwnPropertyDescriptor f k h1 = Some (Ok None, h1) ∧
    Handler.deleteProperty f k h1 = Some (Ok true, h1) ∧
    (∀ l, l ≠ f → h1 !! l = h !! l).
Proof.
  intros Hd Hdesc Hcf. destruct (deref_worker _ _ _ _ Hd) as [Hf Hc].
  set (w1 := Worker.addOp w k (DEL, None)).
  assert (Handler.deref (<[f := Proxy w1]> h) f = Some (w1, c)) as Hd1
      by by eapply deref_update.
  assert (Worker.getOwnPropertyDescriptor w1 c k = None) as Hn.
  { unfold Worker.getOwnPropertyDescriptor, w1. by rewrite query_addOp_eq. }
  exists (<[f := Proxy w1]> h). split.
  { unfold Handler.deleteProperty, Worker.del. by rewrite Hd, Hdesc, Hcf. }
  split. { unfold Handler.getOwnPropertyDescriptor. by rewrite Hd1, Hn. }
  split.
  { unfold Handler.deleteProperty, Worker.del. rewrite Hd1, Hn.
    rewrite list_insert_id; [done|].
    apply list_lookup_insert_eq. by eapply lookup_lt_Some. }
  intros l Hne. by rewrite list_lookup_insert_ne.
Qed.

Lemma delete_twice_witness :
  let h := Sample.wrapped ImMutable 0 Sample.h_a1 in
  (Handler.deref h 1 = Some (new_ProxyWorker ImMutable Sample.h_a1 0, Sample.x_a1) ∧
   Worker.getOwnPropertyDescriptor (new_ProxyWorker ImMutable Sample.h_a1 0) Sample.x_a1
                                   (KStr "a")
   = Some (Sample.full (VNum 1))) ∧
  ∃ h1,
    Handler.deleteProperty 1 (KStr "a") h = Some (Ok true, h1) ∧
    Handler.deleteProperty 1 (KStr "a") h1 = Some (Ok true, h1).
Proof.
  intros h. split; [split; reflexivity|].
  destruct (delete_twice 1 (KStr "a") h _ _ _ eq_refl eq_refl eq_refl)
    as (h1 & H1 & _ & H2 & _).
  exists h1. split; [exact H1|exact H2].
Defined.

(** X6: a recorded Define is read through its [value] field. Where
    [defineProperty(f, k, d)] is recorded (the effective descriptor of
    [k] exists and is configurable), the facade's descriptor of [k] is
    [d] verbatim and a read of [f.k] yields [d.value], in both files and
    without touching the store: for an accessor descriptor the read
    yields [undefined], the getter is not called. *)
Theorem define_then_read (v : variant) (f : loc) (k : key) (d old : descriptor)
        (h : heap) (w : ProxyWorker) (c : object) :
  Handler.deref h f = Some (w, c) →
  Worker.getOwnPropertyDescriptor w c k = Some old →
  desc_configurable old = true →
  ∃ h1,
    Handler.defineProperty f k d h = Some (Ok true, h1) ∧
    Handler.getOwnPropertyDescriptor f k h1 = Some (Ok (Some d), h1) ∧
    Handler.get v f k h1 = Some (Ok (desc_value d), h1) ∧
    (d_value d = None → Handler.get v f k h1 = Some (Ok VUndef, h1)).
Proof.
  intros Hd Hold Hcf. destruct (deref_worker _ _ _ _ Hd) as [Hf Hc].
  set (w1 := Worker.addOp w k (DEF, Some d)).
  assert (Handler.deref (<[f := Proxy w1]> h) f = Some (w1, c)) as Hd1
      by by eapply deref_update.
  assert (Worker.query w1 k = Some (DEF, Some d)) as Hq by apply query_addOp_eq.
  exists (<[f := Proxy w1]> h). split.
  { unfold Handler.defineProperty. by rewrite Hd, Hold, Hcf. }
  split.
  { unfold Handler.getOwnPropertyDescriptor, Worker.getOwnPropertyDescriptor.
    by rewrite Hd1, Hq. }
  split; [by rewrite (get_logged v _ _ _ _ _ _ _ Hd1 Hq)|].
  intros Hv. rewrite (get_logged v _ _ _ _ _ _ _ Hd1 Hq). unfold desc_value.
  by rewrite Hv.
Qed.

Lemma define_then_read_witness :
  let h := Sample.wrapped AsMutable 0 Sample.h_a1 in
  let d := Desc None None (Some true) (Some true) (Some (Some (Getter 7 (VNum 9)))) None in
  (Handler.deref h 1 = Some (new_ProxyWorker AsMutable Sample.h_a1 0, Sample.x_a1) ∧
   Worker.getOwnPropertyDescriptor (new_ProxyWorker AsMutable Sample.h_a1 0) Sample.x_a1
                                   (KStr "a")
   = Some (Sample.full (VNum 1))) ∧
  ∃ h1,
    Handler.defineProperty 1 (KStr "a") d h = Some (Ok true, h1) ∧
    Handler.get AsMutable 1 (KStr "a") h1 = Some (Ok VUndef, h1).
Proof.
  intros h d. split; [split; reflexivity|].
  destruct (define_then_read AsMutable 1 (KStr "a") d _ h _ _ eq_refl eq_refl eq_refl)
    as (h1 & H1 & _ & _ & H2).
  exists h1. split; [exact H1|exact (H2 eq_refl)].
Defined.

(** X7: rebinding the ancestor. [setPrototypeOf(f, a)] answers [true],
    keeps the log and the client, and [getPrototypeOf(f)] then answers
    [a]. For an unlogged key that the origin does not own, as-mutable.ts
    then resolves [has] and reads against [a], while im-mutable.ts keeps
    resolving them against the origin's own chain. *)
Theorem rebind_ancestor (f : loc) (k : key) (ps : props) (parent : ancestor)
        (h : heap) (w : ProxyWorker) (c : object) :
  Handler.deref h f = Some (w, c) →
  Worker.query w k = None →
  own_prop (o_props c) k = None →
  let a := AObj ps parent in
  ∃ h1,
    Handler.setPrototypeOf f a h = Some (Ok true, h1) ∧
    Handler.deref h1 f = Some (mkProxyWorker (records w) (client w) (PObject ps parent), c) ∧
    Handler.getPrototypeOf f h1 = Some (Ok (PObject ps parent), h1) ∧
    Handler.has AsMutable f k h1 = Some (Ok (chain_has a k), h1) ∧
    (∀ y, chain_get a k = Some y → Handler.get AsMutable f k h1 = Some (Ok y, h1)) ∧
    Handler.has ImMutable f k h1 = Some (Ok (chain_has (o_proto c) k), h1) ∧
    (∀ y, obj_get c k = Some y → Handler.get ImMutable f k h1 = Some (Ok y, h1)).
Proof.
  intros Hd Hq Hown a. destruct (deref_worker _ _ _ _ Hd) as [Hf Hc].
  set (w1 := mkProxyWorker (records w) (client w) (PObject ps parent)).
  assert (Handler.deref (<[f := Proxy w1]> h) f = Some (w1, c)) as Hd1
      by by eapply deref_update.
  assert (Worker.query w1 k = None) as Hq1 by done.
  assert (<[f := Proxy w1]> (<[f := Proxy w1]> h) = <[f := Proxy w1]> h) as Hid.
  { apply list_insert_id, list_lookup_insert_eq. by eapply lookup_lt_Some. }
  exists (<[f := Proxy w1]> h). split.
  { unfold Handler.setPrototypeOf. by rewrite Hd. }
  split; [done|]. split.
  { unfold Handler.getPrototypeOf. by rewrite Hd1. }
  unfold Handler.has, Handler.get, Worker.has, Worker.get, Reflect_has,
    Reflect_getOwnPropertyDescriptor.
  rewrite Hd1, Hq1, Hown. simpl. repeat split.
  - intros y Hy. fold a. rewrite Hy. simpl. by rewrite Hid.
  - intros y Hy. rewrite Hy. simpl. by rewrite Hid.
Qed.

Lemma rebind_ancestor_witness :
  let h := Sample.wrapped AsMutable 0 Sample.h_a1 in
  let a := AObj [(KStr "z", Sample.num 5)] ANull in
  (Handler.deref h 1 = Some (new_ProxyWorker AsMutable Sample.h_a1 0, Sample.x_a1) ∧
   Worker.query (new_ProxyWorker AsMutable Sample.h_a1 0) (KStr "z") = None ∧
   own_prop (o_props Sample.x_a1) (KStr "z") = None) ∧
  ∃ h1,
    Handler.setPrototypeOf 1 a h = Some (Ok true, h1) ∧
    Handler.get AsMutable 1 (KStr "z") h1 = Some (Ok (VNum 5), h1) ∧
    Handler.get ImMutable 1 (KStr "z") h1 = Some (Ok VUndef, h1).
Proof.
  intros h a. split; [repeat split; reflexivity|].
  destruct (rebind_ancestor 1 (KStr "z") [(KStr "z", Sample.num 5)] ANull h _ _
              eq_refl eq_refl eq_refl) as (h1 & H1 & _ & _ & _ & H2 & _ & H3).
  exists h1. split; [exact H1|]. split; [exact (H2 _ eq_refl)|exact (H3 _ eq_refl)].
Defined.

(* ================================================================== *)
(** ** Further properties: a fresh facade *)

Lemma query_fresh (v : variant) (h : heap) (l : loc) (k : key) :
  Worker.query (new_ProxyWorker v h l) k = None.
Proof. done. Qed.

Lemma dunder_proto_object (c : object) (ps : props) (parent : ancestor) :
  dunder_proto c = PObject ps parent → o_proto c = AObj ps parent.
Proof.
  unfold dunder_proto.
  destruct (match own_prop (o_props c) (KStr "__proto__") with
            | Some p => Some p
            | None => chain_prop (o_proto c) (KStr "__proto__")
            end) as [[x ? ? ?|[[? x|]|] ? ? ?]|]; try done.
  destruct (o_proto c); simpl; congruence.
Qed.





(** X10: wrap is not memoized. Wrapping the same plain container twice
    gives two facades at distinct locations; whatever is then done
    through the first (or any facade other than the second), the log of
    the second stays empty and [unwrap] of the second returns the
    container itself. *)
Theorem wrap_twice_independent (v : variant) (h : heap) (l : loc) (c : object)
        (script : list action) (fuel : nat) :
  plain_at h l = Some c →
  ∃ f1 f2 h1 h2,
    asMutable v (VRef l) h = (Ok (VRef f1), h1) ∧
    asMutable v (VRef l) h1 = (Ok (VRef f2), h2) ∧
    f1 ≠ f2 ∧
    (Forall (λ a, target_of a ≠ Some f2) script →
     let hs := run v h2 script in
     (∃ w2, worker_at hs f2 = Some w2 ∧ records w2 = [] ∧ client w2 = l) ∧
     getValue v (S fuel) (VRef f2) hs = Some (Ok (VRef l), hs)).
Proof.
  intros Hc.
  set (h1 := h ++ [Proxy (new_ProxyWorker v h l)]).
  assert (plain_at h1 l = Some c) as Hc1
      by (eapply plain_at_prefix; [by apply prefix_app_r|done]).
  set (h2 := h1 ++ [Proxy (new_ProxyWorker v h1 l)]).
  exists (length h), (length h1), h1, h2.
  split; [by eapply asMutable_plain|]. split; [by eapply asMutable_plain|].
  split. { unfold h1. rewrite length_app. simpl. lia. }
  intros Hs hs.
  assert (worker_at h2 (length h1) = Some (new_ProxyWorker v h1 l)) as Hw.
  { unfold worker_at, h2. by rewrite lookup_app_r, Nat.sub_diag by lia. }
  assert (worker_at hs (length h1) = Some (new_ProxyWorker v h1 l)) as Hws
      by by apply run_other_worker.
  split; [by eexists|].
  apply (getValue_empty_log v fuel _ hs (new_ProxyWorker v h1 l) c); [done| |done].
  simpl. eapply preserved_plain; [apply run_preserved|].
  eapply plain_at_prefix; [by apply prefix_app_r|done].
Qed.

Lemma wrap_twice_independent_witness :
  plain_at Sample.h_a1 0 = Some Sample.x_a1 ∧
  ∃ f1 f2 h1 h2,
    asMutable AsMutable (VRef 0) Sample.h_a1 = (Ok (VRef f1), h1) ∧
    asMutable AsMutable (VRef 0) h1 = (Ok (VRef f2), h2) ∧
    f1 ≠ f2 ∧
    getValue AsMutable 1 (VRef f2) (run AsMutable h2 [WriteProperty 1 (KStr "a") (VNum 2)])
    = Some (Ok (VRef 0), run AsMutable h2 [WriteProperty 1 (KStr "a") (VNum 2)]).
Proof.
  split; [reflexivity|].
  destruct (wrap_twice_independent AsMutable Sample.h_a1 0 Sample.x_a1
              [WriteProperty 1 (KStr "a") (VNum 2)] 0 eq_refl)
    as (f1 & f2 & h1 & h2 & H1 & H2 & Hne & Hrun).
  exists f1, f2, h1, h2. split; [exact H1|]. split; [exact H2|]. split; [exact Hne|].
  assert (f2 = 2) as ->.
  { vm_compute in H1. injection H1 as <- <-. vm_compute in H2. by injection H2 as <- <-. }
  apply Hrun. repeat constructor. discriminate.
Defined.

(* ================================================================== *)
(** ** Further properties: what a session keeps *)

(** X11: materialisation is pure. Whether [getValue] returns or throws,
    every location of the store holds afterwards what it held before,
    the workers of all facades included, and every location it
    allocated holds a plain container. *)
Theorem materialisation_is_pure (v : variant) (fuel : nat) (x : value) (h h' : heap)
        (r : res value) :
  getValue v fuel x h = Some (r, h') →
  (∀ l, l < length h → h' !! l = h !! l) ∧
  (∀ f, worker_at h' f = worker_at h f) ∧
  (∀ l, length h ≤ l → l < length h' → ∃ o, plain_at h' l = Some o).
Proof.
  intros H. destruct (getValue_grows _ _ _ _ _ _ H) as (ext & -> & Hext).
  split; [intros l Hl; by apply lookup_app_l|]. split.
  - intros f. unfold worker_at. destruct (decide (f < length h)) as [Hlt|Hge].
    + by rewrite lookup_app_l.
    + rewrite lookup_app_r by lia. rewrite (lookup_ge_None_2 h) by lia.
      destruct (ext !! (f - length h)) as [[o|w]|] eqn:He; try done.
      rewrite Forall_lookup in Hext. by apply Hext in He.
  - intros l Hge Hlt. rewrite length_app in Hlt. unfold plain_at.
    rewrite lookup_app_r by lia.
    destruct (ext !! (l - length h)) as [[o|w]|] eqn:He.
    + by eexists.
    + rewrite Forall_lookup in Hext. by apply Hext in He.
    + apply lookup_ge_None in He. lia.
Qed.

Lemma materialisation_is_pure_witness :
  let h := Sample.h_read AsMutable in
  let h' := step AsMutable h (Unwrap 2 (VRef 3)) in
  getValue AsMutable 2 (VRef 3) h = Some (Ok (VRef 2), h') ∧
  (∀ l, l < length h → h' !! l = h !! l) ∧
  (∀ f, worker_at h' f = worker_at h f) ∧
  (∀ l, length h ≤ l → l < length h' → ∃ o, plain_at h' l = Some o).
Proof.
  intros h h'.
  assert (getValue AsMutable 2 (VRef 3) h = Some (Ok (VRef 2), h')) as H
      by (vm_compute; reflexivity).
  split; [exact H|].
  exact (materialisation_is_pure AsMutable 2 (VRef 3) h h' _ H).
Defined.

Lemma workers_wf_plain (h : heap) : Forall is_plain h → workers_wf h.
Proof.
  intros Hp f w. unfold worker_at. intros Hw.
  destruct (h !! f) as [[o|w']|] eqn:Hf; simplify_eq.
  rewrite Forall_lookup in Hp. by apply Hp in Hf.
Qed.

Lemma records_get_elem (m : recordsMap) (k : key) :
  k ∈ m.*1 → is_Some (Worker.records_get m k).
Proof.
  induction m as [|[k0 r0] m IH]; simpl; [by intros ?%elem_of_nil|].
  destruct (decide (k0 = k)) as [->|Hne]; [by eexists|].
  intros [?|Hin]%elem_of_cons; [done|]. by apply IH.
Qed.

(** X12: the log stays well formed. In a session that starts from a
    store of plain containers, the log of every facade has at every
    moment one record per key and no empty record, so that [query]
    answers the last operation of exactly the logged keys. *)
Theorem logs_stay_well_formed (v : variant) (h : heap) (script : list action)
        (f : loc) (w : ProxyWorker) :
  Forall is_plain h →
  worker_at (run v h script) f = Some w →
  NoDup (records w).*1 ∧
  Forall (λ kr, kr.2 ≠ []) (records w) ∧
  ∀ k, k ∈ (records w).*1 ↔ is_Some (Worker.query w k).
Proof.
  intros Hp Hw.
  destruct (run_workers_wf v script h (workers_wf_plain h Hp) f w Hw) as [Hnd Hne].
  split; [done|]. split; [done|]. intros k. unfold Worker.query. split.
  - intros Hin. destruct (records_get_elem _ _ Hin) as [r Hr]. rewrite Hr.
    apply records_get_Some_elem in Hr. rewrite Forall_forall in Hne.
    apply Hne in Hr. simpl in Hr. destruct (last r) eqn:Hl; [by eexists|].
    by apply last_None in Hl.
  - destruct (Worker.records_get (records w) k) as [r|] eqn:Hr; [|by intros [? ?]].
    intros _. apply records_get_Some_elem in Hr.
    apply list_elem_of_fmap. by exists (k, r).
Qed.

Lemma logs_stay_well_formed_witness :
  Forall is_plain Sample.h_nested ∧
  ∃ w, worker_at (run AsMutable Sample.h_nested (Wrap (VRef 2) :: Sample.session)) 3 = Some w ∧
       NoDup (records w).*1 ∧
       Forall (λ kr, kr.2 ≠ []) (records w) ∧
       ∀ k, k ∈ (records w).*1 ↔ is_Some (Worker.query w k).
Proof.
  assert (Forall is_plain Sample.h_nested) as Hp by (repeat constructor).
  split; [exact Hp|]. eexists. split; [reflexivity|].
  exact (logs_stay_well_formed AsMutable Sample.h_nested
           (Wrap (VRef 2) :: Sample.session) 3 _ Hp eq_refl).
Defined.

(** X13: once a facade, always a facade. A value that carries the tag
    keeps it through any session, with the same client, and [wrap] of it
    returns it and allocates nothing. *)
Theorem facade_stays_facade (v : variant) (h : heap) (script : list action)
        (x : value) (w : ProxyWorker) :
  MUTABLE_of h x = Some w →
  let hs := run v h script in
  (∃ w', MUTABLE_of hs x = Some w' ∧ client w' = client w) ∧
  isMutable hs x = true ∧
  asMutable v x hs = (Ok x, hs).
Proof.
  intros Hw hs. destruct x as [| | | | | | | | |f]; try done. simpl in Hw.
  unfold worker_at in Hw. destruct (h !! f) as [[o|w0]|] eqn:Hf; simplify_eq.
  destruct (run_preserved v script h) as [_ Hp].
  assert (∃ w', worker_at hs f = Some w' ∧ client w' = client w) as (w' & Hw' & Hc).
  { destruct (Hp f) as [E|(u & u' & Hu & Hu' & Hcl)]; [by eapply lookup_lt_Some| |].
    - exists w. unfold worker_at, hs. by rewrite E, Hf.
    - exists u'. unfold worker_at, hs. rewrite Hu'. rewrite Hf in Hu. by simplify_eq. }
  split; [by exists w'|].
  assert (isMutable hs (VRef f) = true) as Hm.
  { unfold isMutable. simpl. by rewrite Hw'. }
  split; [done|]. unfold asMutable. simpl. by rewrite Hm.
Qed.

Lemma facade_stays_facade_witness :
  let h := Sample.wrapped AsMutable 2 Sample.h_nested in
  MUTABLE_of h (VRef 3) = Some (new_ProxyWorker AsMutable Sample.h_nested 2) ∧
  isMutable (run AsMutable h Sample.session) (VRef 3) = true ∧
  asMutable AsMutable (VRef 3) (run AsMutable h Sample.session)
  = (Ok (VRef 3), run AsMutable h Sample.session).
Proof.
  intros h. split; [reflexivity|].
  destruct (facade_stays_facade AsMutable h Sample.session (VRef 3) _ eq_refl)
    as (_ & Hm & Ha).
  split; [exact Hm|exact Ha].
Defined.

(* ================================================================== *)
(** ** Further properties: the own keys in im-mutable.ts *)

Lemma is_deleted_query (this : ProxyWorker) (k : key) :
  is_deleted (records this) k
  = match Worker.query this k with Some (DEL, _) => true | _ => false end.
Proof. unfold is_deleted, Worker.query. by destruct (Worker.records_get _ _). Qed.

Lemma ownKeys_original_spec (this : ProxyWorker) :
  records_wf (records this) →
  ∀ originalKeys keys,
    Worker.ownKeys_original this originalKeys keys
    = Ok (keys ++ filter (λ k, is_deleted (records this) k = false) originalKeys).
Proof.
  intros [_ Hne] originalKeys.
  induction originalKeys as [|k l IH]; intros keys; simpl; [by rewrite app_nil_r|].
  rewrite filter_cons, is_deleted_query.
  destruct (Worker.records_get (records this) k) as [r|] eqn:Hr.
  - assert (∃ o, Worker.query this k = Some o) as [[opcode d] Hq].
    { unfold Worker.query. rewrite Hr. apply records_get_Some_elem in Hr.
      rewrite Forall_forall in Hne. apply Hne in Hr. simpl in Hr.
      destruct (last r) eqn:Hl; [by eexists|]. by apply last_None in Hl. }
    rewrite Hq. destruct (decide (opcode = DEL)) as [->|Hop].
    + rewrite decide_False by done. apply IH.
    + rewrite decide_True by by destruct opcode.
      rewrite IH. by rewrite <- (assoc_L (++)).
  - assert (Worker.query this k = None) as -> by (unfold Worker.query; by rewrite Hr).
    rewrite decide_True by done. rewrite IH. by rewrite <- (assoc_L (++)).
Qed.

Lemma ownKeys_push_spec (m : recordsMap) :
  records_wf m →
  ∀ keys,
    Worker.ownKeys_push m keys
    = Ok (keys ++ filter (λ k, is_deleted m k = false) (m.*1)).
Proof.
  intros [Hnd Hne]. induction m as [|[k r] m IH]; intros keys.
  - simpl. by rewrite app_nil_r.
  - simpl in Hnd. apply NoDup_cons in Hnd as [Hnin Hnd].
    apply Forall_cons in Hne as [Hr Hne]. simpl in Hr.
    destruct (last r) as [[opcode d]|] eqn:Hl; [|by apply last_None in Hl].
    assert (filter (λ k0, is_deleted ((k, r) :: m) k0 = false) (m.*1)
            = filter (λ k0, is_deleted m k0 = false) (m.*1)) as Hf.
    { apply filter_ext_elem. intros k' Hin. rewrite is_deleted_cons_ne; [done|].
      by intros ->. }
    cbn [Worker.ownKeys_push fmap list_fmap fst]. rewrite Hl. cbn [fst].
    rewrite (filter_cons _ k), is_deleted_cons_eq, Hl, Hf.
    destruct (decide (opcode = DEL)) as [->|Hop].
    + rewrite decide_False by done. by apply IH.
    + rewrite decide_True by by destruct opcode.
      rewrite IH by done. by rewrite <- (assoc_L (++)).
Qed.

(** X14: the own keys im-mutable.ts answers. With a well-formed log, the
    answer is the origin's own keys without those whose last entry is a
    Delete, followed by every logged key whose last entry is not a
    Delete, whether the origin owns it or not: an own key of the origin
    that was read as a container, written or defined through the facade
    is answered twice. *)
Theorem ownKeys_im_mutable (this : ProxyWorker) (c : object) :
  records_wf (records this) →
  let keys := filter (λ k, is_deleted (records this) k = false) (Reflect_ownKeys c)
              ++ filter (λ k, is_deleted (records this) k = false) ((records this).*1) in
  Worker.ownKeys ImMutable this c = Ok keys ∧
  ∀ k op d, k ∈ Reflect_ownKeys c → Worker.query this k = Some (op, d) → op ≠ DEL →
            ¬ NoDup keys.
Proof.
  intros Hwf keys. split.
  - unfold Worker.ownKeys. rewrite ownKeys_original_spec by done. simpl.
    by rewrite ownKeys_push_spec.
  - intros k op d Hown Hq Hop Hnd. apply NoDup_app in Hnd as (_ & Hdis & _).
    assert (is_deleted (records this) k = false) as Hdel.
    { rewrite is_deleted_query, Hq. by destruct op. }
    apply (Hdis k).
    + by apply list_elem_of_filter.
    + apply list_elem_of_filter. split; [done|].
      unfold Worker.query in Hq.
      destruct (Worker.records_get (records this) k) as [r|] eqn:Hr; [|done].
      apply records_get_Some_elem in Hr. apply list_elem_of_fmap. by exists (k, r).
Qed.

Lemma ownKeys_im_mutable_witness :
  let this := Worker.addOp (new_ProxyWorker ImMutable Sample.h_a1 0) (KStr "a")
                           (SET, Some (Sample.full (VNum 2))) in
  records_wf (records this) ∧
  Worker.ownKeys ImMutable this Sample.x_a1 = Ok [KStr "a"; KStr "a"].
Proof.
  intros this.
  assert (records_wf (records this)) as Hwf.
  { apply records_wf_addOp, records_wf_nil. }
  split; [exact Hwf|].
  exact (proj1 (ownKeys_im_mutable this Sample.x_a1 Hwf)).
Defined.

(* ================================================================== *)
(** ** Further properties: the materialiser *)

(** X15: a facade that buffers itself. If the effective entry of the
    first logged key of [f] is a Read or a Write whose value is [f]
    itself (as after [f.self = f]), [getValue(f)] recurses without end:
    no amount of fuel gives an answer. *)
Theorem cyclic_facade_never_materialises (v : variant) (f : loc) (w : ProxyWorker)
        (c : object) (k : key) (record : list op) (rest : recordsMap)
        (opcode : ops) (d : descriptor) :
  records w = (k, record) :: rest →
  last record = Some (opcode, Some d) →
  opcode = GET ∨ opcode = SET →
  desc_value d = VRef f →
  ∀ fuel h,
    worker_at h f = Some w →
    plain_at h (client w) = Some c →
    getValue v fuel (VRef f) h = None.
Proof.
  intros Hr Hl Hop Hd fuel. induction fuel as [|n IH]; intros h Hw Hc.
  - simpl. by rewrite Hw.
  - rewrite getValue_S. simpl. rewrite Hw, Hc, Hr.
    destruct (duplicate v w c) as [[result|e]|] eqn:Hdup;
      [|by apply duplicate_no_throw in Hdup|done].
    simpl. unfold getValue_record. rewrite Hl.
    assert (getValue v n (desc_value d) (h ++ [Plain result]) = None) as Hn.
    { rewrite Hd. apply IH.
      - eapply worker_at_prefix; [by apply prefix_app_r|done].
      - eapply plain_at_prefix; [by apply prefix_app_r|done]. }
    destruct Hop as [-> | ->]; by rewrite Hn.
Qed.

Lemma cyclic_facade_never_materialises_witness :
  let h := run AsMutable (Sample.wrapped AsMutable 0 Sample.h_a1)
               [WriteProperty 1 (KStr "self") (VRef 1)] in
  let w := Worker.addOp (new_ProxyWorker AsMutable Sample.h_a1 0) (KStr "self")
                        (SET, Some (Sample.full (VRef 1))) in
  worker_at h 1 = Some w ∧
  records w = [(KStr "self", [(SET, Some (Sample.full (VRef 1)))])] ∧
  plain_at h (client w) = Some Sample.x_a1 ∧
  ∀ fuel, getValue AsMutable fuel (VRef 1) h = None.
Proof.
  intros h w. split; [reflexivity|]. split; [reflexivity|].
  split; [reflexivity|]. intros fuel.
  exact (cyclic_facade_never_materialises AsMutable 1 w Sample.x_a1 (KStr "self")
           [(SET, Some (Sample.full (VRef 1)))] []
           SET (Sample.full (VRef 1)) eq_refl eq_refl (or_intror eq_refl) eq_refl
           fuel h eq_refl eq_refl).
Defined.

Lemma keeps_object (k : key) (o o' : object) :
  o_kind o = KObject → keeps k o o' → o_kind o' = KObject.
Proof. intros Hk [-> _]. done. Qed.

Lemma store_prop_object_ne (o o' : object) (k k' : key) (p : property) :
  k ≠ k' → o_kind o = KObject → store_prop o k' p = Some (Ok o') →
  own_prop (o_props o') k = own_prop (o_props o) k.
Proof.
  intros Hne Hk. unfold store_prop. rewrite Hk. intros [= <-]. simpl.
  by apply own_prop_put_ne.
Qed.

Lemma obj_assign_object_ne (o o' : object) (k k' : key) (x : protoval) :
  k ≠ k' → o_kind o = KObject → obj_assign o k' x = Some (Ok o') →
  own_prop (o_props o') k = own_prop (o_props o) k.
Proof.
  intros Hne Hk H. unfold obj_assign in H.
  assert (∀ o1, set_prototype o x = Some (Ok o1) →
                own_prop (o_props o1) k = own_prop (o_props o) k) as Hsp.
  { intros o1 H1. apply set_prototype_props in H1 as [_ Hp]. by rewrite Hp. }
  destruct (own_prop (o_props o) k') as [[x0 [] e c|g [[sid|]|] e c]|];
    try destruct x as [y|ps parent]; simplify_eq;
    try (by eapply store_prop_object_ne); try done; try (by apply Hsp).
  all: destruct (chain_prop (o_proto o) k') as [[x0 [] e c|g [[sid|]|] e c]|]; simplify_eq;
    try (by eapply store_prop_object_ne); try done; try (by apply Hsp).
Qed.

Lemma obj_set_object_ne (o o' : object) (k k' : key) (x : value) :
  k ≠ k' → o_kind o = KObject → obj_set o k' x = Some (Ok o') →
  own_prop (o_props o') k = own_prop (o_props o) k.
Proof. apply obj_assign_object_ne. Qed.

Lemma obj_define_object_ne (o o' : object) (k k' : key) (d : descriptor) :
  k ≠ k' → o_kind o = KObject → obj_define o k' d = Some (Ok o') →
  own_prop (o_props o') k = own_prop (o_props o) k.
Proof.
  intros Hne Hk H. unfold obj_define in H.
  destruct (is_accessor_desc d && is_data_desc d); [done|].
  destruct (own_prop (o_props o) k') as [cur|].
  - destruct (compatible cur d); [|done]. by eapply store_prop_object_ne.
  - by eapply store_prop_object_ne.
Qed.

Lemma obj_delete_ne (o o' : object) (k k' : key) :
  k ≠ k' → obj_delete o k' = Ok o' →
  own_prop (o_props o') k = own_prop (o_props o) k.
Proof.
  intros Hne. unfold obj_delete.
  destruct (own_prop (o_props o) k') as [p|]; [|by intros [= <-]].
  destruct (prop_configurable p); [|done]. intros [= <-]. simpl.
  by apply own_prop_remove_ne.
Qed.

Lemma getValue_forEach_object_ne
      (rec : value → heap → option (res value * heap)) (c : object) (k : key)
      (m : recordsMap) :
  ∀ (result result' : object) (mutated mutated' : bool) (h h' : heap),
    Worker.records_get m k = None →
    o_kind result = KObject →
    getValue_forEach rec c m result mutated h = Some (Ok (result', mutated'), h') →
    own_prop (o_props result') k = own_prop (o_props result) k.
Proof.
  induction m as [|[k' record] m IH];
    intros result result' mutated mutated' h h' Hk Hkind H.
  - simpl in H. by simplify_eq.
  - apply records_get_None_cons in Hk as [Hne Hk]. simpl in H.
    destruct (getValue_record rec c k' record result mutated h)
      as [[[[r1 mu1]|e] h1]|] eqn:Hs; try done.
    assert (keeps k result r1) as K
        by (eapply getValue_record_keeps; [done| |exact Hs]; by rewrite Hkind).
    rewrite (IH _ _ _ _ _ _ Hk (keeps_object _ _ _ Hkind K) H).
    unfold getValue_record in Hs.
    destruct (last record) as [[opcode desc]|]; [|done].
    destruct opcode.
    1,2: destruct desc as [d|]; [|done];
         destruct (rec (desc_value d) h) as [[[nv|e] h2]|]; try done;
         destruct (obj_set result k' nv) as [[ro|e]|] eqn:Ho; simplify_eq;
         by eapply obj_set_object_ne.
    + destruct (obj_delete result k') eqn:Ho; simplify_eq. by eapply obj_delete_ne.
    + destruct desc as [d|]; [|done].
      destruct (obj_define result k' d) as [[ro|e]|] eqn:Ho; simplify_eq.
      by eapply obj_define_object_ne.
Qed.

Lemma spread_object_reads (c d : object) (k : key) (p : property) :
  spread_object c = Some d →
  own_prop (o_props c) k = Some p →
  prop_enumerable p = true →
  is_Some (obj_get c k).
Proof.
  intros Hs Hp He. unfold spread_object in Hs.
  apply bind_Some in Hs as (ps & Hm & Hs). apply mapM_Some_1 in Hm.
  assert ((k, p) ∈ filter (λ kp, prop_enumerable kp.2 = true) (o_props c)) as Hin.
  { apply list_elem_of_filter. split; [done|]. by apply own_prop_elem. }
  apply list_elem_of_lookup in Hin as [i Hi].
  destruct (Forall2_lookup_l _ _ _ _ _ Hm Hi) as (q & _ & Hq).
  unfold obj_get. rewrite Hp. simpl in Hq.
  destruct (prop_get p (o_proto c)); [by eexists|done].
Qed.

Lemma own_prop_duplicate_object (v : variant) (w : ProxyWorker) (c d : object) (k : key) :
  o_kind c = KObject →
  NoDup (Reflect_ownKeys c) →
  duplicate v w c = Some (Ok d) →
  own_prop (o_props d) k = duplicate_at v w c k.
Proof.
  intros Hk Hnd H. unfold duplicate in H. rewrite Hk in H.
  destruct (spread_object c) as [d0|] eqn:Hs; [|done].
  destruct (own_prop_spread_object_eq c d0 k Hs Hnd) as (Hk0 & Hp0 & Hown).
  unfold duplicate_at.
  destruct v; [|by simplify_eq].
  destruct (decide (k = KStr "__proto__")) as [->|Hn].
  - unfold set_dunder_proto, obj_assign in H. rewrite Hown in H.
    destruct (own_prop (o_props c) (KStr "__proto__")) as [p|] eqn:Hp.
    + destruct (prop_enumerable p) eqn:He.
      * destruct (obj_get c (KStr "__proto__")) as [x|] eqn:Hx; simpl in H.
        -- destruct (proto w) as [y|]; [|done]. simpl.
           unfold store_prop in H. rewrite Hk0 in H. simplify_eq. simpl.
           apply own_prop_put_eq.
        -- destruct (spread_object_reads _ _ _ _ Hs Hp He) as [y Hy]. congruence.
      * rewrite Hp0 in H. simpl in H. apply set_prototype_props in H as [_ ->]. done.
    + rewrite Hp0 in H. simpl in H. apply set_prototype_props in H as [_ ->]. done.
  - assert (own_prop (o_props d) k = own_prop (o_props d0) k) as ->.
    { eapply obj_assign_object_ne; [|exact Hk0|exact H]. done. }
    by rewrite Hown.
Qed.

Lemma duplicate_owns (v : variant) (w : ProxyWorker) (c d : object) (k : key)
      (p : property) :
  o_kind c = KObject →
  NoDup (Reflect_ownKeys c) →
  duplicate v w c = Some (Ok d) →
  own_prop (o_props c) k = Some p →
  prop_enumerable p = true →
  ∃ x, own_prop (o_props d) k = Some (Data x true true true).
Proof.
  intros Hk Hnd H Hp He.
  rewrite (own_prop_duplicate_object v w c d k Hk Hnd H).
  unfold duplicate_at. rewrite Hp, He.
  unfold duplicate in H. rewrite Hk in H.
  destruct (spread_object c) as [d0|] eqn:Hs; [|done].
  destruct (spread_object_reads _ _ _ _ Hs Hp He) as [x Hx].
  assert (∃ x0, (λ x, Data x true true true) <$> obj_get c k
                = Some (Data x0 true true true)) as Hgen
      by (rewrite Hx; by eexists).
  destruct v; [|done].
  destruct (decide (k = KStr "__proto__")) as [->|Hn]; [|done].
  destruct (proto w) as [y|] eqn:Hpw; [by eexists|]. exfalso.
  destruct (own_prop_spread_object_eq c d0 (KStr "__proto__") Hs Hnd) as (_ & _ & Hown).
  rewrite Hp, He, Hx in Hown. simpl in Hown.
  unfold set_dunder_proto, obj_assign in H. by rewrite Hown in H.
Qed.



(* X17-PLACEHOLDER *)

Lemma own_prop_replace_eq (k : key) (p : property) (ps : props) :
  is_Some (own_prop ps k) → own_prop (replace_prop k p ps) k = Some p.
Proof.
  induction ps as [|[k0 p0] ps IH]; simpl; [by intros [? ?]|].
  destruct (decide (k0 = k)) as [->|Hne]; simpl.
  - by rewrite decide_True.
  - rewrite decide_False by done. apply IH.
Qed.

(** X18: writing back the value a key has. For an object-like plain
    container [x] with own keys free of duplicates, an own enumerable key
    [k] and a primitive or function [y], after [f = wrap(x); f[k] = y],
    where the duplicate of [x] is a value of the model:
    if [x[k] === y], [unwrap(f)] returns [x] itself; otherwise (also when
    both are [NaN]) it returns a new container that holds [y] at [k] as a
    writable, enumerable, configurable data property, and [x] is as it
    was. *)
Theorem write_back_same_value (v : variant) (fuel : nat) (h : heap) (l : loc)
        (c : object) (k : key) (p : property) (y : value) (dup : object) :
  plain_at h l = Some c →
  o_kind c = KObject →
  NoDup (Reflect_ownKeys c) →
  own_prop (o_props c) k = Some p →
  prop_enumerable p = true →
  isDuplicable y = false →
  duplicate v (new_ProxyWorker v h l) c = Some (Ok dup) →
  ∃ f h1 h2 h3,
    asMutable v (VRef l) h = (Ok (VRef f), h1) ∧
    Handler.set v f k y h1 = Some (Ok true, h2) ∧
    getValue v (S fuel) (VRef f) h2
    = Some (Ok (VRef (if same_value (obj_get c k) y then l else length h2)), h3) ∧
    h2 !! length h2 = None ∧
    plain_at h3 l = Some c ∧
    ∃ ro, plain_at h3 (length h2) = Some ro ∧
          own_prop (o_props ro) k = Some (Data y true true true).
Proof.
  intros Hc Hkind Hnd Hp He Hy Hdupl.
  set (nw := new_ProxyWorker v h l).
  set (h1 := h ++ [Proxy nw]).
  set (d := Desc (Some y) (Some true) (Some true) (Some true) None None).
  set (w1 := Worker.addOp nw k (SET, Some d)).
  set (h2 := <[length h := Proxy w1]> h1).
  pose proof (deref_fresh v h l c Hc) as Hd. fold nw h1 in Hd.
  assert (asMutable v y h1 = (Ok y, h1)) as Hay.
  { unfold asMutable. by rewrite Hy. }
  assert (Handler.set v (length h) k y h1 = Some (Ok true, h2)) as Hset.
  { unfold Handler.set, Worker.set. by rewrite Hd, Hay. }
  assert (Handler.deref h2 (length h) = Some (w1, c)) as Hd2
      by by eapply deref_update.
  destruct (deref_worker _ _ _ _ Hd2) as [Hf2 Hc2]. simpl in Hc2.
  assert (worker_at h2 (length h) = Some w1) as Hw2 by (unfold worker_at; by rewrite Hf2).
  assert (plain_at h2 l = Some c) as Hcl by (unfold plain_at; by rewrite Hc2).
  assert (duplicate v w1 c = Some (Ok dup)) as Hdup1 by exact Hdupl.
  destruct (duplicate_owns v w1 c dup k p Hkind Hnd Hdup1 Hp He) as [x0 Hdup].
  assert (o_kind dup = KObject) as Hkd
      by by rewrite (o_kind_duplicate _ _ _ _ Hdup1).
  set (ro := Obj KObject (put_prop k (Data y true true true) (o_props dup)) (o_proto dup)).
  assert (obj_set dup k y = Some (Ok ro)) as Hos.
  { unfold obj_set, obj_assign. rewrite Hdup. unfold store_prop. by rewrite Hkd. }
  assert (MUTABLE_of (h2 ++ [Plain dup]) y = None) as Hmy by by destruct y.
  exists (length h), h1, h2, (<[length h2 := Plain ro]> (h2 ++ [Plain dup])).
  split; [by eapply asMutable_plain|]. split; [exact Hset|]. split.
  { rewrite getValue_S. simpl MUTABLE_of. rewrite Hw2. simpl client. rewrite Hcl.
    change (records w1) with [(k, [(SET, Some d)])]. rewrite Hdup1.
    unfold getValue_forEach, getValue_record.
    change (last [(SET, Some d)]) with (Some (SET, Some d)).
    cbv beta iota. change (desc_value d) with y.
    rewrite (getValue_not_mutable v fuel y _ Hmy), Hos.
    assert (length h2 = length h1) as -> by (unfold h2; by rewrite length_insert).
    by destruct (same_value (obj_get c k) y). }
  split; [by apply lookup_ge_None_2|].
  rewrite insert_fresh_copy. split.
  { eapply plain_at_prefix; [by apply prefix_app_r|done]. }
  exists ro. split.
  { unfold plain_at. by rewrite list_lookup_middle. }
  simpl. apply own_prop_put_eq.
Qed.

Lemma write_back_same_value_witness :
  (plain_at Sample.h_a1 0 = Some Sample.x_a1 ∧ NoDup (Reflect_ownKeys Sample.x_a1) ∧
   same_value (obj_get Sample.x_a1 (KStr "a")) (VNum 1) = true) ∧
  ∃ f h1 h2 h3,
    asMutable AsMutable (VRef 0) Sample.h_a1 = (Ok (VRef f), h1) ∧
    Handler.set AsMutable f (KStr "a") (VNum 1) h1 = Some (Ok true, h2) ∧
    getValue AsMutable 1 (VRef f) h2 = Some (Ok (VRef 0), h3).
Proof.
  assert (NoDup (Reflect_ownKeys Sample.x_a1)) as Hnd.
  { apply (bool_decide_unpack _). vm_compute. exact I. }
  split; [repeat split; (reflexivity || exact Hnd)|].
  destruct (write_back_same_value AsMutable 0 Sample.h_a1 0 Sample.x_a1 (KStr "a")
              (Sample.num 1) (VNum 1) _ eq_refl eq_refl Hnd eq_refl eq_refl eq_refl
              eq_refl)
    as (f & h1 & h2 & h3 & Ha & Hs & Hg & _).
  exists f, h1, h2, h3. split; [exact Ha|]. split; [exact Hs|exact Hg].
Defined.

Lemma ownKeys_as_mutable_session_witness :
  let h := Sample.wrapped AsMutable 2 Sample.h_nested in
  let script := [ReadProperty 3 (KStr "a"); WriteProperty 3 (KStr "c") (VNum 1);
                 DeleteProperty 3 (KStr "b"); WriteProperty 3 (KStr "a") (VNum 0)] in
  ∃ w c,
    (workers_wf h ∧ Handler.deref (run AsMutable h script) 3 = Some (w, c) ∧
     NoDup (Reflect_ownKeys c)) ∧
    listOwnKeys_spec w c = [KStr "a"; KStr "c"] ∧
    Handler.ownKeys AsMutable 3 (run AsMutable h script)
    = Some (Ok (listOwnKeys_spec w c), run AsMutable h script) ∧
    NoDup (listOwnKeys_spec w c).
Proof.
  intros h script.
  assert (workers_wf h) as Hwf.
  { apply workers_wf_asMutable, workers_wf_plain. repeat constructor. }
  assert (NoDup [KStr "a"; KStr "b"]) as Hnd.
  { apply (bool_decide_unpack _). vm_compute. exact I. }
  eexists _, _. split; [split; [exact Hwf|split; [reflexivity|exact Hnd]]|].
  split; [vm_compute; reflexivity|].
  exact (ownKeys_as_mutable_session script h 3 _ _ Hwf eq_refl Hnd).
Defined.

(** X22: facades do not share state. A session in which no call is
    addressed to the facade [f] leaves the worker of [f] and its origin
    as they were, so [f] answers [has], its own keys, its descriptors
    and its ancestor as before. *)
Theorem facades_are_isolated (v : variant) (h : heap) (script : list action)
        (f : loc) (w : ProxyWorker) (c : object) (k : key) :
  Handler.deref h f = Some (w, c) →
  Forall (λ a, target_of a ≠ Some f) script →
  let hs := run v h script in
  Handler.deref hs f = Some (w, c) ∧
  (fst <$> Handler.has v f k hs) = (fst <$> Handler.has v f k h) ∧
  (fst <$> Handler.ownKeys v f hs) = (fst <$> Handler.ownKeys v f h) ∧
  (fst <$> Handler.getOwnPropertyDescriptor f k hs)
  = (fst <$> Handler.getOwnPropertyDescriptor f k h) ∧
  (fst <$> Handler.getPrototypeOf f hs) = (fst <$> Handler.getPrototypeOf f h).
Proof.
  intros Hd Hs hs. destruct (deref_worker _ _ _ _ Hd) as [Hf Hc].
  assert (Handler.deref hs f = Some (w, c)) as Hds.
  { assert (worker_at hs f = Some w) as Hw.
    { apply run_other_worker; [done|]. unfold worker_at. by rewrite Hf. }
    assert (plain_at hs (client w) = Some c) as Hp.
    { eapply preserved_plain; [apply run_preserved|]. unfold plain_at. by rewrite Hc. }
    unfold Handler.deref. by rewrite Hw, Hp. }
  split; [done|].
  unfold Handler.has, Handler.ownKeys, Handler.getOwnPropertyDescriptor,
    Handler.getPrototypeOf.
  rewrite Hd, Hds. repeat split. by destruct (Worker.has v w c k).
Qed.

Lemma facades_are_isolated_witness :
  let h := Sample.h_read AsMutable in
  let script := [WriteProperty 4 (KStr "v") (VNum 3); Unwrap 2 (VRef 4)] in
  ∃ w c,
    (Handler.deref h 3 = Some (w, c) ∧ Forall (λ a, target_of a ≠ Some 3) script) ∧
    Handler.deref (run AsMutable h script) 3 = Some (w, c) ∧
    (fst <$> Handler.ownKeys AsMutable 3 (run AsMutable h script))
    = (fst <$> Handler.ownKeys AsMutable 3 h).
Proof.
  intros h script.
  assert (Forall (λ a, target_of a ≠ Some 3) script) as Hs.
  { repeat constructor; discriminate. }
  eexists _, _. split; [split; [reflexivity|exact Hs]|].
  destruct (facades_are_isolated AsMutable h script 3 _ _ (KStr "a") eq_refl Hs)
    as (Hd & _ & Hk & _).
  split; [exact Hd|exact Hk].
Defined.

(* ================================================================== *)
(** ** Further properties: deleted keys *)

Lemma is_deleted_addOp_DEL (this : ProxyWorker) (k : key) :
  is_deleted (records (Worker.addOp this k (DEL, None))) k = true.
Proof. by rewrite is_deleted_query, query_addOp_eq. Qed.

(** X23: a deleted key is not listed. Where [delete f[k]] records a
    Delete, on a facade with a well-formed log and an origin whose own
    keys are free of duplicates, the own keys the facade then answers do
    not contain [k], in both files. *)
Theorem deleted_key_not_listed (v : variant) (f : loc) (k : key) (h : heap)
        (w : ProxyWorker) (c : object) (d : descriptor) :
  Handler.deref h f = Some (w, c) →
  records_wf (records w) →
  NoDup (Reflect_ownKeys c) →
  Worker.getOwnPropertyDescriptor w c k = Some d →
  desc_configurable d = true →
  ∃ h1 keys,
    Handler.deleteProperty f k h = Some (Ok true, h1) ∧
    Handler.ownKeys v f h1 = Some (Ok keys, h1) ∧
    k ∉ keys.
Proof.
  intros Hd Hwf Hnd Hdesc Hcf.
  set (w1 := Worker.addOp w k (DEL, None)).
  assert (Handler.deref (<[f := Proxy w1]> h) f = Some (w1, c)) as Hd1
      by by eapply deref_update.
  assert (records_wf (records w1)) as Hwf1 by by apply records_wf_addOp.
  assert (is_deleted (records w1) k = true) as Hdel by apply is_deleted_addOp_DEL.
  exists (<[f := Proxy w1]> h).
  assert (Handler.deleteProperty f k h = Some (Ok true, <[f := Proxy w1]> h)) as Hdp.
  { unfold Handler.deleteProperty, Worker.del. by rewrite Hd, Hdesc, Hcf. }
  unfold Handler.ownKeys. rewrite Hd1. destruct v.
  - destruct (ownKeys_as_mutable w1 c Hnd Hwf1) as [-> _].
    eexists. split; [done|]. split; [done|].
    unfold listOwnKeys_spec. rewrite elem_of_app, !list_elem_of_filter.
    intros [[H1 _]|[[_ H1] _]].
    all: exact (eq_true_false_abs _ Hdel H1).
  - unfold Worker.ownKeys. rewrite ownKeys_original_spec by done. simpl.
    rewrite ownKeys_push_spec by done.
    eexists. split; [done|]. split; [done|].
    rewrite elem_of_app, !list_elem_of_filter.
    intros [[H1 _]|[H1 _]].
    all: exact (eq_true_false_abs _ Hdel H1).
Qed.

Lemma deleted_key_not_listed_witness :
  let h := Sample.wrapped ImMutable 2 Sample.h_nested in
  let w := new_ProxyWorker ImMutable Sample.h_nested 2 in
  let c := Sample.obj [(KStr "a", Sample.ref 0); (KStr "b", Sample.ref 1)] in
  (Handler.deref h 3 = Some (w, c) ∧ records_wf (records w) ∧
   NoDup (Reflect_ownKeys c) ∧
   Worker.getOwnPropertyDescriptor w c (KStr "a") = Some (Sample.full (VRef 0))) ∧
  ∃ h1 keys,
    Handler.deleteProperty 3 (KStr "a") h = Some (Ok true, h1) ∧
    Handler.ownKeys ImMutable 3 h1 = Some (Ok keys, h1) ∧
    KStr "a" ∉ keys.
Proof.
  intros h w c.
  assert (NoDup (Reflect_ownKeys c)) as Hnd.
  { apply (bool_decide_unpack _). vm_compute. exact I. }
  split; [repeat split; try reflexivity; try exact Hnd; constructor|].
  exact (deleted_key_not_listed ImMutable 3 (KStr "a") h w c _ eq_refl records_wf_nil
           Hnd eq_refl eq_refl).
Defined.

(** X24: in as-mutable.ts a deleted key still answers [has] through the
    ancestor, but never reads through it. Where [delete f[k]] records a
    Delete and the worker's ancestor is an object, [has] then answers
    whether the ancestor chain has [k], while a read of [f.k] yields
    [undefined] even when the chain has [k]. *)
Theorem deleted_key_has_but_reads_undefined (f : loc) (k : key) (h : heap)
        (w : ProxyWorker) (c : object) (d : descriptor) (ps : props) (parent : ancestor) :
  Handler.deref h f = Some (w, c) →
  Worker.getOwnPropertyDescriptor w c k = Some d →
  desc_configurable d = true →
  proto w = PObject ps parent →
  ∃ h1,
    Handler.deleteProperty f k h = Some (Ok true, h1) ∧
    Handler.has AsMutable f k h1 = Some (Ok (chain_has (AObj ps parent) k), h1) ∧
    Handler.get AsMutable f k h1 = Some (Ok VUndef, h1).
Proof.
  intros Hd Hdesc Hcf Hp.
  set (w1 := Worker.addOp w k (DEL, None)).
  assert (Handler.deref (<[f := Proxy w1]> h) f = Some (w1, c)) as Hd1
      by by eapply deref_update.
  destruct (deref_worker _ _ _ _ Hd1) as [Hf1 _].
  assert (Worker.query w1 k = Some (DEL, None)) as Hq by apply query_addOp_eq.
  exists (<[f := Proxy w1]> h). split.
  { unfold Handler.deleteProperty, Worker.del. by rewrite Hd, Hdesc, Hcf. }
  split.
  - unfold Handler.has, Worker.has. rewrite Hd1, Hq. simpl.
    change (proto w1) with (proto w). by rewrite Hp.
  - unfold Handler.get, Worker.get. rewrite Hd1, Hq. simpl.
    by rewrite list_insert_id.
Qed.

Lemma deleted_key_has_but_reads_undefined_witness :
  let h := Sample.wrapped AsMutable 0 Sample.h_toString in
  (Handler.deref h 1
   = Some (new_ProxyWorker AsMutable Sample.h_toString 0,
           Sample.obj [(KStr "toString", Sample.num 1)]) ∧
   proto (new_ProxyWorker AsMutable Sample.h_toString 0) = protoval_of Object_prototype) ∧
  ∃ h1,
    Handler.deleteProperty 1 (KStr "toString") h = Some (Ok true, h1) ∧
    Handler.has AsMutable 1 (KStr "toString") h1 = Some (Ok true, h1) ∧
    Handler.get AsMutable 1 (KStr "toString") h1 = Some (Ok VUndef, h1).
Proof.
  intros h. split; [split; reflexivity|].
  exact (deleted_key_has_but_reads_undefined 1 (KStr "toString") h _ _ _ _ _
           eq_refl eq_refl eq_refl eq_refl).
Defined.

(* ================================================================== *)
(** ** Further properties: a Delete in the materialiser *)

Lemma own_prop_None_not_elem (k : key) (ps : props) :
  own_prop ps k = None → k ∉ ps.*1.
Proof.
  induction ps as [|[k0 p0] ps IH]; simpl; [intros _; apply not_elem_of_nil|].
  destruct (decide (k0 = k)) as [->|Hne]; [done|].
  intros H. apply not_elem_of_cons. split; [done|]. by apply IH.
Qed.

Lemma add_prop_keys (k : key) (p : property) (ps : props) :
  (add_prop k p ps).*1 ≡ₚ k :: ps.*1.
Proof.
  induction ps as [|[k0 p0] ps IH]; simpl; [done|].
  destruct (key_before k k0); simpl; [done|].
  rewrite IH. apply Permutation_swap.
Qed.

Lemma replace_prop_keys (k : key) (p : property) (ps : props) :
  (replace_prop k p ps).*1 = ps.*1.
Proof.
  induction ps as [|[k0 p0] ps IH]; simpl; [done|].
  destruct (decide (k0 = k)) as [->|Hne]; simpl; [done|]. f_equal. exact IH.
Qed.

Lemma put_prop_NoDup (k : key) (p : property) (ps : props) :
  NoDup ps.*1 → NoDup (put_prop k p ps).*1.
Proof.
  intros Hnd. unfold put_prop. destruct (own_prop ps k) eqn:Ho; cbv beta iota.
  - by rewrite replace_prop_keys.
  - rewrite add_prop_keys. apply NoDup_cons. split; [|done].
    by apply own_prop_None_not_elem.
Qed.

Lemma remove_prop_keys_elem (k k' : key) (ps : props) :
  k' ∈ (remove_prop k ps).*1 → k' ∈ ps.*1.
Proof.
  induction ps as [|[k0 p0] ps IH]; simpl; [done|].
  destruct (decide (k0 = k)) as [->|Hne]; simpl.
  - intros H. by right.
  - intros [->|H]%elem_of_cons; [left|right]. by apply IH.
Qed.

Lemma remove_prop_NoDup (k : key) (ps : props) :
  NoDup ps.*1 → NoDup (remove_prop k ps).*1 ∧ own_prop (remove_prop k ps) k = None.
Proof.
  induction ps as [|[k0 p0] ps IH]; simpl; [done|].
  intros [Hnin Hnd]%NoDup_cons.
  destruct (decide (k0 = k)) as [->|Hne]; simpl.
  - split; [done|]. by apply own_prop_not_elem.
  - destruct (IH Hnd) as [Hnd' Hown]. split.
    + apply NoDup_cons. split; [|done]. intros Hin. apply Hnin.
      by eapply remove_prop_keys_elem.
    + by rewrite decide_False.
Qed.

Lemma mapM_keys (f : property → option value) (l ps : props) :
  mapM (λ kp : key * property, (λ x, (kp.1, Data x true true true)) <$> f kp.2) l = Some ps →
  ps.*1 = l.*1.
Proof.
  intros H. apply mapM_Some_1 in H.
  induction H as [|[k0 p0] [k1 p1] l ps H0 _ IH]; [done|].
  simpl in *. destruct (f p0) as [x|]; simpl in *; simplify_eq. by f_equal.
Qed.

Lemma spread_object_NoDup (c d : object) :
  spread_object c = Some d → NoDup (Reflect_ownKeys c) → NoDup (o_props d).*1.
Proof.
  unfold spread_object, Reflect_ownKeys. intros H Hnd.
  apply bind_Some in H as (ps & Hm & H). simplify_eq. simpl.
  rewrite (mapM_keys (λ p, prop_get p (o_proto c)) _ _ Hm).
  assert ((filter (λ kp : key * property, prop_enumerable kp.2 = true) (o_props c)).*1
          `sublist_of` (o_props c).*1) as Hsub
      by apply fmap_sublist, sublist_filter.
  by eapply sublist_NoDup.
Qed.

Lemma store_prop_object_NoDup (o o' : object) (k : key) (p : property) :
  o_kind o = KObject → NoDup (o_props o).*1 → store_prop o k p = Some (Ok o') →
  NoDup (o_props o').*1.
Proof.
  intros Hk Hnd. unfold store_prop. rewrite Hk. intros [= <-]. simpl.
  by apply put_prop_NoDup.
Qed.

Lemma obj_assign_object_NoDup (o o' : object) (k : key) (x : protoval) :
  o_kind o = KObject → NoDup (o_props o).*1 → obj_assign o k x = Some (Ok o') →
  NoDup (o_props o').*1.
Proof.
  intros Hk Hnd H. unfold obj_assign in H.
  assert (∀ o1, set_prototype o x = Some (Ok o1) → NoDup (o_props o1).*1) as Hsp.
  { intros o1 H1. apply set_prototype_props in H1 as [_ Hp]. by rewrite Hp. }
  destruct (own_prop (o_props o) k) as [[x0 [] e c|g [[sid|]|] e c]|];
    try destruct x as [y|ps parent]; simplify_eq;
    try (by eapply store_prop_object_NoDup); try done; try (by apply Hsp).
  all: destruct (chain_prop (o_proto o) k) as [[x0 [] e c|g [[sid|]|] e c]|]; simplify_eq;
    try (by eapply store_prop_object_NoDup); try done; try (by apply Hsp).
Qed.

Lemma duplicate_object_NoDup (v : variant) (w : ProxyWorker) (c d : object) :
  o_kind c = KObject → NoDup (Reflect_ownKeys c) → duplicate v w c = Some (Ok d) →
  NoDup (o_props d).*1.
Proof.
  intros Hk Hnd H. unfold duplicate in H. rewrite Hk in H.
  destruct (spread_object c) as [d0|] eqn:Hs; [|done].
  pose proof (spread_object_NoDup _ _ Hs Hnd) as Hnd0.
  destruct v; [|by simplify_eq].
  eapply obj_assign_object_NoDup; [|exact Hnd0|exact H].
  by destruct (own_prop_spread_object_eq c d0 (KStr "a") Hs Hnd) as (? & _).
Qed.

Lemma getValue_record_object_NoDup
      (rec : value → heap → option (res value * heap)) (c : object)
      (k : key) (record : list op) (result result' : object)
      (mutated mutated' : bool) (h h' : heap) :
  o_kind result = KObject → NoDup (o_props result).*1 →
  getValue_record rec c k record result mutated h = Some (Ok (result', mutated'), h') →
  o_kind result' = KObject ∧ NoDup (o_props result').*1.
Proof.
  intros Hk Hnd H. unfold getValue_record in H.
  destruct (last record) as [[opcode desc]|]; [|done].
  destruct opcode.
  1,2: destruct desc as [d|]; [|done];
       destruct (rec (desc_value d) h) as [[[nv|e] h2]|]; try done;
       destruct (obj_set result k nv) as [[ro|e]|] eqn:Hr; simplify_eq;
       (split; [by rewrite (obj_set_kind _ _ _ _ Hr)|]);
       by eapply obj_assign_object_NoDup.
  - destruct (obj_delete result k) as [ro|e] eqn:Hd; simplify_eq.
    split; [by rewrite (obj_delete_kind _ _ _ Hd)|].
    unfold obj_delete in Hd. destruct (own_prop (o_props result) k) as [p|];
      [|by simplify_eq].
    destruct (prop_configurable p); simplify_eq. simpl.
    by apply remove_prop_NoDup.
  - destruct desc as [d|]; [|done].
    destruct (obj_define result k d) as [[ro|e]|] eqn:Hr; simplify_eq.
    split; [by rewrite (obj_define_kind _ _ _ _ Hr)|]. unfold obj_define in Hr.
    destruct (is_accessor_desc d && is_data_desc d); [done|].
    destruct (own_prop (o_props result) k) as [cur|].
    + destruct (compatible cur d); [|done]. by eapply store_prop_object_NoDup.
    + by eapply store_prop_object_NoDup.
Qed.

Lemma getValue_forEach_deleted
      (rec : value → heap → option (res value * heap)) (c : object) (k : key)
      (m : recordsMap) :
  NoDup m.*1 →
  is_deleted m k = true →
  ∀ (result result' : object) (mutated mutated' : bool) (h h' : heap),
    o_kind result = KObject → NoDup (o_props result).*1 →
    getValue_forEach rec c m result mutated h = Some (Ok (result', mutated'), h') →
    mutated' = true ∧ own_prop (o_props result') k = None.
Proof.
  induction m as [|[k' record] m IH]; intros Hnd Hdel; [done|].
  simpl in Hnd. apply NoDup_cons in Hnd as [Hnin Hnd].
  intros result result' mutated mutated' h h' Hk Hndr H. simpl in H.
  destruct (getValue_record rec c k' record result mutated h)
    as [[[[r1 mu1]|e] h1]|] eqn:Hs; try done.
  destruct (getValue_record_object_NoDup _ _ _ _ _ _ _ _ _ _ Hk Hndr Hs) as [Hk1 Hnd1].
  destruct (decide (k' = k)) as [->|Hne].
  - rewrite is_deleted_cons_eq in Hdel.
    destruct (last record) as [[[] desc]|] eqn:Hl; try done.
    unfold getValue_record in Hs. rewrite Hl in Hs.
    destruct (obj_delete result k) as [ro|e] eqn:Hd; simplify_eq.
    split.
    + destruct mutated'; [done|].
      by destruct (proj1 (getValue_forEach_mutated _ _ _ _ _ _ _ _ _ H) eq_refl).
    + rewrite (getValue_forEach_object_ne _ _ _ _ _ _ _ _ _ _
                 (records_get_not_elem _ _ Hnin) Hk1 H).
      unfold obj_delete in Hd. destruct (own_prop (o_props result) k) as [p|] eqn:Ho;
        [|by simplify_eq].
      destruct (prop_configurable p); simplify_eq. simpl.
      by apply remove_prop_NoDup.
  - rewrite is_deleted_cons_ne in Hdel by done. by eapply IH.
Qed.

(** X25: a deleted key forces a copy without it. For an object-like
    origin with own keys free of duplicates and a log with one record per
    key, if the last logged entry of [k] is a Delete and [unwrap(f)]
    returns, it returns a container allocated by the call that does not
    own [k]; the origin still holds what it held. *)
Theorem deleted_key_absent_from_copy (v : variant) (fuel : nat) (f : loc) (h h' : heap)
        (w : ProxyWorker) (c : object) (r : value) (k : key) :
  worker_at h f = Some w →
  plain_at h (client w) = Some c →
  o_kind c = KObject →
  NoDup (Reflect_ownKeys c) →
  NoDup (records w).*1 →
  is_deleted (records w) k = true →
  getValue v fuel (VRef f) h = Some (Ok r, h') →
  ∃ ro,
    r = VRef (length h) ∧ h !! length h = None ∧
    plain_at h' (length h) = Some ro ∧
    own_prop (o_props ro) k = None ∧
    plain_at h' (client w) = Some c.
Proof.
  intros Hw Hc Hkind Hnd Hndr Hdel Hr.
  assert (plain_at h' (client w) = Some c) as Hc'.
  { eapply plain_at_prefix; [by eapply getValue_prefix|done]. }
  destruct fuel as [|n]; [simpl in Hr; by rewrite Hw in Hr|].
  rewrite getValue_S in Hr. simpl in Hr. rewrite Hw, Hc in Hr.
  destruct (records w) as [|kr m] eqn:Hm; [done|].
  destruct (duplicate v w c) as [[d|e]|] eqn:Hdup; try done.
  destruct (getValue_forEach (getValue v n) c (kr :: m) d false
              (h ++ [Plain d])) as [[[[ro mu]|e] h1]|] eqn:Hf; try done.
  destruct (getValue_forEach_deleted _ _ _ _ Hndr Hdel _ _ _ _ _ _
              (eq_trans (o_kind_duplicate v w c d Hdup) Hkind)
              (duplicate_object_NoDup v w c d Hkind Hnd Hdup)
              Hf) as [-> Hown].
  pose proof (getValue_forEach_prefix _ c (getValue_prefix v n) _ _ _ _ _ _ Hf)
    as [ext ->].
  simplify_eq. exists ro. split; [done|]. split; [by apply lookup_ge_None_2|].
  split; [|done].
  unfold plain_at. rewrite <- (assoc_L (++)). simpl. rewrite insert_fresh_copy.
  by rewrite list_lookup_middle.
Qed.

Lemma deleted_key_absent_from_copy_witness :
  let h := run AsMutable (Sample.wrapped AsMutable 2 Sample.h_nested)
               [DeleteProperty 3 (KStr "a")] in
  let c := Sample.obj [(KStr "a", Sample.ref 0); (KStr "b", Sample.ref 1)] in
  ∃ w h' ro,
    (worker_at h 3 = Some w ∧ plain_at h (client w) = Some c ∧
     NoDup (Reflect_ownKeys c) ∧ NoDup (records w).*1 ∧
     is_deleted (records w) (KStr "a") = true ∧
     getValue AsMutable 1 (VRef 3) h = Some (Ok (VRef 4), h')) ∧
    plain_at h' 4 = Some ro ∧
    own_prop (o_props ro) (KStr "a") = None ∧
    own_prop (o_props ro) (KStr "b") = Some (Sample.ref 1).
Proof.
  intros h c.
  assert (NoDup (Reflect_ownKeys c)) as Hnd.
  { apply (bool_decide_unpack _). vm_compute. exact I. }
  assert (NoDup [KStr "a"]) as Hndr by apply NoDup_singleton.
  destruct (deleted_key_absent_from_copy AsMutable 1 3 h
              (step AsMutable h (Unwrap 1 (VRef 3))) _ c (VRef 4) (KStr "a")
              eq_refl eq_refl eq_refl Hnd Hndr eq_refl eq_refl)
    as (ro & _ & _ & Hro & Hown & _).
  eexists _, _, ro. split; [repeat split; try reflexivity; assumption|].
  split; [exact Hro|]. split; [exact Hown|].
  vm_compute in Hro. injection Hro as <-. reflexivity.
Defined.
